(** * OpenAL sound output of OpenMW: a shallow embedding

    Source: [apps/openmw/mwsound/openal_output.cpp].

    The file drives two external collaborators, the OpenAL library and the
    sound decoder.  Both are kept as interfaces ([OpenAL], [Sound_Decoder]):
    the program is written against them, every call it issues is recorded in
    a trace, and the theorems hold for every implementation.  A small
    software device and a raw PCM decoder instantiate the interfaces where a
    statement is run on concrete data. *)

From Stdlib Require Import String Ascii.
From Stdlib Require Import ZArith List Bool Lia.
From Stdlib Require Import Floats.SpecFloat.
From Stdlib Require Import Init.Byte.
From Stdlib Require Strings.Byte.
Import ListNotations.
Open Scope Z_scope.

(** ** Base types *)

Definition ALuint := Z.
Definition ALint := Z.
Definition ALenum := Z.
Definition ALsizei := Z.
(** [ALfloat] is an IEEE binary32 value. *)
Definition ALfloat := spec_float.

Definition float_of_Z (n : Z) : ALfloat := binary_normalize 24 128 n 0 false.
Definition zero_f : ALfloat := S754_zero false.
Definition one_f : ALfloat := float_of_Z 1.
Definition thousand_f : ALfloat := float_of_Z 1000.
(** Unary minus on a float flips the sign bit. *)
Definition fneg (x : ALfloat) : ALfloat := SFopp x.

(** A position or direction: [const float *pos], read at indices 0, 1, 2. *)
Record vec3 := Vec3 { pos0 : ALfloat; pos1 : ALfloat; pos2 : ALfloat }.

(** Constants of AL/al.h and AL/alc.h. *)
Definition AL_NONE : ALenum := 0.
Definition AL_FALSE : ALint := 0.
Definition AL_TRUE : ALint := 1.
Definition AL_NO_ERROR : ALenum := 0.
Definition AL_SOURCE_RELATIVE : ALenum := 0x202.
Definition AL_PITCH : ALenum := 0x1003.
Definition AL_POSITION : ALenum := 0x1004.
Definition AL_DIRECTION : ALenum := 0x1005.
Definition AL_VELOCITY : ALenum := 0x1006.
Definition AL_LOOPING : ALenum := 0x1007.
Definition AL_BUFFER : ALenum := 0x1009.
Definition AL_GAIN : ALenum := 0x100A.
Definition AL_ORIENTATION : ALenum := 0x100F.
Definition AL_SOURCE_STATE : ALenum := 0x1010.
Definition AL_INITIAL : ALenum := 0x1011.
Definition AL_PLAYING : ALenum := 0x1012.
Definition AL_PAUSED : ALenum := 0x1013.
Definition AL_STOPPED : ALenum := 0x1014.
Definition AL_BUFFERS_QUEUED : ALenum := 0x1015.
Definition AL_BUFFERS_PROCESSED : ALenum := 0x1016.
Definition AL_REFERENCE_DISTANCE : ALenum := 0x1020.
Definition AL_ROLLOFF_FACTOR : ALenum := 0x1021.
Definition AL_MAX_DISTANCE : ALenum := 0x1023.
Definition AL_FORMAT_MONO8 : ALenum := 0x1100.
Definition AL_FORMAT_MONO16 : ALenum := 0x1101.
Definition AL_FORMAT_STEREO8 : ALenum := 0x1102.
Definition AL_FORMAT_STEREO16 : ALenum := 0x1103.
Definition AL_INVALID_VALUE : ALenum := 0xA003.
Definition AL_OUT_OF_MEMORY : ALenum := 0xA005.
Definition AL_LINEAR_DISTANCE_CLAMPED : ALenum := 0xD004.
Definition ALC_FALSE : Z := 0.
Definition ALC_TRUE : Z := 1.
Definition ALC_NO_ERROR : ALenum := 0.
Definition ALC_DEVICE_SPECIFIER : ALenum := 0x1005.
Definition ALC_MONO_SOURCES : ALenum := 0x1010.
Definition ALC_STEREO_SOURCES : ALenum := 0x1011.

(** Modelled from the spec: [enum ChannelConfig] is declared in
    sound_decoder.hpp, which is not among the sources.  The code names the
    enumerators mono and stereo; the spec speaks of other channel layouts
    that must be rejected, kept here by their integer value. *)
Inductive ChannelConfig :=
| ChannelConfig_Mono
| ChannelConfig_Stereo
| ChannelConfig_Other (raw : Z).

(** Modelled from the spec: [enum SampleType] of sound_decoder.hpp, with the
    two enumerators the code names and any other sample type by value. *)
Inductive SampleType :=
| SampleType_UInt8
| SampleType_Int16
| SampleType_Other (raw : Z).

Definition ChannelConfig_eqb (a b : ChannelConfig) : bool :=
  match a, b with
  | ChannelConfig_Mono, ChannelConfig_Mono => true
  | ChannelConfig_Stereo, ChannelConfig_Stereo => true
  | ChannelConfig_Other x, ChannelConfig_Other y => x =? y
  | _, _ => false
  end.

Definition SampleType_eqb (a b : SampleType) : bool :=
  match a, b with
  | SampleType_UInt8, SampleType_UInt8 => true
  | SampleType_Int16, SampleType_Int16 => true
  | SampleType_Other x, SampleType_Other y => x =? y
  | _, _ => false
  end.

(** ** Exceptions, traces and the state-and-error monad *)

Inductive exception :=
| runtime_error (what : string)
| length_error.

Inductive Outcome (A : Type) :=
| Ok (a : A)
| Throw (e : exception).
Arguments Ok {A} a.
Arguments Throw {A} e.

(** Calls into the OpenAL library, one constructor per entry point used. *)
Inductive ALcall :=
| alGetError
| alGenBuffers (n : ALsizei)
| alDeleteBuffers (bufs : list ALuint)
| alIsBuffer (buf : ALuint)
| alBufferData (buf : ALuint) (format : ALenum) (data : list byte)
    (size : Z) (freq : ALsizei)
| alGenSources (n : ALsizei)
| alDeleteSources (srcs : list ALuint)
| alSourcei (src : ALuint) (param : ALenum) (value : ALint)
| alSourcef (src : ALuint) (param : ALenum) (value : ALfloat)
| alSource3f (src : ALuint) (param : ALenum) (v1 v2 v3 : ALfloat)
| alGetSourcei (src : ALuint) (param : ALenum)
| alSourcePlay (src : ALuint)
| alSourceStop (src : ALuint)
| alSourceQueueBuffers (src : ALuint) (bufs : list ALuint)
| alSourceUnqueueBuffers (src : ALuint) (n : ALsizei)
| alListener3f (param : ALenum) (v1 v2 v3 : ALfloat)
| alListenerfv (param : ALenum) (values : list ALfloat)
| alDistanceModel (model : ALenum)
| alcOpenDevice (devname : string)
| alcCreateContext (device : Z)
| alcMakeContextCurrent (context : Z)
| alcDestroyContext (context : Z)
| alcCloseDevice (device : Z)
| alcGetIntegerv (device : Z) (param : ALenum)
| alcGetError (device : Z).

(** Calls into the decoder. [DecRead] records the requested and the obtained
    byte counts. *)
Inductive DecoderCall :=
| DecOpen (fname : string)
| DecGetInfo
| DecRead (len got : Z)
| DecRewind
| DecClose.

Inductive Event :=
| EvAL (c : ALcall) (out : list Z)
| EvDecoder (c : DecoderCall)
| EvStdout (text : string).

(** A computation over a state [S]: its outcome, the state it leaves (also
    when it throws) and the calls it made, oldest first. *)
Definition M (S A : Type) : Type := S -> Outcome A * S * list Event.

Definition ret {S A} (a : A) : M S A := fun s => (Ok a, s, []).

Definition bind {S A B} (m : M S A) (f : A -> M S B) : M S B :=
  fun s =>
    match m s with
    | (Ok a, s1, t1) =>
        match f a s1 with
        | (r, s2, t2) => (r, s2, t1 ++ t2)
        end
    | (Throw e, s1, t1) => (Throw e, s1, t1)
    end.

Definition throw {S A} (e : exception) : M S A := fun s => (Throw e, s, []).

(** [try { m } catch(std::exception &e) { h e }] *)
Definition try_catch {S A} (m : M S A) (h : exception -> M S A) : M S A :=
  fun s =>
    match m s with
    | (Ok a, s1, t1) => (Ok a, s1, t1)
    | (Throw e, s1, t1) =>
        match h e s1 with
        | (r, s2, t2) => (r, s2, t1 ++ t2)
        end
    end.

Definition get {S} : M S S := fun s => (Ok s, s, []).
Definition put {S} (s : S) : M S unit := fun _ => (Ok tt, s, []).
Definition modify {S} (f : S -> S) : M S unit := fun s => (Ok tt, f s, []).
Definition emit {S} (e : Event) : M S unit := fun s => (Ok tt, s, [e]).

Declare Scope monad_scope.
Delimit Scope monad_scope with monad.
Notation "x <- m ;; k" := (bind m (fun x => k))
  (at level 61, m at next level, right associativity) : monad_scope.
Notation "m ;; k" := (bind m (fun _ => k))
  (at level 61, right associativity) : monad_scope.
Open Scope monad_scope.

Definition outcome {S A} (r : Outcome A * S * list Event) : Outcome A :=
  fst (fst r).
Definition final {S A} (r : Outcome A * S * list Event) : S := snd (fst r).
Definition trace {S A} (r : Outcome A * S * list Event) : list Event :=
  snd r.

(** [fail] of the source: every error of this file is a
    [std::runtime_error] with the prefix below. *)
Definition fail {S A} (msg : string) : M S A :=
  throw (runtime_error ("OpenAL exception: " ++ msg)%string).

(** ** The two collaborators *)

(** The OpenAL library.  [al_call c d] performs call [c] on device state [d]
    and gives the values the call returns or writes through its out
    pointers.  [alGetString] and [alcGetString] give the library's text for
    an error code.  [al_unwritten d] is what an out variable that the
    program did not initialise holds when a call has returned without
    writing it: whatever the memory held, which the program has no say in;
    [d], the state after the call, stands for all there is outside the
    program. *)
Class OpenAL (Dev : Type) := {
  al_call : ALcall -> Dev -> list Z * Dev;
  alGetString : ALenum -> string;
  alcGetString : Z -> ALenum -> string;
  al_unwritten : Dev -> ALuint
}.

(** Free functions of sound_decoder.hpp used here; their bodies are not part
    of this file, so they are taken as given. *)
Class Sound_DecoderLib := {
  getChannelConfigName : ChannelConfig -> string;
  getSampleTypeName : SampleType -> string;
  framesToBytes : Z -> ChannelConfig -> SampleType -> Z
}.

(** The decoder, [Sound_Decoder] behind [DecoderPtr].  [getDecoder] is the
    fresh decoder the sound manager hands out.  [dec_remaining] is the
    amount of data a decoder can still deliver: a read that returns data
    consumes some of it. *)
Class Sound_Decoder (D : Type) := {
  getDecoder : D;
  dec_open : string -> D -> exception + D;
  dec_getInfo : D -> exception + (Z * ChannelConfig * SampleType);
  dec_read : Z -> D -> list byte * D;
  dec_rewind : D -> D;
  dec_close : D -> D;
  dec_remaining : D -> nat;
  dec_read_progress : forall len d,
    fst (dec_read len d) <> [] ->
    (dec_remaining (snd (dec_read len d)) < dec_remaining d)%nat
}.

(** ** The output device object and the library call primitive *)

(** [OpenAL_Output], together with the state of the OpenAL library it talks
    to.  Pointers ([mDevice], [mContext], the stream pointers of
    [StreamThread::mStreams]) are handles, 0 for the null pointer.
    [mFreeSources] is the vector of free voices, back element last. *)
Record OpenAL_Output (Dev : Type) := mkOutput {
  al_device : Dev;
  mDevice : Z;
  mContext : Z;
  mFreeSources : list ALuint;
  mStreams : list Z
}.
Arguments mkOutput {Dev}.
Arguments al_device {Dev}.
Arguments mDevice {Dev}.
Arguments mContext {Dev}.
Arguments mFreeSources {Dev}.
Arguments mStreams {Dev}.

Definition set_al_device {Dev} (d : Dev) (o : OpenAL_Output Dev) :=
  mkOutput d (mDevice o) (mContext o) (mFreeSources o) (mStreams o).
Definition set_mDevice {Dev} (v : Z) (o : OpenAL_Output Dev) :=
  mkOutput (al_device o) v (mContext o) (mFreeSources o) (mStreams o).
Definition set_mContext {Dev} (v : Z) (o : OpenAL_Output Dev) :=
  mkOutput (al_device o) (mDevice o) v (mFreeSources o) (mStreams o).
Definition set_mFreeSources {Dev} (v : list ALuint) (o : OpenAL_Output Dev) :=
  mkOutput (al_device o) (mDevice o) (mContext o) v (mStreams o).
Definition set_mStreams {Dev} (v : list Z) (o : OpenAL_Output Dev) :=
  mkOutput (al_device o) (mDevice o) (mContext o) (mFreeSources o) v.

(** [std::vector] operations used on [mFreeSources] and [mStreams]. *)
Definition push_back {A} (x : A) (v : list A) : list A := v ++ [x].
Definition back (v : list ALuint) : ALuint := last v 0.
Definition pop_back {A} (v : list A) : list A := removelast v.
(** [resize n] truncates to [n] elements or pads with zeros. *)
Definition resize (n : nat) (v : list ALuint) : list ALuint :=
  firstn n v ++ repeat 0 (n - length v).
(** [v[i] = x] for [i] inside the vector. *)
Fixpoint assign (i : nat) (x : ALuint) (v : list ALuint) : list ALuint :=
  match v, i with
  | [], _ => []
  | _ :: r, O => x :: r
  | y :: r, S j => y :: assign j x r
  end.
(** [erase(find(v, x))]: the first occurrence is removed. *)
Fixpoint erase_first (x : Z) (v : list Z) : list Z :=
  match v with
  | [] => []
  | y :: r => if y =? x then r else y :: erase_first x r
  end.
Definition contains (x : Z) (v : list Z) : bool :=
  existsb (fun y => y =? x) v.

(** An array of [n] names filled by the library; an entry the library left
    untouched reads as 0. *)
Definition array_of (n : Z) (out : list Z) : list Z :=
  map (fun i => nth i out 0) (seq 0 (Z.to_nat n)).

(** [int] addition, two's complement on 32 bits. *)
Definition int_add (a b : Z) : Z := (a + b + 2 ^ 31) mod 2 ^ 32 - 2 ^ 31.

(** The double quote character inside a message. *)
Definition dquote : string := String (ascii_of_nat 34) EmptyString.

(** What [std::endl] writes: a newline. *)
Definition endl : string := String (ascii_of_nat 10) EmptyString.

(** [s.c_str()] as a C function reads it: the characters before the first
    NUL. *)
Fixpoint c_str (s : string) : string :=
  match s with
  | EmptyString => EmptyString
  | String c rest =>
      if Ascii.eqb c Ascii.zero then EmptyString else String c (c_str rest)
  end.

(** The first value a call wrote back, read as 0 when the call wrote
    nothing.  It is used for return values, for variables the code sets to
    0 beforehand, and for variables the code reads only once a poll of the
    error state has passed; the one variable read without such a poll goes
    through [al_out] below. *)
Definition out1 (out : list Z) : Z := hd 0 out.

Section Program.
Context {Dev : Type} `{AL : OpenAL Dev}.
Context {D : Type} `{DEC : Sound_Decoder D}.
Context `{LIB : Sound_DecoderLib}.

(** One library call: the device steps and the call is recorded with what
    it returned. *)
Definition al (c : ALcall) : M (OpenAL_Output Dev) (list Z) :=
  fun o =>
    match al_call c (al_device o) with
    | (out, d) => (Ok out, set_al_device d o, [EvAL c out])
    end.

(** A call with an out variable that the program declares without a value
    ([ALuint bufid; alSourceUnqueueBuffers(mSource, 1, &bufid)]) and reads
    without a check: the value read is the one the call wrote, or what the
    variable held when the call wrote nothing. *)
Definition al_out (c : ALcall) : M (OpenAL_Output Dev) (list Z * ALuint) :=
  fun o =>
    match al_call c (al_device o) with
    | (out, d) =>
        (Ok (out, hd (al_unwritten d) out), set_al_device d o, [EvAL c out])
    end.

(** Lines 20-25. *)
Definition throwALCerror (device : Z) : M (OpenAL_Output Dev) unit :=
  err <- al (alcGetError device) ;;
  if out1 err =? ALC_NO_ERROR then ret tt
  else fail (alcGetString device (out1 err)).

(** Lines 27-32. *)
Definition throwALerror : M (OpenAL_Output Dev) unit :=
  err <- al alGetError ;;
  if out1 err =? AL_NO_ERROR then ret tt
  else fail (alGetString (out1 err)).

(** ** Format negotiation, lines 35-56 *)

Definition fmtlist : list (ALenum * ChannelConfig * SampleType) :=
  [ (AL_FORMAT_MONO16, ChannelConfig_Mono, SampleType_Int16);
    (AL_FORMAT_MONO8, ChannelConfig_Mono, SampleType_UInt8);
    (AL_FORMAT_STEREO16, ChannelConfig_Stereo, SampleType_Int16);
    (AL_FORMAT_STEREO8, ChannelConfig_Stereo, SampleType_UInt8) ].

(** The [for] loop over [fmtlist]: the first matching entry is returned. *)
Fixpoint getALFormat_loop (l : list (ALenum * ChannelConfig * SampleType))
    (chans : ChannelConfig) (type : SampleType) : option ALenum :=
  match l with
  | [] => None
  | (format, c, t) :: rest =>
      if ChannelConfig_eqb c chans && SampleType_eqb t type then Some format
      else getALFormat_loop rest chans type
  end.

Definition getALFormat {S} (chans : ChannelConfig) (type : SampleType)
    : M S ALenum :=
  match getALFormat_loop fmtlist chans type with
  | Some format => ret format
  | None =>
      fail ("Unsupported sound format (" ++ getChannelConfigName chans
            ++ ", " ++ getSampleTypeName type ++ ")")%string
  end.

(** ** The streaming sound, lines 61-89 *)

Definition sNumBuffers : ALuint := 6.
(** [sBufferLength = 0.125f], that is 2^23 * 2^-26. *)
Definition sBufferLength : ALfloat := S754_finite false 8388608 (-26).

(** [static_cast<ALuint>] of a float: the fraction is dropped.  The cast of
    a value outside the range of [ALuint] is undefined in C++; it is taken
    as g++ compiles it for x86-64, the conversion to a 64-bit integer with
    the low 32 bits kept: a negative value wraps around (-1 gives
    4294967295), and an infinite or NaN value gives 0. *)
Definition ALuint_of_float (x : ALfloat) : ALuint :=
  match x with
  | S754_finite sign m e =>
      let n := if e >=? 0 then Z.pos m * 2 ^ e else Z.pos m / 2 ^ (- e) in
      (if sign then - n else n) mod 2 ^ 32
  | _ => 0
  end.

(** [self] stands for the address of the object ([this]), by which the
    streaming thread knows it. *)
Record OpenAL_SoundStream := mkStream {
  self : Z;
  mSource : ALuint;
  mBuffers : list ALuint;
  mFormat : ALenum;
  mSampleRate : ALsizei;
  mBufferSize : ALuint;
  mDecoder : D;
  mIsFinished : bool
}.

Definition set_mIsFinished (b : bool) (s : OpenAL_SoundStream) :=
  mkStream (self s) (mSource s) (mBuffers s) (mFormat s) (mSampleRate s)
    (mBufferSize s) (mDecoder s) b.
Definition set_mDecoder (d : D) (s : OpenAL_SoundStream) :=
  mkStream (self s) (mSource s) (mBuffers s) (mFormat s) (mSampleRate s)
    (mBufferSize s) d (mIsFinished s).

(** A method of the stream runs on the object and on the output device it
    refers to ([mOutput]). *)
Definition StreamM (A : Type) : Type :=
  M (OpenAL_SoundStream * OpenAL_Output Dev) A.

Definition on_output {O A} (m : M (OpenAL_Output Dev) A)
    : M (O * OpenAL_Output Dev) A :=
  fun st =>
    match m (snd st) with
    | (r, o, t) => (r, (fst st, o), t)
    end.

Definition this {O X} : M (O * X) O := fun st => (Ok (fst st), st, []).
Definition update_this {O X} (f : O -> O) : M (O * X) unit :=
  modify (fun st => (f (fst st), snd st)).

(** [mDecoder->read(&data[0], len)]: the bytes the decoder delivered. *)
Definition decoder_read (len : Z) : StreamM (list byte) :=
  fun st =>
    match dec_read len (mDecoder (fst st)) with
    | (data, d) =>
        (Ok data, (set_mDecoder d (fst st), snd st),
         [EvDecoder (DecRead len (Z.of_nat (length data)))])
    end.

Definition decoder_rewind : StreamM unit :=
  update_this (fun s => set_mDecoder (dec_rewind (mDecoder s)) s) ;;
  emit (EvDecoder DecRewind).

Definition decoder_close : StreamM unit :=
  update_this (fun s => set_mDecoder (dec_close (mDecoder s)) s) ;;
  emit (EvDecoder DecClose).

(** [decoder->getInfo(&srate, &chans, &type)], which may throw. *)
Definition decoder_getInfo {S} (d : D)
    : M S (Z * ChannelConfig * SampleType) :=
  emit (EvDecoder DecGetInfo) ;;
  match dec_getInfo d with
  | inl e => throw e
  | inr info => ret info
  end.

(** [decoder->open(fname)], which may throw. *)
Definition decoder_open {S} (fname : string) (d : D) : M S D :=
  emit (EvDecoder (DecOpen fname)) ;;
  match dec_open fname d with
  | inl e => throw e
  | inr d' => ret d'
  end.

(** [StreamThread::add], [remove] (lines 128-143), under the mutex. *)
Definition StreamThread_add (stream : Z) : M (OpenAL_Output Dev) unit :=
  modify (fun o =>
    if contains stream (mStreams o) then o
    else set_mStreams (push_back stream (mStreams o)) o).

Definition StreamThread_remove (stream : Z) : M (OpenAL_Output Dev) unit :=
  modify (fun o => set_mStreams (erase_first stream (mStreams o)) o).

Definition free_source (src : ALuint) : M (OpenAL_Output Dev) unit :=
  modify (fun o => set_mFreeSources (push_back src (mFreeSources o)) o).

(** Constructor, lines 154-181.  [addr] is the address of the new object. *)
Definition OpenAL_SoundStream_new (addr : Z) (src : ALuint) (decoder : D)
    : M (OpenAL_Output Dev) OpenAL_SoundStream :=
  throwALerror ;;
  out <- al (alGenBuffers sNumBuffers) ;;
  let bufs := array_of sNumBuffers out in
  throwALerror ;;
  try_catch
    (info <- decoder_getInfo decoder ;;
     let srate := fst (fst info) in
     let chans := snd (fst info) in
     let type := snd info in
     format <- getALFormat chans type ;;
     let frames :=
       ALuint_of_float (SFmul 24 128 sBufferLength (float_of_Z srate)) in
     ret (mkStream addr src bufs format srate
            (framesToBytes frames chans type) decoder true))
    (fun e =>
       free_source src ;;
       al (alDeleteBuffers bufs) ;;
       al alGetError ;;
       throw e).

(** Destructor, lines 182-194. *)
Definition OpenAL_SoundStream_delete : StreamM unit :=
  s <- this ;;
  on_output (StreamThread_remove (self s)) ;;
  on_output (al (alSourceStop (mSource s))) ;;
  on_output (al (alSourcei (mSource s) AL_BUFFER 0)) ;;
  on_output (free_source (mSource s)) ;;
  on_output (al (alDeleteBuffers (mBuffers s))) ;;
  on_output (al alGetError) ;;
  decoder_close.

(** The [for] loop of [play], lines 204-209, over the buffers left. *)
Fixpoint play_fill (bufs : list ALuint) : StreamM unit :=
  match bufs with
  | [] => ret tt
  | buf :: rest =>
      s <- this ;;
      data <- decoder_read (mBufferSize s) ;;
      on_output (al (alBufferData buf (mFormat s) data
                       (Z.of_nat (length data)) (mSampleRate s))) ;;
      play_fill rest
  end.

(** [play], lines 196-218. *)
Definition play : StreamM unit :=
  s <- this ;;
  on_output (al (alSourceStop (mSource s))) ;;
  on_output (al (alSourcei (mSource s) AL_BUFFER 0)) ;;
  on_output throwALerror ;;
  play_fill (mBuffers s) ;;
  on_output throwALerror ;;
  on_output (al (alSourceQueueBuffers (mSource s) (mBuffers s))) ;;
  on_output (al (alSourcePlay (mSource s))) ;;
  on_output throwALerror ;;
  update_this (set_mIsFinished false) ;;
  on_output (StreamThread_add (self s)).

(** [stop], lines 220-230. *)
Definition stop : StreamM unit :=
  s <- this ;;
  on_output (StreamThread_remove (self s)) ;;
  update_this (set_mIsFinished true) ;;
  on_output (al (alSourceStop (mSource s))) ;;
  on_output (al (alSourcei (mSource s) AL_BUFFER 0)) ;;
  on_output throwALerror ;;
  decoder_rewind.

(** [isPlaying], lines 232-242. *)
Definition isPlaying : StreamM bool :=
  s <- this ;;
  state <- on_output (al (alGetSourcei (mSource s) AL_SOURCE_STATE)) ;;
  on_output throwALerror ;;
  if out1 state =? AL_PLAYING then ret true
  else ret (negb (mIsFinished s)).

(** [update], lines 244-250. *)
Definition update (pos : vec3) : StreamM unit :=
  s <- this ;;
  on_output (al (alSource3f (mSource s) AL_POSITION
                   (pos0 pos) (pos2 pos) (fneg (pos1 pos)))) ;;
  on_output (al (alSource3f (mSource s) AL_DIRECTION zero_f zero_f zero_f)) ;;
  on_output (al (alSource3f (mSource s) AL_VELOCITY zero_f zero_f zero_f)) ;;
  on_output throwALerror.

(** The body of the [do ... while] of [process], lines 264-279, for one
    finished buffer. *)
Definition process_buffer : StreamM unit :=
  s <- this ;;
  unqueued <- on_output (al_out (alSourceUnqueueBuffers (mSource s) 1)) ;;
  let bufid := snd unqueued in
  if mIsFinished s then ret tt
  else
    data <- decoder_read (mBufferSize s) ;;
    let got := Z.of_nat (length data) in
    update_this (set_mIsFinished (got <? mBufferSize s)) ;;
    if got >? 0 then
      on_output (al (alBufferData bufid (mFormat s) data got
                       (mSampleRate s))) ;;
      on_output (al (alSourceQueueBuffers (mSource s) [bufid])) ;;
      ret tt
    else ret tt.

(** [do { ...; processed--; ... } while(processed > 0)].  The loop is
    entered with [processed > 0] and runs [processed] times; [fuel] is that
    number, so the loop ends on its condition. *)
Fixpoint process_loop (fuel : nat) (processed : ALint) : StreamM unit :=
  match fuel with
  | O => ret tt
  | S fuel' =>
      process_buffer ;;
      let processed := processed - 1 in
      if processed >? 0 then process_loop fuel' processed else ret tt
  end.

(** The restart of a stalled voice, lines 284-295, for the play state
    [state] read at the start of [process]. *)
Definition process_restart (state : ALint) : StreamM unit :=
  s <- this ;;
  if negb (state =? AL_PLAYING) && negb (state =? AL_PAUSED) then
    queued <- on_output (al (alGetSourcei (mSource s) AL_BUFFERS_QUEUED)) ;;
    on_output throwALerror ;;
    if out1 queued >? 0 then
      on_output (al (alSourcePlay (mSource s))) ;;
      on_output throwALerror
    else ret tt
  else ret tt.

(** [process], lines 252-298. *)
Definition process : StreamM bool :=
  s <- this ;;
  state <- on_output (al (alGetSourcei (mSource s) AL_SOURCE_STATE)) ;;
  processed <- on_output (al (alGetSourcei (mSource s)
                                AL_BUFFERS_PROCESSED)) ;;
  on_output throwALerror ;;
  (if out1 processed >? 0 then
     process_loop (Z.to_nat (out1 processed)) (out1 processed) ;;
     on_output throwALerror
   else ret tt) ;;
  process_restart (out1 state) ;;
  s' <- this ;;
  ret (negb (mIsFinished s')).

(** ** The one-shot sound, lines 303-381 *)

Record OpenAL_Sound := mkSound {
  snd_mSource : ALuint;
  snd_mBuffer : ALuint
}.

(** The [while] loop of [LoadBuffer], lines 332-336.  [data] holds the
    [total] bytes read so far and [size] is [data.size()].  A read that
    returns data consumes some of what is left, so [fuel] beyond
    [dec_remaining] is never used up. *)
Fixpoint LoadBuffer_loop {St} (fuel : nat) (decoder : D) (size : Z)
    (data : list byte) : M St (list byte * D) :=
  match fuel with
  | O => ret (data, decoder)
  | S fuel' =>
      let total := Z.of_nat (length data) in
      let r := dec_read (size - total) decoder in
      let got := Z.of_nat (length (fst r)) in
      emit (EvDecoder (DecRead (size - total) got)) ;;
      if got >? 0 then
        let data' := data ++ fst r in
        LoadBuffer_loop fuel' (snd r) (Z.of_nat (length data') * 2) data'
      else ret (data, snd r)
  end.

(** [LoadBuffer], lines 320-343: the new buffer and the decoder as the
    reads left it. *)
Definition LoadBuffer (decoder : D) : M (OpenAL_Output Dev) (ALuint * D) :=
  info <- decoder_getInfo decoder ;;
  let srate := fst (fst info) in
  format <- getALFormat (snd (fst info)) (snd info) ;;
  r <- LoadBuffer_loop (S (dec_remaining decoder)) decoder 32768 [] ;;
  buf <- al (alGenBuffers 1) ;;
  al (alBufferData (out1 buf) format (fst r)
        (Z.of_nat (length (fst r))) srate) ;;
  ret (out1 buf, snd r).

(** Destructor, lines 349-357. *)
Definition OpenAL_Sound_delete (s : OpenAL_Sound)
    : M (OpenAL_Output Dev) unit :=
  al (alSourceStop (snd_mSource s)) ;;
  al (alSourcei (snd_mSource s) AL_BUFFER 0) ;;
  free_source (snd_mSource s) ;;
  al (alDeleteBuffers [snd_mBuffer s]) ;;
  al alGetError ;;
  ret tt.

(** [OpenAL_Sound::stop], lines 359-363. *)
Definition Sound_stop (s : OpenAL_Sound) : M (OpenAL_Output Dev) unit :=
  al (alSourceStop (snd_mSource s)) ;;
  throwALerror.

(** [OpenAL_Sound::isPlaying], lines 365-373. *)
Definition Sound_isPlaying (s : OpenAL_Sound) : M (OpenAL_Output Dev) bool :=
  state <- al (alGetSourcei (snd_mSource s) AL_SOURCE_STATE) ;;
  throwALerror ;;
  ret (out1 state =? AL_PLAYING).

(** [OpenAL_Sound::update], lines 375-381. *)
Definition Sound_update (s : OpenAL_Sound) (pos : vec3)
    : M (OpenAL_Output Dev) unit :=
  al (alSource3f (snd_mSource s) AL_POSITION
        (pos0 pos) (pos2 pos) (fneg (pos1 pos))) ;;
  al (alSource3f (snd_mSource s) AL_DIRECTION zero_f zero_f zero_f) ;;
  al (alSource3f (snd_mSource s) AL_VELOCITY zero_f zero_f zero_f) ;;
  throwALerror.

(** ** The output device, lines 387-661 *)

(** [init] up to the query of the voice limits, lines 389-407: the values
    of [maxmono] and [maxstereo]. *)
Definition init_open (devname : string)
    : M (OpenAL_Output Dev) (ALint * ALint) :=
  o <- get ;;
  (if negb (mDevice o =? 0) || negb (mContext o =? 0)
   then fail "Device already open" else ret tt) ;;
  dev <- al (alcOpenDevice (c_str devname)) ;;
  modify (set_mDevice (out1 dev)) ;;
  (if out1 dev =? 0
   then fail ("Failed to open " ++ dquote ++ devname ++ dquote)%string
   else ret tt) ;;
  emit (EvStdout ("Opened " ++ dquote
                  ++ alcGetString (out1 dev) ALC_DEVICE_SPECIFIER
                  ++ dquote ++ endl)%string) ;;
  ctx <- al (alcCreateContext (out1 dev)) ;;
  modify (set_mContext (out1 ctx)) ;;
  current <- (if out1 ctx =? 0 then ret false
              else
                made <- al (alcMakeContextCurrent (out1 ctx)) ;;
                ret (negb (out1 made =? ALC_FALSE))) ;;
  (if current then ret tt
   else
     err <- al (alcGetError (out1 dev)) ;;
     fail ("Failed to setup context: "
           ++ alcGetString (out1 dev) (out1 err))%string) ;;
  al (alDistanceModel AL_LINEAR_DISTANCE_CLAMPED) ;;
  throwALerror ;;
  maxmono <- al (alcGetIntegerv (out1 dev) ALC_MONO_SOURCES) ;;
  maxstereo <- al (alcGetIntegerv (out1 dev) ALC_STEREO_SOURCES) ;;
  throwALCerror (out1 dev) ;;
  ret (out1 maxmono, out1 maxstereo).

(** [mFreeSources.resize(n)] with an [int] argument: a negative count
    converts to a size beyond [max_size()], for which the vector throws
    [std::length_error] and stays as it was. *)
Definition mFreeSources_resize (n : Z) : M (OpenAL_Output Dev) unit :=
  if n <? 0 then throw length_error
  else modify (fun o =>
         set_mFreeSources (resize (Z.to_nat n) (mFreeSources o)) o).

(** The [for] loop of [init], lines 410-420, from index [i] on.  It runs at
    most once per element, so [fuel] is the size of the vector. *)
Fixpoint init_sources (fuel : nat) (i : nat) : M (OpenAL_Output Dev) unit :=
  match fuel with
  | O => ret tt
  | S fuel' =>
      o <- get ;;
      if (i <? length (mFreeSources o))%nat then
        src <- al (alGenSources 1) ;;
        err <- al alGetError ;;
        if negb (out1 err =? AL_NO_ERROR) then
          modify (fun o => set_mFreeSources (resize i (mFreeSources o)) o)
        else
          modify (fun o =>
            set_mFreeSources (assign i (out1 src) (mFreeSources o)) o) ;;
          init_sources fuel' (S i)
      else ret tt
  end.

(** The population of the voice pool, lines 409-422. *)
Definition init_pool (maxmono maxstereo : ALint)
    : M (OpenAL_Output Dev) unit :=
  mFreeSources_resize (Z.min (int_add maxmono maxstereo) 256) ;;
  o <- get ;;
  init_sources (length (mFreeSources o)) 0 ;;
  o <- get ;;
  if (length (mFreeSources o) =? 0)%nat
  then fail "Could not allocate any sources" else ret tt.

(** [init], lines 387-423. *)
Definition init (devname : string) : M (OpenAL_Output Dev) unit :=
  limits <- init_open devname ;;
  init_pool (fst limits) (snd limits).

(** A voice is taken from the back of the pool, lines 451-454. *)
Definition take_source : M (OpenAL_Output Dev) ALuint :=
  o <- get ;;
  if (length (mFreeSources o) =? 0)%nat then fail "No free sources"
  else
    modify (fun o => set_mFreeSources (pop_back (mFreeSources o)) o) ;;
    ret (back (mFreeSources o)).

(** The handler of [playSound] and [playSound3D], lines 466-473, with the
    value [buf] has when the exception arrives. *)
Definition playSound_catch {A} (src buf : ALuint) (e : exception)
    : M (OpenAL_Output Dev) A :=
  free_source src ;;
  isbuf <- al (alIsBuffer buf) ;;
  (if negb (out1 isbuf =? AL_FALSE)
   then al (alDeleteBuffers [buf]) ;; ret tt else ret tt) ;;
  al alGetError ;;
  throw e.

(** The [try] block of [playSound] and [playSound3D], lines 456-473.  [buf]
    is 0 until [LoadBuffer] has returned, so the block is split there. *)
Definition playSound_load (fname : string) (src : ALuint)
    : M (OpenAL_Output Dev) OpenAL_Sound :=
  r <- try_catch
         (decoder <- decoder_open fname getDecoder ;;
          LoadBuffer decoder)
         (playSound_catch src 0) ;;
  try_catch
    (throwALerror ;;
     emit (EvDecoder DecClose) ;;
     ret (mkSound src (fst r)))
    (playSound_catch src (fst r)).

(** What follows the construction runs under [std::auto_ptr]: an exception
    deletes the sound on its way out. *)
Definition with_sound (sound : OpenAL_Sound)
    (body : M (OpenAL_Output Dev) unit)
    : M (OpenAL_Output Dev) OpenAL_Sound :=
  try_catch (body ;; ret sound)
    (fun e => OpenAL_Sound_delete sound ;; throw e).

Definition with_stream (sound : OpenAL_SoundStream) (body : StreamM unit)
    : M (OpenAL_Output Dev) OpenAL_SoundStream :=
  fun o =>
    match body (sound, o) with
    | (Ok _, st, t) => (Ok (fst st), snd st, t)
    | (Throw e, st, t) =>
        match OpenAL_SoundStream_delete st with
        | (_, st', t') => (Throw e, snd st', t ++ t')
        end
    end.

Definition AL_bool (b : bool) : ALint := if b then AL_TRUE else AL_FALSE.

(** [playSound], lines 444-495. *)
Definition playSound (fname : string) (volume pitch : ALfloat) (loop : bool)
    : M (OpenAL_Output Dev) OpenAL_Sound :=
  throwALerror ;;
  src <- take_source ;;
  sound <- playSound_load fname src ;;
  with_sound sound
    (al (alSource3f src AL_POSITION zero_f zero_f zero_f) ;;
     al (alSource3f src AL_DIRECTION zero_f zero_f zero_f) ;;
     al (alSource3f src AL_VELOCITY zero_f zero_f zero_f) ;;
     al (alSourcef src AL_REFERENCE_DISTANCE one_f) ;;
     al (alSourcef src AL_MAX_DISTANCE thousand_f) ;;
     al (alSourcef src AL_ROLLOFF_FACTOR zero_f) ;;
     al (alSourcef src AL_GAIN volume) ;;
     al (alSourcef src AL_PITCH pitch) ;;
     al (alSourcei src AL_SOURCE_RELATIVE AL_TRUE) ;;
     al (alSourcei src AL_LOOPING (AL_bool loop)) ;;
     throwALerror ;;
     al (alSourcei src AL_BUFFER (snd_mBuffer sound)) ;;
     al (alSourcePlay src) ;;
     throwALerror).

(** [playSound3D], lines 497-549. *)
Definition playSound3D (fname : string) (pos : vec3)
    (volume pitch min max : ALfloat) (loop : bool)
    : M (OpenAL_Output Dev) OpenAL_Sound :=
  throwALerror ;;
  src <- take_source ;;
  sound <- playSound_load fname src ;;
  with_sound sound
    (al (alSource3f src AL_POSITION (pos0 pos) (pos2 pos) (fneg (pos1 pos))) ;;
     al (alSource3f src AL_DIRECTION zero_f zero_f zero_f) ;;
     al (alSource3f src AL_VELOCITY zero_f zero_f zero_f) ;;
     al (alSourcef src AL_REFERENCE_DISTANCE min) ;;
     al (alSourcef src AL_MAX_DISTANCE max) ;;
     al (alSourcef src AL_ROLLOFF_FACTOR one_f) ;;
     al (alSourcef src AL_GAIN volume) ;;
     al (alSourcef src AL_PITCH pitch) ;;
     al (alSourcei src AL_SOURCE_RELATIVE AL_FALSE) ;;
     al (alSourcei src AL_LOOPING (AL_bool loop)) ;;
     throwALerror ;;
     al (alSourcei src AL_BUFFER (snd_mBuffer sound)) ;;
     al (alSourcePlay src) ;;
     throwALerror).

(** The [try] block of [streamSound] and [streamSound3D], lines 564-574. *)
Definition streamSound_new (addr : Z) (fname : string) (src : ALuint)
    : M (OpenAL_Output Dev) OpenAL_SoundStream :=
  try_catch
    (decoder <- decoder_open fname getDecoder ;;
     OpenAL_SoundStream_new addr src decoder)
    (fun e => free_source src ;; throw e).

(** [streamSound], lines 552-593.  [addr] is the address [new] gives the
    sound. *)
Definition streamSound (addr : Z) (fname : string) (volume pitch : ALfloat)
    : M (OpenAL_Output Dev) OpenAL_SoundStream :=
  throwALerror ;;
  src <- take_source ;;
  sound <- streamSound_new addr fname src ;;
  with_stream sound
    (on_output
       (al (alSource3f src AL_POSITION zero_f zero_f zero_f) ;;
        al (alSource3f src AL_DIRECTION zero_f zero_f zero_f) ;;
        al (alSource3f src AL_VELOCITY zero_f zero_f zero_f) ;;
        al (alSourcef src AL_REFERENCE_DISTANCE one_f) ;;
        al (alSourcef src AL_MAX_DISTANCE thousand_f) ;;
        al (alSourcef src AL_ROLLOFF_FACTOR zero_f) ;;
        al (alSourcef src AL_GAIN volume) ;;
        al (alSourcef src AL_PITCH pitch) ;;
        al (alSourcei src AL_SOURCE_RELATIVE AL_TRUE) ;;
        al (alSourcei src AL_LOOPING AL_FALSE) ;;
        throwALerror) ;;
     play).

(** [streamSound3D], lines 595-637. *)
Definition streamSound3D (addr : Z) (fname : string) (pos : vec3)
    (volume pitch min max : ALfloat)
    : M (OpenAL_Output Dev) OpenAL_SoundStream :=
  throwALerror ;;
  src <- take_source ;;
  sound <- streamSound_new addr fname src ;;
  with_stream sound
    (on_output
       (al (alSource3f src AL_POSITION
              (pos0 pos) (pos2 pos) (fneg (pos1 pos))) ;;
        al (alSource3f src AL_DIRECTION zero_f zero_f zero_f) ;;
        al (alSource3f src AL_VELOCITY zero_f zero_f zero_f) ;;
        al (alSourcef src AL_REFERENCE_DISTANCE min) ;;
        al (alSourcef src AL_MAX_DISTANCE max) ;;
        al (alSourcef src AL_ROLLOFF_FACTOR one_f) ;;
        al (alSourcef src AL_GAIN volume) ;;
        al (alSourcef src AL_PITCH pitch) ;;
        al (alSourcei src AL_SOURCE_RELATIVE AL_FALSE) ;;
        al (alSourcei src AL_LOOPING AL_FALSE) ;;
        throwALerror) ;;
     play).

(** [updateListener], lines 640-650. *)
Definition updateListener (pos atdir updir : vec3)
    : M (OpenAL_Output Dev) unit :=
  let orient :=
    [ pos0 atdir; pos2 atdir; fneg (pos1 atdir);
      pos0 updir; pos2 updir; fneg (pos1 updir) ] in
  al (alListener3f AL_POSITION (pos0 pos) (pos2 pos) (fneg (pos1 pos))) ;;
  al (alListenerfv AL_ORIENTATION orient) ;;
  throwALerror.

(** [StreamThread::removeAll], lines 145-150. *)
Definition StreamThread_removeAll : M (OpenAL_Output Dev) unit :=
  modify (set_mStreams []).

(** [deinit], lines 425-441. *)
Definition deinit : M (OpenAL_Output Dev) unit :=
  StreamThread_removeAll ;;
  o <- get ;;
  (if negb (length (mFreeSources o) =? 0)%nat then
     al (alDeleteSources (mFreeSources o)) ;;
     modify (set_mFreeSources [])
   else ret tt) ;;
  al (alcMakeContextCurrent 0) ;;
  (if negb (mContext o =? 0)
   then al (alcDestroyContext (mContext o)) ;; ret tt else ret tt) ;;
  modify (set_mContext 0) ;;
  (if negb (mDevice o =? 0)
   then al (alcCloseDevice (mDevice o)) ;; ret tt else ret tt) ;;
  modify (set_mDevice 0).

(** Constructor of [OpenAL_Output], lines 653-656: no device, no context,
    an empty pool and a streaming thread without streams.  [d] is the state
    of the OpenAL library at that time. *)
Definition OpenAL_Output_new (d : Dev) : OpenAL_Output Dev :=
  mkOutput d 0 0 [] [].

(** Destructor of [OpenAL_Output], lines 658-661. *)
Definition OpenAL_Output_delete : M (OpenAL_Output Dev) unit := deinit.

(** ** One sweep of the streaming thread, lines 114-123

    The thread holds pointers to the streams; [objects] gives the stream
    object at each address. *)
Definition Objects : Type := Z -> OpenAL_SoundStream.

Definition set_object (p : Z) (s : OpenAL_SoundStream) (h : Objects)
    : Objects :=
  fun q => if q =? p then s else h q.

(** A method called through the pointer [p]: it runs on the object at [p]
    and on the output device; the object is what the method leaves of
    it. *)
Definition at_object {A} (p : Z) (m : StreamM A)
    : M (Objects * OpenAL_Output Dev) A :=
  fun st =>
    match m (fst st p, snd st) with
    | (r, st', t) => (r, (set_object p (fst st') (fst st), snd st'), t)
    end.

(** [mStreams.erase(iter)] for the iterator at index [i]. *)
Definition erase_at {A} (i : nat) (v : list A) : list A :=
  firstn i v ++ skipn (S i) v.

(** The inner [while] loop with the iterator at index [i].  A step either
    erases the element under the iterator or moves the iterator on, so the
    loop runs at most once per element left; [fuel] is that number. *)
Fixpoint StreamThread_sweep_from (fuel : nat) (i : nat)
    : M (Objects * OpenAL_Output Dev) unit :=
  match fuel with
  | O => ret tt
  | S fuel' =>
      st <- get ;;
      match nth_error (mStreams (snd st)) i with
      | None => ret tt
      | Some p =>
          more <- at_object p process ;;
          if negb more then
            modify (fun st =>
              (fst st,
               set_mStreams (erase_at i (mStreams (snd st))) (snd st))) ;;
            StreamThread_sweep_from fuel' i
          else StreamThread_sweep_from fuel' (S i)
      end
  end.

(** One turn of the outer loop of [StreamThread::operator()], between
    the locking and the unlocking of the mutex. *)
Definition StreamThread_sweep : M (Objects * OpenAL_Output Dev) unit :=
  st <- get ;;
  StreamThread_sweep_from (length (mStreams (snd st))) 0.

End Program.

(** ** A raw PCM decoder and a one-voice software device

    They instantiate the two interfaces wherever a statement is evaluated
    on concrete data. *)

(** A file: its stream information, if it has a readable one, and its
    sample data. *)
Record PcmFile := mkPcmFile {
  pcm_info : option (Z * ChannelConfig * SampleType);
  pcm_data : list byte
}.

(** A decoder over a table of files: the file it has open, if any, and the
    read position in it. *)
Record PcmDecoder := mkPcm {
  pcm_files : list (string * PcmFile);
  pcm_file : option PcmFile;
  pcm_pos : nat
}.

Fixpoint pcm_lookup (fname : string) (files : list (string * PcmFile))
    : option PcmFile :=
  match files with
  | [] => None
  | (n, f) :: rest =>
      if String.eqb n fname then Some f else pcm_lookup fname rest
  end.

Definition pcm_open (fname : string) (d : PcmDecoder)
    : exception + PcmDecoder :=
  match pcm_lookup fname (pcm_files d) with
  | Some f => inr (mkPcm (pcm_files d) (Some f) 0)
  | None => inl (runtime_error ("Failed to open " ++ fname)%string)
  end.

Definition pcm_getInfo (d : PcmDecoder)
    : exception + (Z * ChannelConfig * SampleType) :=
  match pcm_file d with
  | Some f =>
      match pcm_info f with
      | Some info => inr info
      | None => inl (runtime_error "No audio stream info")
      end
  | None => inl (runtime_error "No audio stream info")
  end.

Definition pcm_read (len : Z) (d : PcmDecoder) : list byte * PcmDecoder :=
  match pcm_file d with
  | Some f =>
      let data := firstn (Z.to_nat len) (skipn (pcm_pos d) (pcm_data f)) in
      (data, mkPcm (pcm_files d) (pcm_file d) (pcm_pos d + length data))
  | None => ([], d)
  end.

Definition pcm_rewind (d : PcmDecoder) : PcmDecoder :=
  mkPcm (pcm_files d) (pcm_file d) 0.

Definition pcm_close (d : PcmDecoder) : PcmDecoder :=
  mkPcm (pcm_files d) None 0.

Definition pcm_remaining (d : PcmDecoder) : nat :=
  match pcm_file d with
  | Some f => length (pcm_data f) - pcm_pos d
  | None => 0
  end.

Lemma pcm_read_progress : forall len d,
  fst (pcm_read len d) <> [] ->
  (pcm_remaining (snd (pcm_read len d)) < pcm_remaining d)%nat.
Proof.
  intros len d. unfold pcm_read, pcm_remaining.
  destruct (pcm_file d) as [f|]; simpl; [|congruence].
  intros Hne.
  set (data := firstn (Z.to_nat len) (skipn (pcm_pos d) (pcm_data f))) in *.
  assert (Hpos : (0 < length data)%nat)
    by (destruct data; [congruence | simpl; lia]).
  assert (Hle : (length data <= length (pcm_data f) - pcm_pos d)%nat).
  { unfold data. rewrite length_firstn, length_skipn. lia. }
  lia.
Qed.

Definition PcmSoundDecoder (files : list (string * PcmFile))
    : Sound_Decoder PcmDecoder := {|
  getDecoder := mkPcm files None 0;
  dec_open := pcm_open;
  dec_getInfo := pcm_getInfo;
  dec_read := pcm_read;
  dec_rewind := pcm_rewind;
  dec_close := pcm_close;
  dec_remaining := pcm_remaining;
  dec_read_progress := pcm_read_progress
|}.

Definition channel_count (chans : ChannelConfig) : Z :=
  match chans with
  | ChannelConfig_Mono => 1
  | ChannelConfig_Stereo => 2
  | ChannelConfig_Other _ => 0
  end.

Definition sample_bytes (type : SampleType) : Z :=
  match type with
  | SampleType_UInt8 => 1
  | SampleType_Int16 => 2
  | SampleType_Other _ => 0
  end.

#[export] Instance PcmLib : Sound_DecoderLib := {
  getChannelConfigName chans :=
    match chans with
    | ChannelConfig_Mono => "Mono"
    | ChannelConfig_Stereo => "Stereo"
    | ChannelConfig_Other _ => "(unknown channel config)"
    end%string;
  getSampleTypeName type :=
    match type with
    | SampleType_UInt8 => "U8"
    | SampleType_Int16 => "S16"
    | SampleType_Other _ => "(unknown sample type)"
    end%string;
  framesToBytes frames chans type :=
    frames * channel_count chans * sample_bytes type
}.

(** The software device: the pending error, the next free object name, how
    many more voices it can create, the voice limits it reports, and the
    play state, buffer queue and count of played buffers of its voice.  A
    variable it leaves unwritten holds 57005. *)
Record SimDevice := mkSim {
  sim_error : ALenum;
  sim_next : Z;
  sim_voices : Z;
  sim_mono : Z;
  sim_stereo : Z;
  sim_state : ALenum;
  sim_queue : list ALuint;
  sim_processed : Z
}.

Definition sim_set_error (e : ALenum) (d : SimDevice) :=
  mkSim (if sim_error d =? AL_NO_ERROR then e else sim_error d)
    (sim_next d) (sim_voices d) (sim_mono d) (sim_stereo d)
    (sim_state d) (sim_queue d) (sim_processed d).

Definition sim_set_voice (st : ALenum) (q : list ALuint) (p : Z)
    (d : SimDevice) :=
  mkSim (sim_error d) (sim_next d) (sim_voices d) (sim_mono d)
    (sim_stereo d) st q p.

Definition sim_call (c : ALcall) (d : SimDevice) : list Z * SimDevice :=
  match c with
  | alGetError =>
      ([sim_error d],
       mkSim AL_NO_ERROR (sim_next d) (sim_voices d) (sim_mono d)
         (sim_stereo d) (sim_state d) (sim_queue d) (sim_processed d))
  | alGenBuffers n =>
      (map (fun i => sim_next d + Z.of_nat i) (seq 0 (Z.to_nat n)),
       mkSim (sim_error d) (sim_next d + n) (sim_voices d) (sim_mono d)
         (sim_stereo d) (sim_state d) (sim_queue d) (sim_processed d))
  | alGenSources _ =>
      if sim_voices d >? 0 then
        ([sim_next d],
         mkSim (sim_error d) (sim_next d + 1) (sim_voices d - 1) (sim_mono d)
           (sim_stereo d) (sim_state d) (sim_queue d) (sim_processed d))
      else ([], sim_set_error AL_OUT_OF_MEMORY d)
  | alIsBuffer buf => ([if buf =? 0 then AL_FALSE else AL_TRUE], d)
  | alSourcei _ param _ =>
      if param =? AL_BUFFER then ([], sim_set_voice (sim_state d) [] 0 d)
      else ([], d)
  | alGetSourcei _ param =>
      if param =? AL_SOURCE_STATE then ([sim_state d], d)
      else if param =? AL_BUFFERS_PROCESSED then ([sim_processed d], d)
      else if param =? AL_BUFFERS_QUEUED
      then ([Z.of_nat (length (sim_queue d))], d)
      else ([], sim_set_error AL_INVALID_VALUE d)
  | alSourcePlay _ => ([], sim_set_voice AL_PLAYING (sim_queue d) 0 d)
  | alSourceStop _ =>
      if sim_state d =? AL_INITIAL then ([], d)
      else ([], sim_set_voice AL_STOPPED (sim_queue d)
                  (Z.of_nat (length (sim_queue d))) d)
  | alSourceQueueBuffers _ bufs =>
      ([], sim_set_voice (sim_state d) (sim_queue d ++ bufs)
             (sim_processed d) d)
  | alSourceUnqueueBuffers _ _ =>
      match sim_queue d with
      | buf :: rest =>
          if sim_processed d >? 0
          then ([buf], sim_set_voice (sim_state d) rest
                         (sim_processed d - 1) d)
          else ([], sim_set_error AL_INVALID_VALUE d)
      | [] => ([], sim_set_error AL_INVALID_VALUE d)
      end
  | alcOpenDevice _ => ([1], d)
  | alcCreateContext _ => ([1], d)
  | alcMakeContextCurrent _ => ([ALC_TRUE], d)
  | alcGetIntegerv _ param =>
      if param =? ALC_MONO_SOURCES then ([sim_mono d], d)
      else if param =? ALC_STEREO_SOURCES then ([sim_stereo d], d)
      else ([], d)
  | alcGetError _ => ([ALC_NO_ERROR], d)
  | _ => ([], d)
  end.

#[export] Instance SimOpenAL : OpenAL SimDevice := {
  al_call := sim_call;
  alGetString err :=
    if err =? AL_INVALID_VALUE then "Invalid Value"%string
    else if err =? AL_OUT_OF_MEMORY then "Out of Memory"%string
    else "Unknown error"%string;
  alcGetString _ code :=
    if code =? ALC_DEVICE_SPECIFIER then "Software device"%string
    else "Unknown error"%string;
  al_unwritten _ := 57005
}.

(** ** What the specification speaks of *)

(** The specification's table of supported formats: mono or stereo, 8-bit
    unsigned or 16-bit signed. *)
Definition nativeFormat (chans : ChannelConfig) (type : SampleType)
    : option ALenum :=
  match chans, type with
  | ChannelConfig_Mono, SampleType_UInt8 => Some AL_FORMAT_MONO8
  | ChannelConfig_Mono, SampleType_Int16 => Some AL_FORMAT_MONO16
  | ChannelConfig_Stereo, SampleType_UInt8 => Some AL_FORMAT_STEREO8
  | ChannelConfig_Stereo, SampleType_Int16 => Some AL_FORMAT_STEREO16
  | _, _ => None
  end.

(** World coordinates (x, y, z) as the device is to receive them:
    (x, z, -y). *)
Definition device_coords (v : vec3) : ALfloat * ALfloat * ALfloat :=
  (pos0 v, pos2 v, fneg (pos1 v)).

(** The coordinates of every position call in a trace, and the vectors of
    every orientation call. *)
Definition position_of (e : Event) : list (ALfloat * ALfloat * ALfloat) :=
  match e with
  | EvAL (alSource3f _ param a b c) _ =>
      if param =? AL_POSITION then [(a, b, c)] else []
  | EvAL (alListener3f param a b c) _ =>
      if param =? AL_POSITION then [(a, b, c)] else []
  | _ => []
  end.
Definition positions (t : list Event) := flat_map position_of t.

Definition orientation_of (e : Event) : list (list ALfloat) :=
  match e with
  | EvAL (alListenerfv param v) _ =>
      if param =? AL_ORIENTATION then [v] else []
  | _ => []
  end.
Definition orientations (t : list Event) := flat_map orientation_of t.

(** Kinds of events looked for in a trace. *)
Definition is_read (e : Event) : bool :=
  match e with
  | EvDecoder (DecRead _ _) => true
  | _ => false
  end.
Definition is_rewind (e : Event) : bool :=
  match e with
  | EvDecoder DecRewind => true
  | _ => false
  end.
Definition is_queue (e : Event) : bool :=
  match e with
  | EvAL (alSourceQueueBuffers _ _) _ => true
  | _ => false
  end.
Definition is_unqueue (e : Event) : bool :=
  match e with
  | EvAL (alSourceUnqueueBuffers _ _) _ => true
  | _ => false
  end.
Definition is_play (e : Event) : bool :=
  match e with
  | EvAL (alSourcePlay _) _ => true
  | _ => false
  end.
Definition is_delete_buffers (e : Event) : bool :=
  match e with
  | EvAL (alDeleteBuffers _) _ => true
  | _ => false
  end.
(** The answers to the queries of [AL_BUFFERS_QUEUED] in a trace. *)
Definition queued_of (e : Event) : list ALint :=
  match e with
  | EvAL (alGetSourcei _ param) out =>
      if param =? AL_BUFFERS_QUEUED then [out1 out] else []
  | _ => []
  end.
Definition queued_answers (t : list Event) := flat_map queued_of t.
(** The data handed to [alBufferData], call by call. *)
Definition buffer_data_of (e : Event) : list (list byte) :=
  match e with
  | EvAL (alBufferData _ _ data _ _) _ => [data]
  | _ => []
  end.
Definition buffer_data (t : list Event) := flat_map buffer_data_of t.

Section Specification.
Context {Dev : Type} `{AL : OpenAL Dev}.
Context {D : Type} `{DEC : Sound_Decoder D}.
Context `{LIB : Sound_DecoderLib}.

(** The specification's [initializeAll(count)]: voices are created one by
    one, up to [count]; the first failure stops the creation and what was
    created is kept. *)
Fixpoint createVoices (count : nat) (d : Dev) : list ALuint * Dev :=
  match count with
  | O => ([], d)
  | S n =>
      let created := al_call (alGenSources 1) d in
      let err := al_call alGetError (snd created) in
      if out1 (fst err) =? AL_NO_ERROR then
        let rest := createVoices n (snd err) in
        (out1 (fst created) :: fst rest, snd rest)
      else ([], snd err)
  end.

(** What the device answers to a query of the voice [src], and the number
    of buffers it reports queued on it. *)
Definition al_query (c : ALcall) (o : OpenAL_Output Dev) : Z :=
  out1 (fst (al_call c (al_device o))).
Definition buffers_queued (src : ALuint) (o : OpenAL_Output Dev) : Z :=
  al_query (alGetSourcei src AL_BUFFERS_QUEUED) o.
Definition source_state (src : ALuint) (o : OpenAL_Output Dev) : Z :=
  al_query (alGetSourcei src AL_SOURCE_STATE) o.

(** The chunks [n] successive reads of [len] bytes deliver, and the decoder
    they leave. *)
Fixpoint read_chunks (n : nat) (len : Z) (d : D) : list (list byte) * D :=
  match n with
  | O => ([], d)
  | S k =>
      let r := dec_read len d in
      let rest := read_chunks k len (snd r) in
      (fst r :: fst rest, snd rest)
  end.

(** The specification's handling of one finished buffer, as the events
    [seg] it leaves in the trace and the sound [s'] it leaves: the buffer is
    taken off the voice; a sound that is finishing does nothing more; any
    other sound reads one buffer size from its decoder, is finishing from
    then on exactly if the read was short, and, if the read gave at least
    one byte, fills the buffer taken off with the bytes read and queues it
    on the voice again.  [bufid] is the name the unqueue call wrote; when
    it wrote none, nothing is said of [bufid] but that the buffer filled and
    the buffer queued are the same. *)
Definition handles_finished_buffer (s : OpenAL_SoundStream)
    (seg : list Event) (s' : OpenAL_SoundStream) : Prop :=
  exists out bufid,
    (forall name rest, out = name :: rest -> bufid = name)
    /\ let unqueue := EvAL (alSourceUnqueueBuffers (mSource s) 1) out in
       if mIsFinished s then seg = [unqueue] /\ s' = s
       else
         let r := dec_read (mBufferSize s) (mDecoder s) in
         let got := Z.of_nat (length (fst r)) in
         let read := EvDecoder (DecRead (mBufferSize s) got) in
         (if got >? 0 then
            exists o1 o2,
              seg = [ unqueue; read;
                      EvAL (alBufferData bufid (mFormat s) (fst r) got
                              (mSampleRate s)) o1;
                      EvAL (alSourceQueueBuffers (mSource s) [bufid]) o2 ]
          else seg = [unqueue; read])
         /\ s' = set_mIsFinished (got <? mBufferSize s)
                   (set_mDecoder (snd r) s).

(** The same for the finished buffers one after the other, [segs] holding
    the events of each. *)
Fixpoint handles_finished_buffers (s : OpenAL_SoundStream)
    (segs : list (list Event)) (s' : OpenAL_SoundStream) : Prop :=
  match segs with
  | [] => s' = s
  | seg :: more =>
      exists s1,
        handles_finished_buffer s seg s1
        /\ handles_finished_buffers s1 more s'
  end.

(** A run of sweeps of the streaming thread over one sound: between two
    calls of [process] the hardware moves on, [hw] giving the change of the
    device before each call.  The trace of all the calls, and the state in
    the end. *)
Fixpoint process_calls (hw : list (Dev -> Dev))
    (st : OpenAL_SoundStream * OpenAL_Output Dev)
    : list Event * (OpenAL_SoundStream * OpenAL_Output Dev) :=
  match hw with
  | [] => ([], st)
  | h :: rest =>
      let r :=
        process
          (fst st, set_al_device (h (al_device (snd st))) (snd st)) in
      let later := process_calls rest (final r) in
      (trace r ++ fst later, snd later)
  end.

(** The reading of the specification on the return value of [process]:
    false exactly when the sound is finishing and the voice has no buffer
    queued. *)
Definition process_returns_as_specified : Prop :=
  forall st b,
    outcome (process st) = Ok b ->
    b = negb (mIsFinished (fst (final (process st)))
              && (buffers_queued (mSource (fst st))
                    (snd (final (process st))) =? 0)).

End Specification.

(** ** Properties of traces *)

(** Every event a computation records satisfies [P], whatever the state it
    starts in. *)
Definition emits {S A} (P : Event -> Prop) (m : M S A) : Prop :=
  forall s, Forall P (trace (m s)).

(** Events of a sound that is draining: no read of the decoder and no
    buffer queued. *)
Definition drains (e : Event) : Prop :=
  is_read e = false /\ is_queue e = false.

Definition no_rewind (e : Event) : Prop := is_rewind e = false.

(** Every position of an event is the remapped [pos]. *)
Definition remapped (pos : vec3) (e : Event) : Prop :=
  Forall (eq (device_coords pos)) (position_of e).

(** The course of a streaming sound as its trace shows it: [Filling] while
    reads come back full, [Requeueing] between a short read that brought
    data and the queueing of the buffer that received it, [Draining] from
    then on, or at once after a read that brought nothing.  A draining sound
    admits no read and no queueing. *)
Inductive Phase := Filling | Requeueing | Draining.

Definition phase_of (finished : bool) : Phase :=
  if finished then Draining else Filling.

Definition phase_step (ph : Phase) (e : Event) : option Phase :=
  match ph with
  | Filling =>
      match e with
      | EvDecoder (DecRead len got) =>
          Some (if got <? len
                then if got >? 0 then Requeueing else Draining
                else Filling)
      | _ => Some Filling
      end
  | Requeueing =>
      match e with
      | EvAL (alBufferData _ _ _ _ _) _ => Some Requeueing
      | EvAL (alSourceQueueBuffers _ _) _ => Some Draining
      | _ => None
      end
  | Draining =>
      if is_read e || is_queue e then None else Some Draining
  end.

(** The phase a trace ends in, if every event was admitted. *)
Fixpoint phase_run (ph : Phase) (t : list Event) : option Phase :=
  match t with
  | [] => Some ph
  | e :: rest =>
      match phase_step ph e with
      | Some ph' => phase_run ph' rest
      | None => None
      end
  end.

(** ** Frames and counts *)

(** What a stream keeps for life: its address, voice, buffers, format,
    sample rate and buffer size. *)
Definition fixed_part {D} (s : @OpenAL_SoundStream D)
    : Z * ALuint * list ALuint * ALenum * ALsizei * ALuint :=
  (self s, mSource s, mBuffers s, mFormat s, mSampleRate s, mBufferSize s).

(** The members of the output object proper, the state of the library
    apart. *)
Definition output_fields {Dev} (o : OpenAL_Output Dev)
    : Z * Z * list ALuint * list Z :=
  (mDevice o, mContext o, mFreeSources o, mStreams o).

(** A computation on the output that changes nothing but the state of the
    library; a method that in addition leaves the fixed part of its stream
    alone. *)
Definition device_only {Dev A} (m : M (OpenAL_Output Dev) A) : Prop :=
  forall o, output_fields (final (m o)) = output_fields o.

Definition stream_frame {Dev D A}
    (m : M (@OpenAL_SoundStream D * OpenAL_Output Dev) A) : Prop :=
  forall st,
    fixed_part (fst (final (m st))) = fixed_part (fst st)
    /\ output_fields (snd (final (m st))) = output_fields (snd st).

(** How many events of a kind a trace holds. *)
Definition count_events (kind : Event -> bool) (t : list Event) : nat :=
  length (filter kind t).

(** The requested and delivered sizes of the reads of a trace, in order. *)
Definition read_of (e : Event) : list (Z * Z) :=
  match e with
  | EvDecoder (DecRead len got) => [(len, got)]
  | _ => []
  end.
Definition reads (t : list Event) : list (Z * Z) := flat_map read_of t.

Definition sum_got (rs : list (Z * Z)) : Z :=
  fold_right (fun r acc => snd r + acc) 0 rs.

(** The streams of a registry that are not finished. *)
Definition unfinished {D} (h : Z -> @OpenAL_SoundStream D) (p : Z) : bool :=
  negb (mIsFinished (h p)).

(** Events that neither read from a decoder, nor queue, nor unqueue a
    buffer. *)
Definition quiet (e : Event) : Prop :=
  is_read e = false /\ is_queue e = false /\ is_unqueue e = false.

(** Events that have no part in the handling of a finished buffer: no
    unqueueing, no read, no data handed to a buffer and no queueing. *)
Definition refill_free (e : Event) : Prop :=
  is_unqueue e = false /\ is_read e = false
  /\ buffer_data_of e = [] /\ is_queue e = false.

(** The number of finished buffers the device reports to [process]: the
    answer to its second query. *)
Definition processed_reported {Dev D} `{OpenAL Dev}
    (s : @OpenAL_SoundStream D) (o : OpenAL_Output Dev) : Z :=
  out1 (fst (al_call (alGetSourcei (mSource s) AL_BUFFERS_PROCESSED)
               (snd (al_call (alGetSourcei (mSource s) AL_SOURCE_STATE)
                       (al_device o))))).

(** A play call that is refused at its start: it has polled the device
    error and nothing else, thrown the pending device error or "No free
    sources", and left the members of the output alone. *)
Definition refused {Dev A} `{OpenAL Dev} (m : M (OpenAL_Output Dev) A)
    (o : OpenAL_Output Dev) : Prop :=
  output_fields (final (m o)) = output_fields o
  /\ exists out,
       trace (m o) = [EvAL alGetError out]
       /\ outcome (m o)
          = Throw (runtime_error
                     ("OpenAL exception: "
                      ++ (if out1 out =? AL_NO_ERROR
                          then "No free sources"
                          else alGetString (out1 out)))).

(** A play call of a one-shot sound that conserves the voices: it leaves
    the handles and the registry alone; the sound it returns holds the
    voice that was at the back of the pool, which is now one voice
    shorter, and deleting that sound gives the pool back; a call that
    throws leaves the pool as it found it. *)
Definition conserves_voices {Dev} `{OpenAL Dev}
    (m : M (OpenAL_Output Dev) OpenAL_Sound)
    (delete : OpenAL_Sound -> M (OpenAL_Output Dev) unit)
    (o : OpenAL_Output Dev) : Prop :=
  (mDevice (final (m o)), mContext (final (m o)), mStreams (final (m o)))
  = (mDevice o, mContext o, mStreams o)
  /\ (forall sound, outcome (m o) = Ok sound ->
        mFreeSources o <> []
        /\ snd_mSource sound = back (mFreeSources o)
        /\ mFreeSources (final (m o)) = pop_back (mFreeSources o)
        /\ outcome (delete sound (final (m o))) = Ok tt
        /\ output_fields (final (delete sound (final (m o))))
           = output_fields o)
  /\ (forall e, outcome (m o) = Throw e ->
        mFreeSources (final (m o)) = mFreeSources o).

(** A play call of a streaming sound: it leaves the handles alone; the
    stream it returns lives at [addr], holds the voice that was at the
    back of the pool and six buffers, is not finished and is registered
    with the thread, and deleting it gives the pool and, for an address
    that was not registered, the registry back; a call that throws leaves
    the pool as it found it or with the voice it took given back twice. *)
Definition starts_stream {Dev D} `{OpenAL Dev}
    (m : M (OpenAL_Output Dev) (@OpenAL_SoundStream D))
    (delete : M (@OpenAL_SoundStream D * OpenAL_Output Dev) unit)
    (addr : Z) (o : OpenAL_Output Dev) : Prop :=
  (mDevice (final (m o)), mContext (final (m o))) = (mDevice o, mContext o)
  /\ (forall s, outcome (m o) = Ok s ->
        mFreeSources o <> []
        /\ self s = addr
        /\ mSource s = back (mFreeSources o)
        /\ length (mBuffers s) = 6%nat
        /\ mIsFinished s = false
        /\ mFreeSources (final (m o)) = pop_back (mFreeSources o)
        /\ (forall q, In q (mStreams (final (m o)))
                      <-> q = addr \/ In q (mStreams o))
        /\ outcome (delete (s, final (m o))) = Ok tt
        /\ mFreeSources (snd (final (delete (s, final (m o)))))
           = mFreeSources o
        /\ (~ In addr (mStreams o) ->
            mStreams (snd (final (delete (s, final (m o)))))
            = mStreams o))
  /\ (forall e, outcome (m o) = Throw e ->
        mFreeSources (final (m o)) = mFreeSources o
        \/ mFreeSources (final (m o))
           = push_back (back (mFreeSources o)) (mFreeSources o)).

(** The library calls of a trace, in order. *)
Definition call_of (e : Event) : list ALcall :=
  match e with
  | EvAL c _ => [c]
  | _ => []
  end.
Definition calls (t : list Event) : list ALcall := flat_map call_of t.

(** ** Concrete data *)

(** [n] bytes counting up from 0. *)
Definition ramp (n : nat) : list byte :=
  map (fun i => match Strings.Byte.of_nat i with
                | Some b => b
                | None => x00
                end) (seq 0 n).

(** Four files: 100 and 50 bytes of 8-bit mono at 64 Hz (a buffer of
    0.125 s is 8 bytes), a file with six channels, and a file without
    stream information. *)
Definition demo_files : list (string * PcmFile) :=
  [ ("music.wav"%string,
     mkPcmFile (Some (64, ChannelConfig_Mono, SampleType_UInt8)) (ramp 100));
    ("short.wav"%string,
     mkPcmFile (Some (64, ChannelConfig_Mono, SampleType_UInt8)) (ramp 50));
    ("surround.wav"%string,
     mkPcmFile (Some (64, ChannelConfig_Other 6, SampleType_Int16))
       (ramp 100));
    ("noinfo.wav"%string, mkPcmFile None (ramp 100)) ].

#[export] Instance demo_decoder : Sound_Decoder PcmDecoder :=
  PcmSoundDecoder demo_files.

(** A device without pending error that reports 2 mono and 1 stereo voices
    and can create [voices] of them; its next free name is 100. *)
Definition demo_device (voices : Z) : SimDevice :=
  mkSim AL_NO_ERROR 100 voices 2 1 AL_INITIAL [] 0.

(** An initialised output with the voices 7, 8 and 9 free. *)
Definition demo_output : OpenAL_Output SimDevice :=
  mkOutput (demo_device 0) 1 1 [7; 8; 9] [].

(** The hardware has played [k] of the queued buffers; the hardware has run
    out of data and stopped. *)
Definition hw_played (k : Z) (d : SimDevice) : SimDevice :=
  sim_set_voice (sim_state d) (sim_queue d) k d.
Definition hw_stalled (d : SimDevice) : SimDevice :=
  sim_set_voice AL_STOPPED (sim_queue d) (Z.of_nat (length (sim_queue d))) d.

Definition at_hardware (h : SimDevice -> SimDevice)
    (st : @OpenAL_SoundStream PcmDecoder * OpenAL_Output SimDevice) :=
  (fst st, set_al_device (h (al_device (snd st))) (snd st)).

(** The sound and the output after [streamSound] of short.wav: the six
    buffers hold the first 48 bytes and are queued. *)
Definition short_decoder (pos : nat) : PcmDecoder :=
  mkPcm demo_files
    (Some (mkPcmFile (Some (64, ChannelConfig_Mono, SampleType_UInt8))
             (ramp 50)))
    pos.
Definition demo_playing
    : @OpenAL_SoundStream PcmDecoder * OpenAL_Output SimDevice :=
  (mkStream 5000 9 [100; 101; 102; 103; 104; 105] AL_FORMAT_MONO8 64 8
     (short_decoder 48) false,
   mkOutput
     (mkSim AL_NO_ERROR 106 0 2 1 AL_PLAYING
        [100; 101; 102; 103; 104; 105] 0)
     1 1 [7; 8] [5000]).

(** The same once the first buffer has been played and [process] has run:
    the last two bytes were read, the sound is finishing. *)
Definition demo_finishing
    : @OpenAL_SoundStream PcmDecoder * OpenAL_Output SimDevice :=
  (mkStream 5000 9 [100; 101; 102; 103; 104; 105] AL_FORMAT_MONO8 64 8
     (short_decoder 50) true,
   mkOutput
     (mkSim AL_NO_ERROR 106 0 2 1 AL_PLAYING
        [101; 102; 103; 104; 105; 100] 0)
     1 1 [7; 8] [5000]).

(** A sound on music.wav, constructed and not yet played, and the same
    after [play]: 48 of the 100 bytes are in the six buffers. *)
Definition music_decoder (pos : nat) : PcmDecoder :=
  mkPcm demo_files
    (Some (mkPcmFile (Some (64, ChannelConfig_Mono, SampleType_UInt8))
             (ramp 100)))
    pos.
Definition demo_idle
    : @OpenAL_SoundStream PcmDecoder * OpenAL_Output SimDevice :=
  (mkStream 5000 9 [100; 101; 102; 103; 104; 105] AL_FORMAT_MONO8 64 8
     (music_decoder 0) true,
   mkOutput (mkSim AL_NO_ERROR 106 0 2 1 AL_INITIAL [] 0) 1 1 [7; 8] []).
Definition demo_played
    : @OpenAL_SoundStream PcmDecoder * OpenAL_Output SimDevice :=
  (mkStream 5000 9 [100; 101; 102; 103; 104; 105] AL_FORMAT_MONO8 64 8
     (music_decoder 48) false,
   mkOutput
     (mkSim AL_NO_ERROR 106 0 2 1 AL_PLAYING
        [100; 101; 102; 103; 104; 105] 0)
     1 1 [7; 8] [5000]).

Definition vec_1_2_3 : vec3 :=
  Vec3 (float_of_Z 1) (float_of_Z 2) (float_of_Z 3).

(** An output whose pool is empty, and one that was never opened, on a
    device that can create two voices. *)
Definition demo_empty_pool : OpenAL_Output SimDevice :=
  mkOutput (demo_device 0) 1 1 [] [].
Definition demo_closed : OpenAL_Output SimDevice :=
  mkOutput (demo_device 2) 0 0 [] [].

(** A device with a pending error. *)
Definition hw_faulty (d : SimDevice) : SimDevice :=
  sim_set_error AL_INVALID_VALUE d.

(** Two registered streams: the playing one at 5000 and a finished one at
    5001. *)
Definition demo_objects : Z -> @OpenAL_SoundStream PcmDecoder :=
  fun p =>
    if p =? 5000 then fst demo_playing
    else mkStream 5001 8 [106; 107; 108; 109; 110; 111] AL_FORMAT_MONO8 64 8
           (short_decoder 50) true.
Definition demo_two_streams : OpenAL_Output SimDevice :=
  mkOutput
    (mkSim AL_NO_ERROR 112 0 2 1 AL_PLAYING
       [100; 101; 102; 103; 104; 105] 0)
    1 1 [7] [5000; 5001].

(** * Properties *)

Section Properties.
Context {Dev : Type} `{AL : OpenAL Dev}.
Context {D : Type} `{DEC : Sound_Decoder D}.
Context `{LIB : Sound_DecoderLib}.

(** ** Traces of composed computations *)


Lemma emits_ret {S A} P (a : A) : emits P (ret (S := S) a).
Proof. intros s. constructor. Qed.

Lemma emits_throw {S A} P e : emits P (throw (S := S) (A := A) e).
Proof. intros s. constructor. Qed.

Lemma emits_fail {S A} P msg : emits P (fail (S := S) (A := A) msg).
Proof. intros s. constructor. Qed.

Lemma emits_get {S} P : emits P (get (S := S)).
Proof. intros s. constructor. Qed.

Lemma emits_modify {S} P f : emits P (modify (S := S) f).
Proof. intros s. constructor. Qed.

Lemma emits_this {O X} P : emits P (this (O := O) (X := X)).
Proof. intros s. constructor. Qed.

Lemma emits_update_this {O X} P f : emits P (update_this (O := O) (X := X) f).
Proof. intros s. constructor. Qed.

Lemma emits_emit {S} (P : Event -> Prop) e : P e -> emits P (emit (S := S) e).
Proof. intros H s. repeat constructor. exact H. Qed.

Lemma emits_bind {S A B} P (m : M S A) (f : A -> M S B) :
  emits P m -> (forall a, emits P (f a)) -> emits P (bind m f).
Proof.
  intros Hm Hf s. unfold bind, trace. specialize (Hm s). unfold trace in Hm.
  destruct (m s) as [[[a|e] s1] t1]; simpl in *; auto.
  specialize (Hf a s1). unfold trace in Hf.
  destruct (f a s1) as [[r s2] t2]; simpl in *.
  apply Forall_app; auto.
Qed.

Lemma emits_try_catch {S A} P (m : M S A) h :
  emits P m -> (forall e, emits P (h e)) -> emits P (try_catch m h).
Proof.
  intros Hm Hh s. unfold try_catch, trace. specialize (Hm s).
  unfold trace in Hm.
  destruct (m s) as [[[a|e] s1] t1]; simpl in *; auto.
  specialize (Hh e s1). unfold trace in Hh.
  destruct (h e s1) as [[r s2] t2]; simpl in *.
  apply Forall_app; auto.
Qed.

Lemma emits_al (P : Event -> Prop) c :
  (forall out, P (EvAL c out)) -> emits P (al c).
Proof.
  intros H o. unfold al, trace.
  destruct (al_call c (al_device o)) as [out d]; simpl. auto.
Qed.

Lemma emits_al_out (P : Event -> Prop) c :
  (forall out, P (EvAL c out)) -> emits P (al_out c).
Proof.
  intros H o. unfold al_out, trace.
  destruct (al_call c (al_device o)) as [out d]; simpl. auto.
Qed.

Lemma emits_on_output {O A} P (m : M (OpenAL_Output Dev) A) :
  emits P m -> emits P (on_output (O := O) m).
Proof.
  intros H st. unfold on_output, trace. specialize (H (snd st)).
  unfold trace in H. destruct (m (snd st)) as [[r o] t]; simpl in *; auto.
Qed.

Lemma emits_throwALerror (P : Event -> Prop) :
  (forall out, P (EvAL alGetError out)) -> emits P throwALerror.
Proof.
  intros H. unfold throwALerror. apply emits_bind.
  - apply emits_al, H.
  - intros a. destruct (out1 a =? AL_NO_ERROR).
    + apply emits_ret.
    + apply emits_fail.
Qed.

Lemma emits_decoder_read (P : Event -> Prop) len :
  (forall got, P (EvDecoder (DecRead len got))) ->
  emits P (decoder_read (Dev := Dev) len).
Proof.
  intros H st. unfold decoder_read, trace.
  destruct (dec_read len (mDecoder (fst st))); simpl. auto.
Qed.

(** ** Format negotiation *)

(** C6: [getALFormat] returns the native format for each of the four pairs
    of mono or stereo with 8-bit unsigned or 16-bit signed samples, which
    are exactly the pairs of the specification's table; for every other pair
    it fails, and the message of the error carries the name of the requested
    channel layout and the name of the requested sample type. *)
Theorem getALFormat_resolves :
  forall (St : Type) (chans : ChannelConfig) (type : SampleType) (s : St),
    getALFormat chans type s =
      match nativeFormat chans type with
      | Some format => (Ok format, s, [])
      | None =>
          (Throw (runtime_error
             ("OpenAL exception: Unsupported sound format ("
              ++ getChannelConfigName chans ++ ", "
              ++ getSampleTypeName type ++ ")")%string), s, [])
      end
    /\ (nativeFormat chans type <> None <->
        (chans = ChannelConfig_Mono \/ chans = ChannelConfig_Stereo)
        /\ (type = SampleType_UInt8 \/ type = SampleType_Int16)).
Proof.
  intros St chans type s. split.
  - destruct chans, type; reflexivity.
  - destruct chans, type; simpl; split; intros H;
      try (exfalso; apply H; reflexivity);
      try discriminate;
      try (split; [now left | now left]);
      try (split; [now left | now right]);
      try (split; [now right | now left]);
      try (split; [now right | now right]);
      destruct H as [[H1|H1] [H2|H2]]; discriminate.
Qed.

(** ** The refill of one finished buffer *)

(** [process_loop] runs [process_buffer] once per finished buffer. *)
Lemma process_loop_unfold :
  forall fuel processed,
    process_loop (Dev := Dev) (D := D) (S fuel) processed
    = (process_buffer ;;
       if processed - 1 >? 0 then process_loop fuel (processed - 1)
       else ret tt).
Proof. reflexivity. Qed.

(** ** [process] *)

(** Case analysis on the innermost scrutinee of the goal. *)
Ltac case_step :=
  match goal with
  | |- context [match ?x with _ => _ end] =>
      lazymatch x with
      | context [match _ with _ => _ end] => fail
      | _ => destruct x eqn:?
      end
  end.

Ltac unfold_monad :=
  cbv [bind this on_output throwALerror throwALCerror al al_out update_this
       modify ret fail throw get emit try_catch outcome final trace] in *;
  cbn [fst snd] in *.

(** One pass of the loop body is the handling of one finished buffer. *)
Lemma process_buffer_handles :
  forall (s : OpenAL_SoundStream) (o : OpenAL_Output Dev),
    outcome (process_buffer (s, o)) = Ok tt
    /\ handles_finished_buffer s (trace (process_buffer (s, o)))
         (fst (final (process_buffer (s, o)))).
Proof.
  intros s o. unfold handles_finished_buffer, process_buffer, decoder_read.
  unfold_monad.
  destruct (al_call (alSourceUnqueueBuffers (mSource s) 1) (al_device o))
    as [out d1] eqn:E1. cbn [fst snd al_device set_al_device].
  assert (Hname : forall name rest,
             out = name :: rest -> hd (al_unwritten d1) out = name)
    by (intros name rest ->; reflexivity).
  destruct (mIsFinished s) eqn:Hfin; cbn [fst snd].
  - split; [reflexivity|]. exists out, (hd (al_unwritten d1) out).
    repeat split. exact Hname.
  - destruct (dec_read (mBufferSize s) (mDecoder s)) as [data dec'] eqn:E2.
    cbn [fst snd al_device set_al_device].
    destruct (Z.of_nat (length data) >? 0) eqn:Hgot;
      cbn [fst snd al_device set_al_device].
    + repeat (case_step; cbn [fst snd al_device set_al_device]).
      split; [reflexivity|]. exists out, (hd (al_unwritten d1) out).
      split; [exact Hname|].
      split; [eexists; eexists; reflexivity | reflexivity].
    + split; [reflexivity|]. exists out, (hd (al_unwritten d1) out).
      split; [exact Hname|]. split; reflexivity.
Qed.

(** The [do ... while] loop entered with [processed > 0] stops on its
    condition, not on the fuel: more fuel changes nothing, and one buffer
    is taken off the voice per finished buffer. *)
Lemma process_loop_fuel :
  forall fuel extra processed
         (st : OpenAL_SoundStream * OpenAL_Output Dev),
    0 < processed -> (Z.to_nat processed <= fuel)%nat ->
    process_loop (fuel + extra) processed st = process_loop fuel processed st.
Proof.
  induction fuel as [|fuel IH]; intros extra processed st Hpos Hfuel; [lia|].
  change (S fuel + extra)%nat with (S (fuel + extra)).
  simpl. unfold bind.
  destruct (process_buffer st) as [[[u|e] s1] t1]; [|reflexivity].
  destruct (processed - 1 >? 0) eqn:Hmore; [|reflexivity].
  rewrite Z.gtb_ltb in Hmore. apply Z.ltb_lt in Hmore.
  rewrite IH by lia. reflexivity.
Qed.

Lemma process_buffer_unqueues_one :
  forall (st : OpenAL_SoundStream * OpenAL_Output Dev),
    outcome (process_buffer st) = Ok tt
    /\ length (filter is_unqueue (trace (process_buffer st))) = 1%nat.
Proof.
  intros [s o]. unfold process_buffer, decoder_read. unfold_monad.
  repeat (case_step; cbn [fst snd]); split; reflexivity.
Qed.

Lemma process_loop_unqueues :
  forall fuel processed (st : OpenAL_SoundStream * OpenAL_Output Dev),
    0 < processed -> (Z.to_nat processed <= fuel)%nat ->
    length (filter is_unqueue (trace (process_loop fuel processed st)))
    = Z.to_nat processed.
Proof.
  induction fuel as [|fuel IH]; intros processed st Hpos Hfuel; [lia|].
  simpl. unfold bind.
  destruct (process_buffer_unqueues_one st) as (Hr & Hn).
  unfold outcome, trace in *.
  destruct (process_buffer st) as [[r1 s1] t1]. cbn [fst snd] in *.
  subst r1.
  destruct (processed - 1 >? 0) eqn:Hmore.
  - rewrite Z.gtb_ltb in Hmore. apply Z.ltb_lt in Hmore.
    specialize (IH (processed - 1) s1 ltac:(lia) ltac:(lia)).
    destruct (process_loop fuel (processed - 1) s1) as [[r2 s2] t2].
    cbn [fst snd] in *.
    rewrite filter_app, length_app, Hn, IH. lia.
  - rewrite Z.gtb_ltb in Hmore. apply Z.ltb_ge in Hmore.
    cbn [ret fst snd]. rewrite app_nil_r, Hn. lia.
Qed.

Lemma process_loop_finished :
  forall fuel processed (s : OpenAL_SoundStream) (o : OpenAL_Output Dev),
    mIsFinished s = true ->
    let r := process_loop fuel processed (s, o) in
    outcome r = Ok tt /\ fst (final r) = s
    /\ Forall (fun e => is_unqueue e = true) (trace r).
Proof.
  induction fuel as [|fuel IH]; intros processed s o Hfin; simpl.
  - repeat split. constructor.
  - unfold process_buffer. unfold_monad. rewrite Hfin.
    destruct (al_call (alSourceUnqueueBuffers (mSource s) 1) (al_device o))
      as [out d1]. simpl.
    cbn [fst snd]. destruct (processed - 1 >? 0).
    + specialize (IH (processed - 1) s (set_al_device d1 o) Hfin).
      cbv zeta in IH.
      destruct (process_loop fuel (processed - 1) (s, set_al_device d1 o))
        as [[r st] t]. simpl in *.
      destruct IH as (Hr & Hs & Ht). subst r. repeat split; auto.
    + simpl. repeat split. repeat constructor.
Qed.

(** C1, amended: a call of [process] that returns, returns true exactly when
    the sound is not finishing at the end of the call; how many buffers are
    still queued on the voice plays no part. *)
Theorem process_returns_not_finishing :
  forall (st : OpenAL_SoundStream * OpenAL_Output Dev) (b : bool),
    outcome (process st) = Ok b ->
    b = negb (mIsFinished (fst (final (process st)))).
Proof.
  intros [s o] b. unfold process, process_restart. unfold_monad.
  repeat (case_step; cbn [fst snd]; try discriminate);
    intros H; inversion H; reflexivity.
Qed.


Lemma unqueue_drains : forall e, is_unqueue e = true -> drains e.
Proof.
  intros [c out| |]; simpl; try discriminate.
  destruct c; simpl; try discriminate. intros _. split; reflexivity.
Qed.

Lemma emits_process_restart :
  forall (P : Event -> Prop) state,
    (forall c out, is_read (EvAL c out) = false ->
                   is_queue (EvAL c out) = false ->
                   is_unqueue (EvAL c out) = false -> P (EvAL c out)) ->
    emits P (process_restart (Dev := Dev) (D := D) state).
Proof.
  intros P state HP. unfold process_restart.
  apply emits_bind; [apply emits_this|]. intros s.
  destruct (negb (state =? AL_PLAYING) && negb (state =? AL_PAUSED));
    [|apply emits_ret].
  apply emits_bind.
  { apply emits_on_output, emits_al. intros out. apply HP; reflexivity. }
  intros queued. apply emits_bind.
  { apply emits_on_output, emits_throwALerror. intros out.
    apply HP; reflexivity. }
  intros _. destruct (out1 queued >? 0); [|apply emits_ret].
  apply emits_bind.
  { apply emits_on_output, emits_al. intros out. apply HP; reflexivity. }
  intros _. apply emits_on_output, emits_throwALerror. intros out.
  apply HP; reflexivity.
Qed.

Lemma process_restart_this :
  forall state (st : OpenAL_SoundStream * OpenAL_Output Dev),
    fst (final (process_restart (D := D) state st)) = fst st.
Proof.
  intros state [s o]. unfold process_restart. unfold_monad.
  repeat (case_step; cbn [fst snd]); reflexivity.
Qed.

(** ** The handling of the finished buffers *)

Lemma process_loop_handles :
  forall fuel processed (s : OpenAL_SoundStream) (o : OpenAL_Output Dev),
    0 < processed -> (Z.to_nat processed <= fuel)%nat ->
    exists segs,
      outcome (process_loop fuel processed (s, o)) = Ok tt
      /\ trace (process_loop fuel processed (s, o)) = concat segs
      /\ length segs = Z.to_nat processed
      /\ handles_finished_buffers s segs
           (fst (final (process_loop fuel processed (s, o)))).
Proof.
  induction fuel as [|fuel IH]; intros processed s o Hpos Hfuel; [lia|].
  simpl process_loop. unfold bind.
  destruct (process_buffer_handles s o) as (Hr & Hseg).
  unfold outcome, final, trace in *.
  destruct (process_buffer (s, o)) as [[r1 [s1 o1]] t1]. cbn [fst snd] in *.
  subst r1.
  destruct (processed - 1 >? 0) eqn:Hmore.
  - rewrite Z.gtb_ltb in Hmore. apply Z.ltb_lt in Hmore.
    destruct (IH (processed - 1) s1 o1 ltac:(lia) ltac:(lia))
      as (segs & Hr2 & Ht2 & Hn2 & Hs2).
    destruct (process_loop fuel (processed - 1) (s1, o1))
      as [[r2 [s2 o2]] t2]. cbn [fst snd] in *.
    exists (t1 :: segs). split; [exact Hr2|]. split.
    { cbn [concat]. rewrite Ht2. reflexivity. }
    split; [cbn [length]; lia|].
    exists s1. split; assumption.
  - rewrite Z.gtb_ltb in Hmore. apply Z.ltb_ge in Hmore.
    cbn [ret fst snd]. exists [t1]. split; [reflexivity|]. split.
    { cbn [concat]. reflexivity. }
    split; [cbn [length]; lia|].
    exists s1. split; [exact Hseg | reflexivity].
Qed.

Lemma process_restart_refill_free :
  forall state (st : OpenAL_SoundStream * OpenAL_Output Dev),
    Forall refill_free (trace (process_restart (D := D) state st)).
Proof.
  intros state [s o]. unfold process_restart. unfold_monad.
  repeat (case_step; cbn [fst snd]);
    repeat constructor.
Qed.

(** C4: [process] handles the finished buffers one after the other, as many
    as the device reported, and does nothing else that takes a buffer off,
    reads, fills or queues.  Each buffer is taken off the voice; if the
    sound is not finishing, one buffer size is read from the decoder, the
    sound is finishing from then on exactly when the read was short, a read
    of at least one byte fills the buffer taken off with the bytes read and
    queues it on the voice again, and a read of no byte leaves it
    unqueued. *)
Theorem process_refills_finished_buffers :
  forall (s : OpenAL_SoundStream) (o : OpenAL_Output Dev),
    let q1 :=
      al_call (alGetSourcei (mSource s) AL_SOURCE_STATE) (al_device o) in
    let q2 :=
      al_call (alGetSourcei (mSource s) AL_BUFFERS_PROCESSED) (snd q1) in
    let q3 := al_call alGetError (snd q2) in
    out1 (fst q3) = AL_NO_ERROR ->
    exists segs rest,
      trace (process (s, o))
      = [ EvAL (alGetSourcei (mSource s) AL_SOURCE_STATE) (fst q1);
          EvAL (alGetSourcei (mSource s) AL_BUFFERS_PROCESSED) (fst q2);
          EvAL alGetError (fst q3) ]
        ++ concat segs ++ rest
      /\ length segs = Z.to_nat (out1 (fst q2))
      /\ handles_finished_buffers s segs (fst (final (process (s, o))))
      /\ Forall refill_free rest.
Proof.
  intros s o q1 q2 q3 Hok. subst q1 q2 q3.
  pose proof (fun p o' => process_loop_handles (Z.to_nat p) p s o') as HL.
  pose proof process_restart_refill_free as HR.
  pose proof process_restart_this as HT.
  unfold outcome, final, trace in HL, HR, HT.
  unfold process. unfold_monad.
  destruct (al_call (alGetSourcei (mSource s) AL_SOURCE_STATE) (al_device o))
    as [out1' d1]. cbn [fst snd al_device set_al_device] in *.
  destruct (al_call (alGetSourcei (mSource s) AL_BUFFERS_PROCESSED) d1)
    as [out2 d2]. cbn [fst snd al_device set_al_device] in *.
  destruct (al_call alGetError d2) as [out3 d3].
  cbn [fst snd al_device set_al_device] in *.
  rewrite Hok. cbn [Z.eqb AL_NO_ERROR fst snd].
  destruct (out1 out2 >? 0) eqn:Hp.
  - rewrite Z.gtb_ltb in Hp. apply Z.ltb_lt in Hp.
    match goal with
    | |- context [process_loop ?n ?p (s, ?o')] =>
        destruct (HL p o' Hp (Nat.le_refl _)) as (segs & Hr & Ht & Hn & Hs);
        destruct (process_loop n p (s, o')) as [[r [s1 o1]] t1]
    end.
    cbn [fst snd] in *. subst r t1.
    destruct (al_call alGetError (al_device o1)) as [out4 d4].
    cbn [fst snd].
    destruct (out1 out4 =? AL_NO_ERROR); cbn [fst snd].
    + match goal with
      | |- context [process_restart ?state ?st] =>
          pose proof (HR state st) as Hfree;
          pose proof (HT state st) as Hsame;
          destruct (process_restart state st) as [[r3 [s3 o3]] t3]
      end.
      cbn [fst snd] in *. subst s3.
      exists segs, (EvAL alGetError out4 :: t3).
      destruct r3; cbn [fst snd].
      all: split; [cbn [app]; rewrite ?app_nil_r, <- ?app_assoc;
                   reflexivity|].
      all: split; [exact Hn|]; split; [exact Hs|].
      all: constructor; [repeat split | exact Hfree].
    + exists segs, [EvAL alGetError out4].
      split; [cbn [app]; rewrite ?app_nil_r; reflexivity|].
      split; [exact Hn|]. split; [exact Hs|].
      repeat constructor.
  - rewrite Z.gtb_ltb in Hp. apply Z.ltb_ge in Hp.
    cbn [fst snd].
    match goal with
    | |- context [process_restart ?state ?st] =>
        pose proof (HR state st) as Hfree;
        pose proof (HT state st) as Hsame;
        destruct (process_restart state st) as [[r3 [s3 o3]] t3]
    end.
    cbn [fst snd] in *. subst s3.
    exists [], t3.
    destruct r3; cbn [fst snd].
    all: split; [cbn [app concat]; rewrite ?app_nil_r; reflexivity|].
    all: split; [cbn [length]; lia|]; split; [reflexivity | exact Hfree].
Qed.

Ltac solve_trace :=
  cbn [app];
  repeat (first [ apply Forall_app; split
                | apply Forall_cons
                | apply Forall_nil ]);
  try (split; reflexivity); try reflexivity;
  try assumption;
  try (eapply Forall_impl; [|eassumption]; auto using unqueue_drains).

(** Case analysis through a [process] call, with what is known of the loop
    and of the restart block brought in when they are met. *)
Ltac run_process s HL HR HT :=
  repeat first
    [ match goal with
      | |- context [process_loop ?n ?p (s, ?o')] =>
          pose proof (HL n p o');
          destruct (process_loop n p (s, o')) as [[? [? ?]] ?];
          cbn [fst snd] in *
      | |- context [process_restart ?state ?st] =>
          pose proof (HR state st); pose proof (HT state st);
          destruct (process_restart state st) as [[? [? ?]] ?] eqn:?;
          cbn [fst snd] in *
      end
    | case_step; cbn [fst snd] in * ].

Lemma process_finished :
  forall (s : OpenAL_SoundStream) (o : OpenAL_Output Dev),
    mIsFinished s = true ->
    fst (final (process (s, o))) = s
    /\ Forall drains (trace (process (s, o))).
Proof.
  intros s o Hfin.
  pose proof (fun n p o' => process_loop_finished n p s o' Hfin) as HL.
  cbv zeta in HL.
  pose proof (fun state =>
    emits_process_restart drains state
      (fun c out H1 H2 _ => conj H1 H2)) as HR.
  pose proof process_restart_this as HT.
  unfold emits in HR. unfold outcome, final, trace in HL, HR, HT.
  unfold process. unfold_monad.
  run_process s HL HR HT.
  all: repeat match goal with H : _ /\ _ |- _ => destruct H end.
  all: cbn [fst snd] in *; subst.
  all: split; [reflexivity | solve_trace].
Qed.

(** ** The whole course of a sound under [process] *)

Lemma phase_run_app :
  forall t1 t2 ph ph1,
    phase_run ph t1 = Some ph1 ->
    phase_run ph (t1 ++ t2) = phase_run ph1 t2.
Proof.
  induction t1 as [|e t1 IH]; intros t2 ph ph1 H; simpl in *.
  - inversion H. reflexivity.
  - destruct (phase_step ph e) as [ph'|]; [|discriminate].
    apply IH. exact H.
Qed.

Lemma phase_run_drains :
  forall t ph,
    ph <> Requeueing -> Forall drains t -> phase_run ph t = Some ph.
Proof.
  induction t as [|e t IH]; intros ph Hph H; [reflexivity|].
  inversion H as [|e' t' [H1 H2] Ht]; subst. simpl.
  destruct ph; try congruence.
  - destruct e as [c out|c|s]; simpl in *.
    + apply IH; auto.
    + destruct c; simpl in *; try discriminate; apply IH; auto.
    + apply IH; auto.
  - simpl. rewrite H1, H2. simpl. apply IH; auto.
Qed.

Lemma phase_of_settled : forall b, phase_of b <> Requeueing.
Proof. intros []; discriminate. Qed.

Lemma process_buffer_phase :
  forall (s : OpenAL_SoundStream) (o : OpenAL_Output Dev),
    let r := process_buffer (s, o) in
    outcome r = Ok tt
    /\ phase_run (phase_of (mIsFinished s)) (trace r)
       = Some (phase_of (mIsFinished (fst (final r)))).
Proof.
  intros s o. cbv zeta.
  unfold process_buffer, decoder_read. unfold_monad.
  destruct (al_call (alSourceUnqueueBuffers (mSource s) 1) (al_device o))
    as [out d1]. cbn [fst snd].
  destruct (mIsFinished s) eqn:Hfin; cbn [fst snd].
  - rewrite Hfin. repeat split.
  - destruct (dec_read (mBufferSize s) (mDecoder s)) as [data dec'].
    cbn [fst snd].
    destruct (Z.of_nat (length data) >? 0) eqn:Hgot; cbn [fst snd].
    + repeat (case_step; cbn [fst snd]).
      repeat split. simpl. rewrite Hgot.
      destruct (Z.of_nat (length data) <? mBufferSize s); reflexivity.
    + repeat split. simpl. rewrite Hgot.
      destruct (Z.of_nat (length data) <? mBufferSize s); reflexivity.
Qed.

Lemma process_loop_phase :
  forall fuel processed (s : OpenAL_SoundStream) (o : OpenAL_Output Dev),
    let r := process_loop fuel processed (s, o) in
    outcome r = Ok tt
    /\ phase_run (phase_of (mIsFinished s)) (trace r)
       = Some (phase_of (mIsFinished (fst (final r)))).
Proof.
  induction fuel as [|fuel IH]; intros processed s o; cbv zeta.
  - split; reflexivity.
  - simpl. unfold bind.
    destruct (process_buffer_phase s o) as (Hr & Hp).
    unfold outcome, final, trace in *.
    destruct (process_buffer (s, o)) as [[r1 [s1 o1]] t1].
    cbn [fst snd] in *. subst r1.
    destruct (processed - 1 >? 0).
    + destruct (IH (processed - 1) s1 o1) as (Hr2 & Hp2).
      unfold outcome, final, trace in *.
      destruct (process_loop fuel (processed - 1) (s1, o1))
        as [[r2 [s2 o2]] t2].
      cbn [fst snd] in *. split; [exact Hr2|].
      rewrite (phase_run_app _ _ _ _ Hp). exact Hp2.
    + cbn [ret fst snd]. split; [reflexivity|].
      rewrite app_nil_r. exact Hp.
Qed.

Lemma process_phase :
  forall (s : OpenAL_SoundStream) (o : OpenAL_Output Dev),
    phase_run (phase_of (mIsFinished s)) (trace (process (s, o)))
    = Some (phase_of (mIsFinished (fst (final (process (s, o)))))).
Proof.
  intros s o.
  pose proof (fun n p o' => process_loop_phase n p s o') as HL.
  cbv zeta in HL.
  pose proof (fun state =>
    emits_process_restart drains state
      (fun c out H1 H2 _ => conj H1 H2)) as HR.
  pose proof process_restart_this as HT.
  unfold emits in HR. unfold outcome, final, trace in HL, HR, HT.
  unfold process. unfold_monad.
  repeat first
    [ match goal with
      | |- context [process_loop ?n ?p (?s', ?o')] =>
          destruct (HL n p o') as (? & ?);
          destruct (process_loop n p (s', o')) as [[? [? ?]] ?];
          cbn [fst snd] in *; subst
      | |- context [process_restart ?state ?st] =>
          pose proof (HR state st); pose proof (HT state st);
          destruct (process_restart state st) as [[? [? ?]] ?] eqn:?;
          cbn [fst snd] in *; subst
      end
    | case_step; cbn [fst snd] in * ].
  all: try discriminate.
  all: rewrite ?app_nil_r; cbn [app]; rewrite <- ?app_assoc; cbn [app].
  all: destruct (mIsFinished s);
    cbn [phase_of phase_run phase_step is_read is_queue orb] in *.
  all: repeat match goal with
       | H : phase_run ?ph ?l = Some _ |- context [phase_run ?ph (?l ++ _)] =>
           rewrite (phase_run_app _ _ _ _ H)
       | H : phase_run ?ph ?l = Some _ |- context [phase_run ?ph ?l] =>
           rewrite H
       end.
  all: try reflexivity.
  all: repeat match goal with
       | |- context [phase_of (mIsFinished ?x)] => destruct (mIsFinished x)
       end.
  all: cbn [phase_of phase_run phase_step is_read is_queue orb app].
  all: try reflexivity.
  all: try (apply phase_run_drains; [discriminate | assumption]).
Qed.

(** Over any run of [process] calls, from a sound in any state, the trace
    follows the phases: after a short read nothing but the refill and the
    queueing of the buffer just read, then no read and no queueing. *)
Lemma process_calls_phase :
  forall hw (s : OpenAL_SoundStream) (o : OpenAL_Output Dev),
    phase_run (phase_of (mIsFinished s)) (fst (process_calls hw (s, o)))
    = Some (phase_of
              (mIsFinished (fst (snd (process_calls hw (s, o)))))).
Proof.
  induction hw as [|h hw IH]; intros s o; simpl.
  - reflexivity.
  - pose proof (process_phase s (set_al_device (h (al_device o)) o)) as Hp.
    destruct (final (process (s, set_al_device (h (al_device o)) o)))
      as [s' o'] eqn:Ef.
    cbn [fst] in Hp.
    rewrite (phase_run_app _ _ _ _ Hp). apply IH.
Qed.

(** C3: once a streaming sound is finishing, [process] issues no read of
    the decoder and queues no buffer, so that the buffers taken off the
    voice stay off.  First on the traces: over any run of [process] calls,
    whatever the hardware did in between, a short read is followed by
    nothing but the refill and queueing of the buffer it was read into, and
    from then on by no read and no queueing.  Then on the states: with the
    finishing flag set, the rest of the [do ... while] loop, the restart
    block and every later call of [process] record no read and no queueing
    and leave the sound, its decoder included, as it was, still
    finishing. *)
Theorem process_finishing_drains :
  forall (s : OpenAL_SoundStream) (o : OpenAL_Output Dev),
    (forall hw,
        phase_run (phase_of (mIsFinished s)) (fst (process_calls hw (s, o)))
        = Some (phase_of
                  (mIsFinished (fst (snd (process_calls hw (s, o)))))))
    /\ (mIsFinished s = true ->
        (forall fuel processed,
            Forall drains (trace (process_loop fuel processed (s, o)))
            /\ fst (final (process_loop fuel processed (s, o))) = s)
        /\ (forall state,
              Forall drains (trace (process_restart state (s, o)))
              /\ fst (final (process_restart state (s, o))) = s)
        /\ (forall hw,
              Forall drains (fst (process_calls hw (s, o)))
              /\ fst (snd (process_calls hw (s, o))) = s)).
Proof.
  intros s o. split; [intros hw; apply process_calls_phase|].
  intros Hfin. split; [|split].
  - intros fuel processed.
    destruct (process_loop_finished fuel processed s o Hfin) as (_ & Hs & Ht).
    split; [|exact Hs].
    eapply Forall_impl; [|exact Ht]. auto using unqueue_drains.
  - intros state. split.
    + apply (emits_process_restart drains state).
      intros c out H1 H2 _. split; assumption.
    + apply process_restart_this.
  - intros hw. revert o. induction hw as [|h hw IH]; intros o; simpl.
    + split; [constructor | reflexivity].
    + destruct (process_finished s
                  (set_al_device (h (al_device o)) o) Hfin) as (Hs & Ht).
      destruct (final (process (s, set_al_device (h (al_device o)) o)))
        as [s' o'] eqn:Ef.
      simpl in Hs. subst s'.
      destruct (IH o') as (IH1 & IH2).
      split; [|exact IH2].
      apply Forall_app. split; assumption.
Qed.

Lemma emits_process_loop :
  forall (P : Event -> Prop) fuel processed,
    (forall src n out, P (EvAL (alSourceUnqueueBuffers src n) out)) ->
    (forall len got, P (EvDecoder (DecRead len got))) ->
    (forall buf fmt data sz fr out,
        P (EvAL (alBufferData buf fmt data sz fr) out)) ->
    (forall src bufs out, P (EvAL (alSourceQueueBuffers src bufs) out)) ->
    emits P (process_loop (Dev := Dev) (D := D) fuel processed).
Proof.
  intros P fuel. induction fuel as [|fuel IH]; intros processed H1 H2 H3 H4.
  - apply emits_ret.
  - simpl. apply emits_bind.
    + unfold process_buffer.
      apply emits_bind; [apply emits_this|]. intros s.
      apply emits_bind; [apply emits_on_output, emits_al_out; auto|].
      intros bufid. destruct (mIsFinished s); [apply emits_ret|].
      apply emits_bind; [apply emits_decoder_read; auto|]. intros data.
      apply emits_bind; [apply emits_update_this|]. intros _.
      destruct (Z.of_nat (length data) >? 0); [|apply emits_ret].
      apply emits_bind; [apply emits_on_output, emits_al; auto|]. intros _.
      apply emits_bind; [apply emits_on_output, emits_al; auto|]. intros _.
      apply emits_ret.
    + intros _. destruct (processed - 1 >? 0); [|apply emits_ret].
      apply IH; assumption.
Qed.



(** ** Trace properties of whole functions *)

Lemma emits_LoadBuffer_loop :
  forall {St} (P : Event -> Prop) fuel decoder size data,
    (forall len got, P (EvDecoder (DecRead len got))) ->
    emits P (LoadBuffer_loop (St := St) fuel decoder size data).
Proof.
  intros St P fuel. induction fuel as [|fuel IH]; intros decoder size data HP.
  - apply emits_ret.
  - simpl. apply emits_bind; [apply emits_emit, HP|]. intros _.
    destruct (Z.of_nat (length (fst (dec_read
                (size - Z.of_nat (length data)) decoder))) >? 0).
    + apply IH, HP.
    + apply emits_ret.
Qed.

Lemma emits_play_fill :
  forall (P : Event -> Prop) bufs,
    (forall len got, P (EvDecoder (DecRead len got))) ->
    (forall buf fmt data sz fr out,
        P (EvAL (alBufferData buf fmt data sz fr) out)) ->
    emits P (play_fill (Dev := Dev) (D := D) bufs).
Proof.
  intros P bufs H1 H2. induction bufs as [|buf rest IH]; simpl.
  - apply emits_ret.
  - apply emits_bind; [apply emits_this|]. intros s.
    apply emits_bind; [apply emits_decoder_read; auto|]. intros data.
    apply emits_bind; [apply emits_on_output, emits_al; auto|]. intros _.
    exact IH.
Qed.

Lemma emits_with_stream :
  forall (P : Event -> Prop) sound (body : StreamM unit),
    emits P body ->
    emits P (OpenAL_SoundStream_delete (Dev := Dev) (D := D)) ->
    emits P (with_stream sound body).
Proof.
  intros P sound body Hb Hd o. unfold with_stream, trace.
  specialize (Hb (sound, o)). unfold trace in Hb.
  destruct (body (sound, o)) as [[[a|e] st] t]; simpl in *; auto.
  specialize (Hd st). unfold trace in Hd.
  destruct (OpenAL_SoundStream_delete st) as [[r st'] t']; simpl in *.
  apply Forall_app. split; assumption.
Qed.

(** One step of a proof that every event of a computation satisfies a
    property: the computation is taken apart along its structure. *)
Ltac emits_step_ :=
  first
    [ apply emits_ret | apply emits_throw | apply emits_fail
    | apply emits_get | apply emits_modify | apply emits_this
    | apply emits_update_this
    | apply emits_bind; [|intros ?]
    | apply emits_try_catch; [|intros ?]
    | apply emits_on_output
    | apply emits_with_stream
    | apply emits_al; intros ?
    | apply emits_al_out; intros ?
    | apply emits_emit
    | apply emits_decoder_read; intros ?
    | apply emits_LoadBuffer_loop; intros ? ?
    | apply emits_play_fill; [intros ? ? | intros ? ? ? ? ? ?]
    | apply emits_process_loop;
        [intros ? ? ? | intros ? ? | intros ? ? ? ? ? ? | intros ? ? ?]
    | match goal with
      | |- emits _ (if ?c then _ else _) => destruct c
      | |- emits _ (match ?x with _ => _ end) => destruct x
      end ].

Ltac emits_unfold :=
  unfold throwALerror, throwALCerror, getALFormat, decoder_rewind,
    decoder_close, decoder_getInfo, decoder_open, StreamThread_add,
    StreamThread_remove, free_source, OpenAL_SoundStream_new,
    OpenAL_SoundStream_delete, play, stop, isPlaying, update, process,
    process_restart, LoadBuffer, OpenAL_Sound_delete, Sound_stop,
    Sound_isPlaying, Sound_update, take_source, playSound_catch,
    playSound_load, with_sound, playSound, playSound3D, streamSound_new,
    streamSound, streamSound3D, updateListener.

Ltac emits_auto :=
  repeat first [ emits_step_ | progress emits_unfold ].

(** ** The axis remap *)

Lemma remapped_positions :
  forall pos t, Forall (remapped pos) t ->
    Forall (eq (device_coords pos)) (positions t).
Proof.
  intros pos t H. unfold positions. induction H as [|e t He Ht IH]; simpl.
  - constructor.
  - apply Forall_app. split; assumption.
Qed.

Lemma remapped_other_event :
  forall pos e, position_of e = [] -> remapped pos e.
Proof. intros pos e H. unfold remapped. rewrite H. constructor. Qed.

Lemma remapped_source_position :
  forall pos src out,
    remapped pos
      (EvAL (alSource3f src AL_POSITION (pos0 pos) (pos2 pos)
               (fneg (pos1 pos))) out).
Proof. intros. unfold remapped. simpl. repeat constructor. Qed.

Lemma remapped_listener_position :
  forall pos out,
    remapped pos
      (EvAL (alListener3f AL_POSITION (pos0 pos) (pos2 pos)
               (fneg (pos1 pos))) out).
Proof. intros. unfold remapped. simpl. repeat constructor. Qed.

Ltac solve_remapped :=
  first [ apply remapped_source_position
        | apply remapped_listener_position
        | apply remapped_other_event; reflexivity ].

(** A computation that returns after a first call has that call at the
    head of its trace. *)
Lemma bind_al_trace :
  forall {A} c (k : list Z -> M (OpenAL_Output Dev) A) o,
    exists out rest, trace (bind (al c) k o) = EvAL c out :: rest.
Proof.
  intros A c k o. unfold bind, al, trace.
  destruct (al_call c (al_device o)) as [out d].
  destruct (k out (set_al_device d o)) as [[r o'] t]. simpl.
  exists out, t. reflexivity.
Qed.

Lemma bind_Ok :
  forall {S A B} (m : M S A) (f : A -> M S B) s b,
    outcome (bind m f s) = Ok b ->
    exists a,
      outcome (m s) = Ok a
      /\ outcome (f a (final (m s))) = Ok b
      /\ final (bind m f s) = final (f a (final (m s)))
      /\ trace (bind m f s) = trace (m s) ++ trace (f a (final (m s))).
Proof.
  intros S A B m f s b. unfold bind, outcome, final, trace.
  destruct (m s) as [[[a|e] s1] t1]; simpl; [|discriminate].
  destruct (f a s1) as [[r s2] t2] eqn:E; simpl. intros H. exists a.
  rewrite E. simpl. repeat split; auto.
Qed.

Lemma positions_app :
  forall t1 t2, positions (t1 ++ t2) = positions t1 ++ positions t2.
Proof. intros. unfold positions. apply flat_map_app. Qed.

Lemma with_sound_Ok :
  forall sound (body : M (OpenAL_Output Dev) unit) o r,
    outcome (with_sound sound body o) = Ok r ->
    trace (with_sound sound body o) = trace (body o).
Proof.
  intros sound body o r. unfold with_sound, OpenAL_Sound_delete.
  unfold try_catch at 1. unfold_monad.
  destruct (body o) as [[[a|e] o1] t1]; cbn [fst snd].
  - intros _. rewrite app_nil_r. reflexivity.
  - repeat (case_step; cbn [fst snd]); discriminate.
Qed.

Lemma with_stream_Ok :
  forall sound (body : StreamM unit) o r,
    outcome (with_stream sound body o) = Ok r ->
    trace (with_stream sound body o) = trace (body (sound, o)).
Proof.
  intros sound body o r. unfold with_stream, outcome, trace.
  destruct (body (sound, o)) as [[[a|e] st] t]; cbn [fst snd].
  - reflexivity.
  - destruct (OpenAL_SoundStream_delete st) as [[r' st'] t'].
    cbn [fst snd]. discriminate.
Qed.

(** C8: every position handed to the device is the world position
    (x, y, z) sent as (x, z, -y), and the orientation of the listener is
    its two world vectors sent the same way.  [update] of both sound
    variants and [updateListener] make exactly one position call, with
    these coordinates; [playSound3D] and [streamSound3D] make no position
    call with other coordinates, and make one whenever they return a
    sound. *)
Theorem positions_are_remapped :
  forall (pos atdir updir : vec3),
    (forall st : OpenAL_SoundStream * OpenAL_Output Dev,
        positions (trace (update (D := D) pos st)) = [device_coords pos])
    /\ (forall sound (o : OpenAL_Output Dev),
          positions (trace (Sound_update sound pos o)) = [device_coords pos])
    /\ (forall o : OpenAL_Output Dev,
          positions (trace (updateListener pos atdir updir o))
            = [device_coords pos]
          /\ orientations (trace (updateListener pos atdir updir o))
            = [[ pos0 atdir; pos2 atdir; fneg (pos1 atdir);
                 pos0 updir; pos2 updir; fneg (pos1 updir) ]])
    /\ (forall fname volume pitch min max loop (o : OpenAL_Output Dev),
          let r := playSound3D fname pos volume pitch min max loop o in
          Forall (eq (device_coords pos)) (positions (trace r))
          /\ forall sound, outcome r = Ok sound ->
                In (device_coords pos) (positions (trace r)))
    /\ (forall addr fname volume pitch min max (o : OpenAL_Output Dev),
          let r := streamSound3D addr fname pos volume pitch min max o in
          Forall (eq (device_coords pos)) (positions (trace r))
          /\ forall sound, outcome r = Ok sound ->
                In (device_coords pos) (positions (trace r))).
Proof.
  intros pos atdir updir. split; [|split; [|split; [|split]]].
  - intros [s o]. unfold update. unfold_monad.
    repeat (case_step; cbn [fst snd]); reflexivity.
  - intros sound o. unfold Sound_update. unfold_monad.
    repeat (case_step; cbn [fst snd]); reflexivity.
  - intros o. unfold updateListener. unfold_monad.
    repeat (case_step; cbn [fst snd]); split; reflexivity.
  - intros fname volume pitch min max loop o r. subst r. split.
    { apply remapped_positions.
      assert (H : emits (remapped pos)
                    (playSound3D fname pos volume pitch min max loop))
        by (emits_auto; solve_remapped).
      apply H. }
    intros sound Hok. unfold playSound3D in *.
    apply bind_Ok in Hok. destruct Hok as (u & _ & Hok & _ & Ht).
    rewrite Ht. clear Ht.
    apply bind_Ok in Hok. destruct Hok as (src & _ & Hok & _ & Ht).
    rewrite Ht. clear Ht.
    apply bind_Ok in Hok. destruct Hok as (snd0 & _ & Hok & _ & Ht).
    rewrite Ht. clear Ht.
    rewrite (with_sound_Ok _ _ _ _ Hok).
    rewrite !positions_app. apply in_or_app. right.
    apply in_or_app. right. apply in_or_app. right.
    match goal with
    | |- context [trace (bind (al ?c) ?k ?o1)] =>
        destruct (bind_al_trace c k o1) as (out & rest & E); rewrite E
    end.
    simpl. left. reflexivity.
  - intros addr fname volume pitch min max o r. subst r. split.
    { apply remapped_positions.
      assert (H : emits (remapped pos)
                    (streamSound3D addr fname pos volume pitch min max))
        by (emits_auto; solve_remapped).
      apply H. }
    intros sound Hok. unfold streamSound3D in *.
    apply bind_Ok in Hok. destruct Hok as (u & _ & Hok & _ & Ht).
    rewrite Ht. clear Ht.
    apply bind_Ok in Hok. destruct Hok as (src & _ & Hok & _ & Ht).
    rewrite Ht. clear Ht.
    apply bind_Ok in Hok. destruct Hok as (snd0 & _ & Hok & _ & Ht).
    rewrite Ht. clear Ht.
    rewrite (with_stream_Ok _ _ _ _ Hok).
    rewrite !positions_app. apply in_or_app. right.
    apply in_or_app. right. apply in_or_app. right.
    unfold on_output, trace. cbn [bind fst snd].
    unfold bind at 1. unfold bind at 1. cbn [fst snd].
    unfold al at 1.
    repeat (case_step; cbn [fst snd]); simpl; left; reflexivity.
Qed.

(** ** Playing and rewinding *)

Lemma buffer_data_app :
  forall t1 t2, buffer_data (t1 ++ t2) = buffer_data t1 ++ buffer_data t2.
Proof. intros. unfold buffer_data. apply flat_map_app. Qed.

(** The [for] loop of [play] reads one buffer size per buffer, from where
    the decoder stands, and hands each chunk to the device. *)
Lemma play_fill_reads :
  forall bufs (s : OpenAL_SoundStream) (o : OpenAL_Output Dev),
    let r := play_fill bufs (s, o) in
    let c := read_chunks (length bufs) (mBufferSize s) (mDecoder s) in
    outcome r = Ok tt
    /\ fst (final r) = set_mDecoder (snd c) s
    /\ buffer_data (trace r) = fst c.
Proof.
  induction bufs as [|buf rest IH]; intros s o.
  - simpl. unfold_monad. repeat split. destruct s; reflexivity.
  - simpl. unfold decoder_read. unfold_monad.
    destruct (dec_read (mBufferSize s) (mDecoder s)) as [data d1] eqn:Er.
    cbn [fst snd].
    destruct (al_call (alBufferData buf (mFormat s) data
                         (Z.of_nat (length data)) (mSampleRate s))
                (al_device o)) as [out d2] eqn:Ec.
    cbn [fst snd].
    specialize (IH (set_mDecoder d1 s) (set_al_device d2 o)).
    cbv zeta in IH. unfold outcome, final, trace in IH.
    destruct (play_fill rest (set_mDecoder d1 s, set_al_device d2 o))
      as [[r st] t]. cbn [fst snd] in *.
    destruct IH as (Hr & Hs & Ht). subst r.
    repeat split.
    + rewrite Hs. reflexivity.
    + simpl. rewrite Ht. reflexivity.
Qed.

(** C9: [isPlaying] of a streaming sound, when it returns, is true exactly
    if the hardware reports the voice playing or the sound is not finished;
    and after a [play] that returned the sound is not finished, so that
    [isPlaying] called next returns true whatever state the hardware
    reports. *)
Theorem isPlaying_until_finished :
  (forall (s : @OpenAL_SoundStream D) (o : OpenAL_Output Dev) (b : bool),
      outcome (isPlaying (s, o)) = Ok b ->
      b = (source_state (mSource s) o =? AL_PLAYING) || negb (mIsFinished s))
  /\ (forall (st : OpenAL_SoundStream * OpenAL_Output Dev),
        outcome (play st) = Ok tt ->
        mIsFinished (fst (final (play st))) = false
        /\ forall b, outcome (isPlaying (final (play st))) = Ok b ->
                     b = true).
Proof.
  split.
  - intros s o b. unfold isPlaying, source_state, al_query. unfold_monad.
    repeat (case_step; cbn [fst snd]); try discriminate;
      intros H; inversion H; reflexivity.
  - intros [s o] Hplay.
    assert (Hfin : mIsFinished (fst (final (play (s, o)))) = false).
    { revert Hplay. unfold play, StreamThread_add. unfold_monad.
      repeat (case_step; cbn [fst snd]); try discriminate; reflexivity. }
    split; [exact Hfin|].
    destruct (final (play (s, o))) as [s' o']. cbn [fst] in Hfin.
    intros b. unfold isPlaying. unfold_monad. rewrite Hfin.
    repeat (case_step; cbn [fst snd]); try discriminate;
      intros H; inversion H; reflexivity.
Qed.


(** C10: [play] never rewinds the decoder; a [play] that returns has read
    one buffer size per ring buffer from where the decoder stood, and these
    chunks, in order, are the data given to the device.  [process],
    [isPlaying] and [update] do not rewind either; a [stop] that returns
    has rewound the decoder. *)
Theorem play_resumes_where_decoder_stands :
  forall (s : OpenAL_SoundStream) (o : OpenAL_Output Dev),
    Forall no_rewind (trace (play (s, o)))
    /\ (outcome (play (s, o)) = Ok tt ->
        let c := read_chunks (length (mBuffers s)) (mBufferSize s)
                   (mDecoder s) in
        mDecoder (fst (final (play (s, o)))) = snd c
        /\ buffer_data (trace (play (s, o))) = fst c)
    /\ Forall no_rewind (trace (process (s, o)))
    /\ Forall no_rewind (trace (isPlaying (s, o)))
    /\ (forall pos, Forall no_rewind (trace (update pos (s, o))))
    /\ (outcome (stop (s, o)) = Ok tt ->
        mDecoder (fst (final (stop (s, o)))) = dec_rewind (mDecoder s)
        /\ In (EvDecoder DecRewind) (trace (stop (s, o)))).
Proof.
  intros s o. split; [|split; [|split; [|split; [|split]]]].
  - assert (H : emits no_rewind (play (Dev := Dev) (D := D)))
      by (emits_auto; reflexivity).
    apply H.
  - intros Hplay c. subst c. revert Hplay.
    pose proof (fun o' => play_fill_reads (mBuffers s) s o') as HF.
    cbv zeta in HF. unfold outcome, final, trace in HF.
    unfold play, StreamThread_add. unfold_monad.
    repeat first
      [ match goal with
        | |- context [play_fill ?bufs (?s', ?o')] =>
            destruct (HF o') as (? & ? & ?);
            destruct (play_fill bufs (s', o')) as [[? [? ?]] ?];
            cbn [fst snd] in *; subst
        end
      | case_step; cbn [fst snd] in * ]; try discriminate.
    intros _. split; [reflexivity|].
    rewrite !buffer_data_app. cbn [buffer_data flat_map buffer_data_of app].
    rewrite app_nil_r. assumption.
  - assert (H : emits no_rewind (process (Dev := Dev) (D := D)))
      by (emits_auto; reflexivity).
    apply H.
  - assert (H : emits no_rewind (isPlaying (Dev := Dev) (D := D)))
      by (emits_auto; reflexivity).
    apply H.
  - intros pos.
    assert (H : emits no_rewind (update (Dev := Dev) (D := D) pos))
      by (emits_auto; reflexivity).
    apply H.
  - unfold stop, decoder_rewind, StreamThread_remove. unfold_monad.
    repeat (case_step; cbn [fst snd] in * ); try discriminate.
    intros _. split; [reflexivity|].
    repeat (apply in_or_app; right). left. reflexivity.
Qed.

(** ** The voice pool at [init] *)

Lemma int_add_small :
  forall a b, - 2 ^ 31 <= a + b < 2 ^ 31 -> int_add a b = a + b.
Proof.
  intros a b H. unfold int_add.
  rewrite Z.mod_small by lia. lia.
Qed.

Lemma length_resize : forall n v, length (resize n v) = n.
Proof.
  intros n v. unfold resize.
  rewrite length_app, length_firstn, repeat_length. lia.
Qed.

Lemma length_assign : forall v i x, length (assign i x v) = length v.
Proof.
  induction v as [|y v IH]; intros i x; [destruct i; reflexivity|].
  destruct i; simpl; [reflexivity|]. rewrite IH. reflexivity.
Qed.

Lemma firstn_assign :
  forall v i x, (i < length v)%nat ->
    firstn (S i) (assign i x v) = firstn i v ++ [x].
Proof.
  induction v as [|y v IH]; intros i x Hi; simpl in Hi; [lia|].
  destruct i.
  - reflexivity.
  - change (assign (S i) x (y :: v)) with (y :: assign i x v).
    change (firstn (S (S i)) (y :: assign i x v))
      with (y :: firstn (S i) (assign i x v)).
    rewrite IH by lia. reflexivity.
Qed.

Lemma createVoices_length :
  forall count d, (length (fst (createVoices count d)) <= count)%nat.
Proof.
  induction count as [|n IH]; intros d; simpl; [lia|].
  destruct (out1 (fst (al_call alGetError
              (snd (al_call (alGenSources 1) d)))) =? AL_NO_ERROR).
  - simpl. specialize (IH (snd (al_call alGetError
                                  (snd (al_call (alGenSources 1) d))))). lia.
  - simpl. lia.
Qed.

(** The [for] loop of [init] leaves in the pool what was there below index
    [i], followed by the voices created until the first failure. *)
Lemma init_sources_creates :
  forall fuel i (o : OpenAL_Output Dev),
    (i <= length (mFreeSources o))%nat ->
    (length (mFreeSources o) - i <= fuel)%nat ->
    let r := init_sources fuel i o in
    let created :=
      createVoices (length (mFreeSources o) - i) (al_device o) in
    outcome r = Ok tt
    /\ mFreeSources (final r) = firstn i (mFreeSources o) ++ fst created
    /\ al_device (final r) = snd created.
Proof.
  induction fuel as [|fuel IH]; intros i o Hi Hfuel.
  - replace (length (mFreeSources o) - i)%nat with O by lia.
    simpl. unfold_monad. repeat split.
    rewrite app_nil_r. rewrite firstn_all2 by lia. reflexivity.
  - simpl. unfold_monad.
    destruct (i <? length (mFreeSources o))%nat eqn:Hlt.
    + apply Nat.ltb_lt in Hlt.
      replace (length (mFreeSources o) - i)%nat
        with (S (length (mFreeSources o) - S i)) by lia.
      simpl createVoices.
      destruct (al_call (alGenSources 1) (al_device o)) as [src d1].
      cbn [fst snd al_device set_al_device].
      destruct (al_call alGetError d1) as [err d2].
      cbn [fst snd al_device set_al_device].
      destruct (out1 err =? AL_NO_ERROR); cbn [negb fst snd].
      * specialize (IH (S i)
          (set_mFreeSources (assign i (out1 src) (mFreeSources o))
             (set_al_device d2 (set_al_device d1 o)))).
        cbn [mFreeSources set_mFreeSources al_device set_al_device] in IH.
        rewrite length_assign in IH.
        specialize (IH ltac:(lia) ltac:(lia)).
        cbv zeta in IH. unfold outcome, final, trace in IH.
        destruct (init_sources fuel (S i) _) as [[r o'] t].
        cbn [fst snd] in *. destruct IH as (Hr & Hs & Hd). subst r.
        repeat split.
        -- rewrite Hs. rewrite firstn_assign by lia.
           rewrite <- app_assoc. reflexivity.
        -- exact Hd.
      * repeat split.
        cbn [mFreeSources set_mFreeSources set_al_device].
        unfold resize.
        replace (i - length (mFreeSources o))%nat with O by lia.
        reflexivity.
    + apply Nat.ltb_ge in Hlt.
      replace (length (mFreeSources o) - i)%nat with O by lia.
      simpl. repeat split.
      rewrite app_nil_r. rewrite firstn_all2 by lia. reflexivity.
Qed.

Lemma init_pool_creates :
  forall maxmono maxstereo (o : OpenAL_Output Dev),
    0 <= int_add maxmono maxstereo ->
    let count := Z.to_nat (Z.min (int_add maxmono maxstereo) 256) in
    let created := createVoices count (al_device o) in
    let r := init_pool maxmono maxstereo o in
    mFreeSources (final r) = fst created
    /\ outcome r =
         if (length (fst created) =? 0)%nat
         then Throw (runtime_error
                       "OpenAL exception: Could not allocate any sources")
         else Ok tt.
Proof.
  intros maxmono maxstereo o Hsum count created r.
  subst r created count.
  unfold init_pool, mFreeSources_resize.
  destruct (Z.min (int_add maxmono maxstereo) 256 <? 0) eqn:Hneg;
    [apply Z.ltb_lt in Hneg; lia|].
  set (n := Z.to_nat (Z.min (int_add maxmono maxstereo) 256)).
  unfold_monad.
  pose proof (init_sources_creates n 0
    (set_mFreeSources (resize n (mFreeSources o)) o)) as H.
  cbn [mFreeSources set_mFreeSources al_device] in H.
  rewrite length_resize in H.
  specialize (H ltac:(lia) ltac:(lia)). cbv zeta in H.
  unfold outcome, final, trace in H.
  rewrite Nat.sub_0_r in H. cbn [firstn app] in H.
  cbn [mFreeSources set_mFreeSources]. rewrite length_resize.
  destruct (init_sources n 0 _) as [[r1 o1] t1]. cbn [fst snd] in *.
  destruct H as (Hr & Hs & Hd). subst r1.
  rewrite Hs.
  destruct (length (fst (createVoices n (al_device o))) =? 0)%nat;
    cbn [fst snd]; split; auto.
Qed.

(** Voice limits whose sum is negative make the [resize] throw; no voice is
    created and the pool is left as it was. *)
Lemma init_pool_negative_limits :
  forall maxmono maxstereo (o : OpenAL_Output Dev),
    int_add maxmono maxstereo < 0 ->
    init_pool maxmono maxstereo o = (Throw length_error, o, []).
Proof.
  intros maxmono maxstereo o Hneg. unfold init_pool, mFreeSources_resize.
  assert (H : (Z.min (int_add maxmono maxstereo) 256 <? 0) = true)
    by (apply Z.ltb_lt; lia).
  rewrite H. reflexivity.
Qed.

Lemma init_open_asks_limits :
  forall devname (o : OpenAL_Output Dev) limits,
    outcome (init_open devname o) = Ok limits ->
    let dev := mDevice (final (init_open devname o)) in
    exists before d err,
      let mono := al_call (alcGetIntegerv dev ALC_MONO_SOURCES) d in
      let stereo :=
        al_call (alcGetIntegerv dev ALC_STEREO_SOURCES) (snd mono) in
      trace (init_open devname o)
      = before
        ++ [ EvAL (alcGetIntegerv dev ALC_MONO_SOURCES) (fst mono);
             EvAL (alcGetIntegerv dev ALC_STEREO_SOURCES) (fst stereo);
             EvAL (alcGetError dev) err ]
      /\ limits = (out1 (fst mono), out1 (fst stereo)).
Proof.
  intros devname o limits.
  unfold init_open, throwALCerror. unfold_monad.
  repeat (case_step;
          cbn [fst snd al_device set_al_device set_mDevice set_mContext
               mDevice mContext] in * );
    try discriminate.
  intros H. injection H as <-.
  match goal with
  | Hm : al_call (alcGetIntegerv _ ALC_MONO_SOURCES) ?d = _,
    Hs : al_call (alcGetIntegerv _ ALC_STEREO_SOURCES) _ = _,
    He : al_call (alcGetError _) _ = (?err, _) |- _ =>
      eexists; exists d, err; rewrite Hm; cbn [fst snd]; rewrite Hs;
      cbn [fst snd]
  end.
  split; [|reflexivity].
  cbn [app]. rewrite ?app_nil_r.
  match goal with
  | |- ?e1 :: ?e2 :: ?e3 :: ?e4 :: ?e5 :: ?e6 :: _ = _ =>
      instantiate (1 := [e1; e2; e3; e4; e5; e6])
  end.
  reflexivity.
Qed.

(** C7: [init], once the device is open, asks the device for its limits of
    mono and of stereo voices and creates voices one by one, up to the
    lesser of the sum of the two answers and 256; the first failure stops
    the creation, and the pool is exactly the voices created until then.
    [init] then fails if and only if the pool is empty.  The sum is the
    [int] sum, the plain sum whenever that fits; answers with a negative
    sum make [init] throw before a voice is created. *)
Theorem init_populates_voice_pool :
  forall devname (o : OpenAL_Output Dev) limits,
    outcome (init_open devname o) = Ok limits ->
    let opened := final (init_open devname o) in
    let dev := mDevice opened in
    let sum := int_add (fst limits) (snd limits) in
    let count := Z.to_nat (Z.min sum 256) in
    let created := createVoices count (al_device opened) in
    (exists before d err,
        let mono := al_call (alcGetIntegerv dev ALC_MONO_SOURCES) d in
        let stereo :=
          al_call (alcGetIntegerv dev ALC_STEREO_SOURCES) (snd mono) in
        trace (init_open devname o)
        = before
          ++ [ EvAL (alcGetIntegerv dev ALC_MONO_SOURCES) (fst mono);
               EvAL (alcGetIntegerv dev ALC_STEREO_SOURCES) (fst stereo);
               EvAL (alcGetError dev) err ]
        /\ limits = (out1 (fst mono), out1 (fst stereo)))
    /\ (- 2 ^ 31 <= fst limits + snd limits < 2 ^ 31 ->
        sum = fst limits + snd limits)
    /\ (0 <= sum ->
        mFreeSources (final (init devname o)) = fst created
        /\ (length (fst created) <= count)%nat
        /\ (count <= 256)%nat
        /\ outcome (init devname o) =
             if (length (fst created) =? 0)%nat
             then Throw (runtime_error
                           "OpenAL exception: Could not allocate any sources")
             else Ok tt)
    /\ (sum < 0 ->
        outcome (init devname o) = Throw length_error
        /\ mFreeSources (final (init devname o)) = mFreeSources opened
        /\ trace (init devname o) = trace (init_open devname o)).
Proof.
  intros devname o limits Hopen opened dev sum count created.
  subst created count sum dev opened.
  split; [exact (init_open_asks_limits devname o limits Hopen)|].
  split; [apply int_add_small|].
  pose proof (init_pool_creates (fst limits) (snd limits)
                (final (init_open devname o))) as Hpos.
  pose proof (init_pool_negative_limits (fst limits) (snd limits)
                (final (init_open devname o))) as Hneg.
  cbv zeta in Hpos.
  unfold init. unfold bind at 1 2 3 4 5.
  unfold outcome, final, trace in *.
  destruct (init_open devname o) as [[r o1] t1]. cbn [fst snd] in *.
  subst r. cbn [fst snd]. split.
  - intros Hsum. destruct (Hpos Hsum) as (Hpool & Hout).
    destruct (init_pool (fst limits) (snd limits) o1) as [[r2 o2] t2].
    cbn [fst snd] in *.
    split; [exact Hpool|]. split; [apply createVoices_length|].
    split; [lia | exact Hout].
  - intros Hsum. rewrite (Hneg Hsum). cbn [fst snd].
    split; [reflexivity|]. split; [reflexivity | apply app_nil_r].
Qed.

(** ** The voice of a failed construction *)

Lemma LoadBuffer_loop_state :
  forall {St} fuel decoder size data (s : St),
    final (LoadBuffer_loop fuel decoder size data s) = s.
Proof.
  intros St fuel. induction fuel as [|fuel IH]; intros decoder size data s.
  - reflexivity.
  - simpl. unfold_monad.
    destruct (Z.of_nat (length (fst (dec_read
                (size - Z.of_nat (length data)) decoder))) >? 0).
    + specialize (IH (snd (dec_read (size - Z.of_nat (length data)) decoder))
                     (Z.of_nat (length (data ++ fst (dec_read
                        (size - Z.of_nat (length data)) decoder))) * 2)
                     (data ++ fst (dec_read
                        (size - Z.of_nat (length data)) decoder)) s).
      unfold final in IH.
      destruct (LoadBuffer_loop fuel _ _ _ s) as [[r s'] t].
      cbn [fst snd] in *. exact IH.
    + reflexivity.
Qed.

(** A decoder with [dec_remaining] below the fuel never uses it up: more
    fuel changes nothing, the loop of [LoadBuffer] ends on an empty read. *)
Lemma LoadBuffer_loop_fuel :
  forall {St} fuel extra decoder size data (s : St),
    (dec_remaining decoder < fuel)%nat ->
    LoadBuffer_loop (fuel + extra) decoder size data s
    = LoadBuffer_loop fuel decoder size data s.
Proof.
  intros St fuel. induction fuel as [|fuel IH];
    intros extra decoder size data s Hrem; [lia|].
  change (S fuel + extra)%nat with (S (fuel + extra)).
  simpl. unfold bind.
  destruct (emit (EvDecoder (DecRead (size - Z.of_nat (length data))
              (Z.of_nat (length (fst (dec_read
                 (size - Z.of_nat (length data)) decoder)))))) s)
    as [[[u|e] s1] t1]; [|reflexivity].
  destruct (Z.of_nat (length (fst (dec_read
              (size - Z.of_nat (length data)) decoder))) >? 0) eqn:Hgot;
    [|reflexivity].
  rewrite IH; [reflexivity|].
  pose proof (dec_read_progress (size - Z.of_nat (length data)) decoder)
    as Hp.
  assert (Hne : fst (dec_read (size - Z.of_nat (length data)) decoder) <> []).
  { intros E. rewrite E in Hgot. discriminate. }
  specialize (Hp Hne). lia.
Qed.

Ltac pool_simpl :=
  cbn [fst snd mFreeSources set_mFreeSources set_al_device al_device
       push_back] in *.

(** The one-shot path: a failed load gives the voice back once. *)
Lemma playSound_load_pool :
  forall fname src (o : OpenAL_Output Dev),
    let r := playSound_load fname src o in
    mFreeSources (final r) =
      match outcome r with
      | Ok _ => mFreeSources o
      | Throw _ => mFreeSources o ++ [src]
      end.
Proof.
  intros fname src o r. subst r.
  pose proof (fun fuel d size data (o' : OpenAL_Output Dev) =>
    LoadBuffer_loop_state fuel d size data o') as HL.
  unfold final in HL.
  unfold playSound_load, playSound_catch, LoadBuffer, decoder_open,
    decoder_getInfo, getALFormat, free_source.
  unfold_monad.
  repeat first
    [ match goal with
      | |- context [LoadBuffer_loop ?fuel ?d ?size ?data ?o'] =>
          pose proof (HL fuel d size data o');
          destruct (LoadBuffer_loop fuel d size data o') as [[? ?] ?];
          cbn [fst snd] in *; subst
      end
    | case_step; pool_simpl ];
    reflexivity.
Qed.

(** The streaming path: a construction that fails gives the voice back
    once when the failure comes before or outside the constructor's own
    handler, and twice when that handler ran, which its [alDeleteBuffers]
    call shows. *)
Lemma streamSound_new_pool :
  forall addr fname src (o : OpenAL_Output Dev),
    let r := streamSound_new addr fname src o in
    mFreeSources (final r) =
      match outcome r with
      | Ok _ => mFreeSources o
      | Throw _ =>
          if existsb is_delete_buffers (trace r)
          then mFreeSources o ++ [src; src]
          else mFreeSources o ++ [src]
      end.
Proof.
  intros addr fname src o r. subst r.
  unfold streamSound_new, OpenAL_SoundStream_new, decoder_open,
    decoder_getInfo, getALFormat, free_source.
  unfold_monad.
  repeat (case_step; pool_simpl);
    try (simpl in *; discriminate);
    unfold push_back; rewrite <- ?app_assoc; reflexivity.
Qed.

Lemma OpenAL_SoundStream_new_buffers :
  forall addr src decoder (o : OpenAL_Output Dev) s,
    outcome (OpenAL_SoundStream_new addr src decoder o) = Ok s ->
    length (mBuffers s) = 6%nat /\ mIsFinished s = true
    /\ mSource s = src /\ mDecoder s = decoder.
Proof.
  intros addr src decoder o s.
  unfold OpenAL_SoundStream_new, decoder_getInfo, getALFormat, free_source.
  unfold_monad.
  repeat (case_step; cbn [fst snd]); try discriminate;
    intros H; inversion H; cbn [mBuffers mIsFinished mSource mDecoder];
    unfold array_of; rewrite length_map, length_seq; auto.
Qed.

(** * Further properties of the code *)

(** ** Frames of composed computations *)

Lemma device_only_ret {A} (a : A) :
  device_only (ret (S := OpenAL_Output Dev) a).
Proof. intros o. reflexivity. Qed.

Lemma device_only_throw {A} e :
  device_only (throw (S := OpenAL_Output Dev) (A := A) e).
Proof. intros o. reflexivity. Qed.

Lemma device_only_fail {A} msg :
  device_only (fail (S := OpenAL_Output Dev) (A := A) msg).
Proof. intros o. reflexivity. Qed.

Lemma device_only_emit e : device_only (emit (S := OpenAL_Output Dev) e).
Proof. intros o. reflexivity. Qed.

Lemma device_only_get : device_only (get (S := OpenAL_Output Dev)).
Proof. intros o. reflexivity. Qed.

Lemma device_only_al c : device_only (al c).
Proof.
  intros o. unfold al, final.
  destruct (al_call c (al_device o)) as [out d]. reflexivity.
Qed.

Lemma device_only_al_out c : device_only (al_out c).
Proof.
  intros o. unfold al_out, final.
  destruct (al_call c (al_device o)) as [out d]. reflexivity.
Qed.

Lemma device_only_bind {A B} (m : M (OpenAL_Output Dev) A)
    (f : A -> M (OpenAL_Output Dev) B) :
  device_only m -> (forall a, device_only (f a)) -> device_only (bind m f).
Proof.
  intros Hm Hf o. unfold bind, final. specialize (Hm o). unfold final in Hm.
  destruct (m o) as [[[a|e] o1] t1]; cbn [fst snd] in *; [|exact Hm].
  specialize (Hf a o1). unfold final in Hf.
  destruct (f a o1) as [[r o2] t2]; cbn [fst snd] in *. congruence.
Qed.

Lemma device_only_try_catch {A} (m : M (OpenAL_Output Dev) A) h :
  device_only m -> (forall e, device_only (h e)) ->
  device_only (try_catch m h).
Proof.
  intros Hm Hh o. unfold try_catch, final. specialize (Hm o).
  unfold final in Hm.
  destruct (m o) as [[[a|e] o1] t1]; cbn [fst snd] in *; [exact Hm|].
  specialize (Hh e o1). unfold final in Hh.
  destruct (h e o1) as [[r o2] t2]; cbn [fst snd] in *. congruence.
Qed.

Lemma device_only_LoadBuffer_loop fuel decoder size data :
  device_only (LoadBuffer_loop (St := OpenAL_Output Dev) fuel decoder size
                 data).
Proof. intros o. rewrite LoadBuffer_loop_state. reflexivity. Qed.

Ltac device_only_step :=
  first
    [ apply device_only_ret | apply device_only_throw
    | apply device_only_fail | apply device_only_emit
    | apply device_only_get | apply device_only_al
    | apply device_only_al_out
    | apply device_only_LoadBuffer_loop
    | apply device_only_bind; [|intros ?]
    | apply device_only_try_catch; [|intros ?]
    | match goal with
      | |- device_only (if ?c then _ else _) => destruct c
      | |- device_only (match ?x with _ => _ end) => destruct x
      end ].

Ltac device_only_auto :=
  repeat first
    [ device_only_step
    | progress unfold throwALerror, throwALCerror, getALFormat,
        decoder_getInfo, decoder_open, LoadBuffer, Sound_stop,
        Sound_isPlaying, Sound_update, updateListener ].

Lemma device_only_throwALerror : device_only throwALerror.
Proof. device_only_auto. Qed.

Lemma stream_frame_ret {A} (a : A) :
  stream_frame (ret (S := @OpenAL_SoundStream D * OpenAL_Output Dev) a).
Proof. intros st. split; reflexivity. Qed.

Lemma stream_frame_this :
  stream_frame (this (O := @OpenAL_SoundStream D) (X := OpenAL_Output Dev)).
Proof. intros st. split; reflexivity. Qed.

Lemma stream_frame_update_this f :
  (forall s, fixed_part (f s) = fixed_part s) ->
  stream_frame (update_this (O := @OpenAL_SoundStream D)
                  (X := OpenAL_Output Dev) f).
Proof. intros Hf st. split; [apply Hf | reflexivity]. Qed.

Lemma stream_frame_emit e :
  stream_frame (emit (S := @OpenAL_SoundStream D * OpenAL_Output Dev) e).
Proof. intros st. split; reflexivity. Qed.

Lemma stream_frame_on_output {A} (m : M (OpenAL_Output Dev) A) :
  device_only m -> stream_frame (on_output (O := @OpenAL_SoundStream D) m).
Proof.
  intros Hm st. unfold on_output, final. specialize (Hm (snd st)).
  unfold final in Hm.
  destruct (m (snd st)) as [[r o] t]; cbn [fst snd] in *.
  split; [reflexivity | exact Hm].
Qed.

Lemma stream_frame_decoder_read len :
  stream_frame (decoder_read (Dev := Dev) len).
Proof.
  intros st. unfold decoder_read, final.
  destruct (dec_read len (mDecoder (fst st))) as [data d].
  split; reflexivity.
Qed.

Lemma stream_frame_bind {A B}
    (m : M (@OpenAL_SoundStream D * OpenAL_Output Dev) A)
    (f : A -> M (@OpenAL_SoundStream D * OpenAL_Output Dev) B) :
  stream_frame m -> (forall a, stream_frame (f a)) ->
  stream_frame (bind m f).
Proof.
  intros Hm Hf st. unfold bind, final. specialize (Hm st).
  unfold final in Hm.
  destruct (m st) as [[[a|e] st1] t1]; cbn [fst snd] in *; [|exact Hm].
  specialize (Hf a st1). unfold final in Hf.
  destruct (f a st1) as [[r st2] t2]; cbn [fst snd] in *.
  destruct Hm as (Hm1 & Hm2). destruct Hf as (Hf1 & Hf2).
  split; congruence.
Qed.

Ltac stream_frame_step :=
  first
    [ apply stream_frame_ret | apply stream_frame_this
    | apply stream_frame_emit
    | apply stream_frame_decoder_read
    | apply stream_frame_update_this; intros ?; reflexivity
    | apply stream_frame_on_output; device_only_auto
    | apply stream_frame_bind; [|intros ?]
    | match goal with
      | |- stream_frame (if ?c then _ else _) => destruct c
      | |- stream_frame (match ?x with _ => _ end) => destruct x
      end ].

Lemma stream_frame_process_loop fuel processed :
  stream_frame (process_loop (Dev := Dev) (D := D) fuel processed).
Proof.
  revert processed. induction fuel as [|fuel IH]; intros processed; simpl.
  - apply stream_frame_ret.
  - apply stream_frame_bind.
    + unfold process_buffer. repeat stream_frame_step.
    + intros _. destruct (processed - 1 >? 0);
        [apply IH | apply stream_frame_ret].
Qed.

Lemma stream_frame_process : stream_frame (process (Dev := Dev) (D := D)).
Proof.
  unfold process, process_restart.
  repeat first [ apply stream_frame_process_loop | stream_frame_step ].
Qed.

Lemma stream_frame_isPlaying :
  stream_frame (isPlaying (Dev := Dev) (D := D)).
Proof. unfold isPlaying. repeat stream_frame_step. Qed.

Lemma stream_frame_update pos :
  stream_frame (update (Dev := Dev) (D := D) pos).
Proof. unfold update. repeat stream_frame_step. Qed.

Lemma stream_frame_play_fill bufs :
  stream_frame (play_fill (Dev := Dev) (D := D) bufs).
Proof.
  induction bufs as [|buf rest IH]; simpl.
  - apply stream_frame_ret.
  - repeat first [ exact IH | stream_frame_step ].
Qed.

(** ** The registry of the streaming thread *)

Lemma contains_In : forall x v, contains x v = true <-> In x v.
Proof.
  intros x v. unfold contains. rewrite existsb_exists. split.
  - intros (y & Hy & E). apply Z.eqb_eq in E. subst. exact Hy.
  - intros H. exists x. split; [exact H | apply Z.eqb_refl].
Qed.

Lemma erase_first_absent : forall x v, ~ In x v -> erase_first x v = v.
Proof.
  intros x v. induction v as [|y v IH]; intros H; simpl; [reflexivity|].
  destruct (y =? x) eqn:E.
  - apply Z.eqb_eq in E. subst. exfalso. apply H. now left.
  - rewrite IH; [reflexivity|]. intros Hin. apply H. now right.
Qed.

Lemma filter_other_absent :
  forall x v, ~ In x v -> filter (fun p => negb (p =? x)) v = v.
Proof.
  intros x v. induction v as [|y v IH]; intros H; simpl; [reflexivity|].
  destruct (y =? x) eqn:E.
  - apply Z.eqb_eq in E. subst. exfalso. apply H. now left.
  - simpl. rewrite IH; [reflexivity|]. intros Hin. apply H. now right.
Qed.

Lemma erase_first_NoDup :
  forall x v, NoDup v ->
    erase_first x v = filter (fun p => negb (p =? x)) v.
Proof.
  intros x v H. induction H as [|y v Hy Hv IH]; simpl; [reflexivity|].
  destruct (y =? x) eqn:E; simpl.
  - apply Z.eqb_eq in E. subst. symmetry. apply filter_other_absent, Hy.
  - rewrite IH. reflexivity.
Qed.

Lemma erase_first_push_back :
  forall x v, ~ In x v -> erase_first x (push_back x v) = v.
Proof.
  intros x v. unfold push_back.
  induction v as [|y v IH]; intros H; simpl.
  - rewrite Z.eqb_refl. reflexivity.
  - destruct (y =? x) eqn:E.
    + apply Z.eqb_eq in E. subst. exfalso. apply H. now left.
    + rewrite IH; [reflexivity|]. intros Hin. apply H. now right.
Qed.

Lemma set_mStreams_same :
  forall o : OpenAL_Output Dev, set_mStreams (mStreams o) o = o.
Proof. intros []. reflexivity. Qed.

Lemma NoDup_push_back :
  forall (x : Z) v, NoDup v -> ~ In x v -> NoDup (push_back x v).
Proof.
  intros x v Hv Hx. unfold push_back.
  apply NoDup_app; [exact Hv | repeat constructor; intros [] | ].
  intros y Hy [E|[]]. subst. contradiction.
Qed.

(** X1: [StreamThread::add] registers a stream once: afterwards the stream is
    in the registry; a stream already there is not added again, so adding
    twice is adding once, and a registry without duplicates stays without; a
    new stream goes to the back. Nothing else of the output changes and no
    library call is made. *)
Theorem StreamThread_add_registers_once :
  forall (stream : Z) (o : OpenAL_Output Dev),
    let r := StreamThread_add stream o in
    outcome r = Ok tt /\ trace r = []
    /\ In stream (mStreams (final r))
    /\ (In stream (mStreams o) -> final r = o)
    /\ (~ In stream (mStreams o) ->
        final r = set_mStreams (mStreams o ++ [stream]) o)
    /\ (NoDup (mStreams o) -> NoDup (mStreams (final r)))
    /\ final (StreamThread_add stream (final r)) = final r.
Proof.
  intros stream o r. subst r. unfold StreamThread_add. unfold_monad.
  assert (Hin : forall o' : OpenAL_Output Dev,
             In stream (mStreams
               (if contains stream (mStreams o') then o'
                else set_mStreams (push_back stream (mStreams o')) o'))).
  { intros o'. destruct (contains stream (mStreams o')) eqn:E.
    - apply contains_In, E.
    - destruct o'. simpl. unfold push_back. apply in_or_app. right.
      now left. }
  split; [reflexivity|]. split; [reflexivity|]. split; [apply Hin|].
  split; [|split; [|split]].
  - intros H. apply contains_In in H. rewrite H. reflexivity.
  - intros H. destruct (contains stream (mStreams o)) eqn:E.
    + apply contains_In in E. contradiction.
    + reflexivity.
  - intros Hnd. destruct (contains stream (mStreams o)) eqn:E;
      [exact Hnd|].
    destruct o. simpl in *. apply NoDup_push_back; [exact Hnd|].
    intros Hc. apply contains_In in Hc. congruence.
  - specialize (Hin o). apply contains_In in Hin. rewrite Hin. reflexivity.
Qed.

(** X2: [StreamThread::remove] on a registry without duplicates leaves the
    stream out of it and all other streams in, in their order; removing a
    stream that is not registered changes nothing, and removing a stream right
    after adding it gives the registry back. No library call is made. *)
Theorem StreamThread_remove_unregisters :
  forall (stream : Z) (o : OpenAL_Output Dev),
    let r := StreamThread_remove stream o in
    outcome r = Ok tt /\ trace r = []
    /\ (~ In stream (mStreams o) -> final r = o)
    /\ (NoDup (mStreams o) ->
        ~ In stream (mStreams (final r))
        /\ final r =
             set_mStreams
               (filter (fun p => negb (p =? stream)) (mStreams o)) o)
    /\ (~ In stream (mStreams o) ->
        final (StreamThread_remove stream
                 (final (StreamThread_add stream o))) = o).
Proof.
  intros stream o r. subst r. unfold StreamThread_remove, StreamThread_add.
  unfold_monad.
  split; [reflexivity|]. split; [reflexivity|]. split; [|split].
  - intros H. rewrite erase_first_absent by exact H.
    apply set_mStreams_same.
  - intros Hnd. rewrite erase_first_NoDup by exact Hnd. split.
    + destruct o. simpl. intros Hin. apply filter_In in Hin.
      destruct Hin as (_ & Hne). rewrite Z.eqb_refl in Hne. discriminate.
    + reflexivity.
  - intros H. destruct (contains stream (mStreams o)) eqn:E.
    + apply contains_In in E. contradiction.
    + destruct o. simpl in *. rewrite erase_first_push_back by exact H.
      reflexivity.
Qed.

(** ** What [process] leaves alone *)

(** X3: The methods the caller and the thread run on a playing stream,
    [process], [isPlaying] and [update], change nothing of the output object
    but the state of the library (the voice pool, the registry, the device and
    context handles stay), and nothing of the stream but its decoder and its
    finished flag. *)
Theorem process_changes_decoder_and_flag_only :
  forall (st : OpenAL_SoundStream * OpenAL_Output Dev) (pos : vec3),
    (fixed_part (fst (final (process st))) = fixed_part (fst st)
     /\ output_fields (snd (final (process st))) = output_fields (snd st))
    /\ final (isPlaying st) = (fst st, snd (final (isPlaying st)))
    /\ output_fields (snd (final (isPlaying st))) = output_fields (snd st)
    /\ final (update pos st) = (fst st, snd (final (update pos st)))
    /\ output_fields (snd (final (update pos st))) = output_fields (snd st).
Proof.
  intros st pos. split; [apply stream_frame_process|].
  split; [|split; [apply stream_frame_isPlaying|split;
                   [|apply stream_frame_update]]].
  - destruct st as [s o]. unfold isPlaying. unfold_monad.
    repeat (case_step; cbn [fst snd]); reflexivity.
  - destruct st as [s o]. unfold update. unfold_monad.
    repeat (case_step; cbn [fst snd]); reflexivity.
Qed.

(** ** One sweep of the streaming thread *)

Lemma process_result_flag :
  forall (st : OpenAL_SoundStream * OpenAL_Output Dev) (b : bool),
    outcome (process st) = Ok b ->
    b = negb (mIsFinished (fst (final (process st)))).
Proof.
  intros [s o] b. unfold process, process_restart. unfold_monad.
  repeat (case_step; cbn [fst snd]; try discriminate);
    intros H; inversion H; reflexivity.
Qed.

Lemma nth_error_at_length :
  forall {A} (pre suf : list A),
    nth_error (pre ++ suf) (length pre) = nth_error suf 0.
Proof.
  intros A pre suf. rewrite nth_error_app2 by lia.
  rewrite Nat.sub_diag. reflexivity.
Qed.

Lemma erase_at_length :
  forall {A} (pre : list A) x rest,
    erase_at (length pre) (pre ++ x :: rest) = pre ++ rest.
Proof.
  intros A pre x rest. unfold erase_at.
  induction pre as [|a pre IH]; simpl; [reflexivity|].
  f_equal. exact IH.
Qed.

Lemma sweep_from_spec :
  forall fuel pre suf (h : Objects) (o : OpenAL_Output Dev),
    mStreams o = pre ++ suf ->
    (length suf <= fuel)%nat ->
    NoDup suf ->
    let r := StreamThread_sweep_from fuel (length pre) (h, o) in
    outcome r = Ok tt ->
    output_fields (snd (final r))
      = (mDevice o, mContext o, mFreeSources o,
         pre ++ filter (unfinished (fst (final r))) suf)
    /\ (forall q, ~ In q suf -> fst (final r) q = h q)
    /\ (forall q, mIsFinished (h q) = true -> fst (final r) q = h q)
    /\ (forall q, fixed_part (fst (final r) q) = fixed_part (h q)).
Proof.
  induction fuel as [|fuel IH]; intros pre suf h o Hreg Hlen Hnd r Hok;
    subst r.
  - destruct suf; [|simpl in Hlen; lia].
    unfold StreamThread_sweep_from, ret, final, output_fields.
    cbn [fst snd filter]. rewrite Hreg. auto.
  - revert Hok. simpl StreamThread_sweep_from.
    unfold bind, get, modify, at_object, outcome, final. cbn [fst snd].
    rewrite Hreg, nth_error_at_length.
    destruct suf as [|p rest]; cbn [nth_error].
    + intros _. unfold ret, output_fields.
      cbn [fst snd filter]. rewrite Hreg. auto.
    + pose proof (process_result_flag (h p, o)) as Hflag.
      pose proof (stream_frame_process (h p, o)) as (Hfix & Hout).
      pose proof (process_finished (h p) o) as Hsame.
      unfold outcome, final in Hflag, Hfix, Hout, Hsame.
      cbn [fst snd].
      destruct (process (h p, o)) as [[[b|e] [s' o1]] t].
      2: { cbn [fst snd]. discriminate. }
      cbn [fst snd] in *.
      specialize (Hflag b eq_refl).
      inversion Hnd as [|p' rest' Hp Hrest]; subst p' rest'.
      assert (Hreg1 : mStreams o1 = pre ++ p :: rest).
      { unfold output_fields in Hout. inversion Hout. congruence. }
      assert (Hfields : (mDevice o1, mContext o1, mFreeSources o1)
                        = (mDevice o, mContext o, mFreeSources o)).
      { unfold output_fields in Hout. inversion Hout. congruence. }
      destruct b; cbn [negb].
      * (* the stream stays: the iterator moves on *)
        symmetry in Hflag. apply negb_true_iff in Hflag.
        specialize (IH (pre ++ [p]) rest (set_object p s' h) o1).
        rewrite length_app in IH. simpl length in IH.
        replace (length pre + 1)%nat with (S (length pre)) in IH by lia.
        rewrite <- app_assoc in IH. simpl app in IH.
        specialize (IH Hreg1 ltac:(simpl in Hlen; lia) Hrest).
        cbv zeta in IH. unfold outcome, final in IH |- *.
        destruct (StreamThread_sweep_from fuel (S (length pre))
                    (set_object p s' h, o1)) as [[r2 [h2 o2]] t2].
        cbn [fst snd] in *. intros Hok. specialize (IH Hok).
        destruct IH as (Ho & Hout2 & Hfin2 & Hfix2).
        assert (Hp2 : h2 p = s').
        { rewrite (Hout2 p Hp). unfold set_object.
          rewrite Z.eqb_refl. reflexivity. }
        split; [|split; [|split]].
        -- rewrite Ho. inversion Hfields. cbn [filter].
           unfold unfinished at 2. rewrite Hp2, Hflag. cbn [negb].
           rewrite <- app_assoc. reflexivity.
        -- intros q Hq. rewrite Hout2 by (intros Hc; apply Hq; now right).
           unfold set_object. destruct (q =? p) eqn:E; [|reflexivity].
           apply Z.eqb_eq in E. subst. exfalso. apply Hq. now left.
        -- intros q Hq. unfold set_object in Hfin2.
           specialize (Hfin2 q). destruct (q =? p) eqn:E.
           ++ apply Z.eqb_eq in E. subst q. rewrite Hp2.
              destruct (Hsame Hq) as (Hs & _). exact Hs.
           ++ apply Hfin2, Hq.
        -- intros q. rewrite Hfix2. unfold set_object.
           destruct (q =? p) eqn:E; [|reflexivity].
           apply Z.eqb_eq in E. subst q. exact Hfix.
      * (* the stream is finished: it is erased under the iterator *)
        symmetry in Hflag. apply negb_false_iff in Hflag.
        cbn [negb fst snd]. rewrite Hreg1, erase_at_length.
        specialize (IH pre rest (set_object p s' h)
                      (set_mStreams (pre ++ rest) o1)).
        specialize (IH ltac:(destruct o1; reflexivity)
                      ltac:(simpl in Hlen; lia) Hrest).
        cbv zeta in IH. unfold outcome, final in IH |- *.
        destruct (StreamThread_sweep_from fuel (length pre)
                    (set_object p s' h, set_mStreams (pre ++ rest) o1))
          as [[r2 [h2 o2]] t2].
        cbn [fst snd] in *. intros Hok. specialize (IH Hok).
        destruct IH as (Ho & Hout2 & Hfin2 & Hfix2).
        assert (Hp2 : h2 p = s').
        { rewrite (Hout2 p Hp). unfold set_object.
          rewrite Z.eqb_refl. reflexivity. }
        split; [|split; [|split]].
        -- rewrite Ho. inversion Hfields. destruct o1. cbn [filter].
           unfold unfinished at 2. rewrite Hp2, Hflag. reflexivity.
        -- intros q Hq. rewrite Hout2 by (intros Hc; apply Hq; now right).
           unfold set_object. destruct (q =? p) eqn:E; [|reflexivity].
           apply Z.eqb_eq in E. subst. exfalso. apply Hq. now left.
        -- intros q Hq. unfold set_object in Hfin2.
           specialize (Hfin2 q). destruct (q =? p) eqn:E.
           ++ apply Z.eqb_eq in E. subst q. rewrite Hp2.
              destruct (Hsame Hq) as (Hs & _). exact Hs.
           ++ apply Hfin2, Hq.
        -- intros q. rewrite Hfix2. unfold set_object.
           destruct (q =? p) eqn:E; [|reflexivity].
           apply Z.eqb_eq in E. subst q. exact Hfix.
Qed.

(** X4: A sweep of the streaming thread that returns, over a registry without
    duplicates, leaves registered exactly the streams that are not finished
    after it, in their order. Streams that are not registered, and registered
    streams that were finished already, are left as they were; of the others
    only the decoder and the finished flag change; the voice pool and the
    device and context handles stay. *)
Theorem StreamThread_sweep_keeps_unfinished :
  forall (h : Objects) (o : OpenAL_Output Dev),
    NoDup (mStreams o) ->
    let r := StreamThread_sweep (h, o) in
    outcome r = Ok tt ->
    output_fields (snd (final r))
      = (mDevice o, mContext o, mFreeSources o,
         filter (unfinished (fst (final r))) (mStreams o))
    /\ (forall q, ~ In q (mStreams o) -> fst (final r) q = h q)
    /\ (forall q, mIsFinished (h q) = true -> fst (final r) q = h q)
    /\ (forall q, fixed_part (fst (final r) q) = fixed_part (h q)).
Proof.
  intros h o Hnd r. subst r.
  assert (E : outcome (StreamThread_sweep (h, o))
              = outcome (StreamThread_sweep_from
                           (length (mStreams o)) 0 (h, o))
              /\ final (StreamThread_sweep (h, o))
                 = final (StreamThread_sweep_from
                            (length (mStreams o)) 0 (h, o))).
  { unfold StreamThread_sweep, bind, get, outcome, final. cbn [fst snd].
    destruct (StreamThread_sweep_from (length (mStreams o)) 0 (h, o))
      as [[r2 st2] t2]. split; reflexivity. }
  destruct E as (E1 & E2). rewrite E1, E2.
  exact (sweep_from_spec (length (mStreams o)) [] (mStreams o) h o
           eq_refl (Nat.le_refl _) Hnd).
Qed.

(** ** What [process] takes off and puts on the voice *)

Lemma count_events_app :
  forall kind t1 t2,
    count_events kind (t1 ++ t2)
    = (count_events kind t1 + count_events kind t2)%nat.
Proof.
  intros. unfold count_events. rewrite filter_app, length_app. reflexivity.
Qed.

Lemma count_events_cons :
  forall kind e t,
    count_events kind (e :: t)
    = ((if kind e then 1 else 0) + count_events kind t)%nat.
Proof.
  intros. unfold count_events. simpl. destruct (kind e); reflexivity.
Qed.

Lemma count_events_nil : forall kind, count_events kind [] = 0%nat.
Proof. reflexivity. Qed.

Lemma quiet_counts :
  forall t, Forall quiet t ->
    count_events is_read t = 0%nat
    /\ count_events is_queue t = 0%nat
    /\ count_events is_unqueue t = 0%nat.
Proof.
  intros t H. induction H as [|e t (H1 & H2 & H3) Ht IH].
  - repeat split.
  - rewrite !count_events_cons, H1, H2, H3. exact IH.
Qed.

Lemma process_buffer_counts :
  forall (st : OpenAL_SoundStream * OpenAL_Output Dev),
    let t := trace (process_buffer st) in
    count_events is_unqueue t = 1%nat
    /\ (count_events is_queue t <= count_events is_read t)%nat
    /\ (count_events is_read t <= 1)%nat
    /\ (mIsFinished (fst st) = true -> count_events is_read t = 0%nat).
Proof.
  intros [s o]. unfold process_buffer, decoder_read. unfold_monad.
  repeat (case_step; cbn [fst snd]);
    unfold count_events; simpl; repeat split; try lia;
    intros H; congruence.
Qed.

Lemma process_loop_counts :
  forall fuel processed (st : OpenAL_SoundStream * OpenAL_Output Dev),
    let t := trace (process_loop fuel processed st) in
    (count_events is_queue t <= count_events is_read t)%nat
    /\ (count_events is_read t <= count_events is_unqueue t)%nat.
Proof.
  induction fuel as [|fuel IH]; intros processed st; cbv zeta.
  - split; reflexivity.
  - simpl. unfold bind.
    pose proof (process_buffer_counts st) as (H1 & H2 & H3 & _).
    destruct (process_buffer_unqueues_one st) as (Hr & _).
    unfold outcome, trace in *.
    destruct (process_buffer st) as [[r1 s1] t1]. cbn [fst snd] in *.
    subst r1.
    destruct (processed - 1 >? 0).
    + specialize (IH (processed - 1) s1). cbv zeta in IH.
      unfold trace in IH.
      destruct (process_loop fuel (processed - 1) s1) as [[r2 s2] t2].
      cbn [fst snd] in *. rewrite !count_events_app. lia.
    + cbn [ret fst snd]. rewrite app_nil_r. lia.
Qed.

Lemma process_restart_quiet :
  forall state (st : OpenAL_SoundStream * OpenAL_Output Dev),
    Forall quiet (trace (process_restart (Dev := Dev) (D := D) state st)).
Proof.
  intros state st. apply (emits_process_restart quiet state).
  intros c out H1 H2 H3. repeat split; assumption.
Qed.

(** X5: In every call of [process] the calls that queue a buffer are at most
    as many as the reads of the decoder, and these at most as many as the
    calls that take a buffer off the voice. A call that returns has made as
    many unqueue calls as the device reported finished buffers, and a call
    on a finished sound reads nothing. These are counts of the calls made:
    [process] does not look whether an unqueue call gave a buffer before it
    fills and queues one. *)
Theorem process_requeues_what_it_unqueued :
  forall (s : OpenAL_SoundStream) (o : OpenAL_Output Dev),
    let t := trace (process (s, o)) in
    (count_events is_queue t <= count_events is_read t)%nat
    /\ (count_events is_read t <= count_events is_unqueue t)%nat
    /\ (forall b, outcome (process (s, o)) = Ok b ->
          count_events is_unqueue t = Z.to_nat (processed_reported s o))
    /\ (mIsFinished s = true -> count_events is_read t = 0%nat).
Proof.
  intros s o t. subst t.
  assert (Hfin : mIsFinished s = true ->
                 count_events is_read (trace (process (s, o))) = 0%nat).
  { intros H. destruct (process_finished s o H) as (_ & Hd).
    unfold count_events.
    induction Hd as [|e t (H1 & _) Ht IH]; [reflexivity|].
    simpl. rewrite H1. exact IH. }
  cut ((count_events is_queue (trace (process (s, o)))
        <= count_events is_read (trace (process (s, o))))%nat
       /\ (count_events is_read (trace (process (s, o)))
           <= count_events is_unqueue (trace (process (s, o))))%nat
       /\ (forall b, outcome (process (s, o)) = Ok b ->
             count_events is_unqueue (trace (process (s, o)))
             = Z.to_nat (processed_reported s o))).
  { intros (H1 & H2 & H3). auto. }
  clear Hfin.
  pose proof (fun n p o' => process_loop_counts n p (s, o')) as HC.
  pose proof (fun n p o' => process_loop_unqueues n p (s, o')) as HU.
  pose proof (fun state st =>
         quiet_counts _ (process_restart_quiet state st)) as HR.
  cbv zeta in HC. unfold trace in HC, HU, HR.
  unfold processed_reported, process. unfold_monad.
  repeat first
    [ match goal with
      | |- context [process_loop ?n ?p (?s', ?o')] =>
          pose proof (HC n p o'); pose proof (HU n p o');
          destruct (process_loop n p (s', o')) as [[? [? ?]] ?];
          cbn [fst snd] in *
      | |- context [process_restart ?state ?st] =>
          pose proof (HR state st);
          destruct (process_restart state st) as [[? [? ?]] ?];
          cbn [fst snd] in *
      end
    | case_step; cbn [fst snd] in * ].
  all: clear HC HU HR.
  all: rewrite ?app_nil_r, ?count_events_app, ?count_events_cons,
         ?count_events_nil; cbn [is_read is_queue is_unqueue].
  all: repeat match goal with
       | H : _ /\ _ |- _ => destruct H
       | H : (_ >? _) = true |- _ =>
           rewrite Z.gtb_ltb in H; apply Z.ltb_lt in H
       | H : (_ >? _) = false |- _ =>
           rewrite Z.gtb_ltb in H; apply Z.ltb_ge in H
       end.
  all: repeat match goal with
       | H : 0 < ?p -> _ -> _ |- _ =>
           first [ specialize (H ltac:(assumption) ltac:(lia)) | clear H ]
       end.
  all: unfold count_events in *.
  all: repeat split; try (intros ? ?; discriminate); try intros ? _.
  all: cbn [al_device set_al_device] in *.
  all: repeat match goal with
       | H : al_call ?c ?d = _ |- context [al_call ?c ?d] =>
           rewrite H; cbn [fst snd]
       end.
  all: lia.
Qed.

(** ** Starting and stopping a stream *)

Lemma erase_first_In_other :
  forall (x q : Z) v, q <> x -> (In q (erase_first x v) <-> In q v).
Proof.
  intros x q v Hq. induction v as [|y v IH]; simpl; [tauto|].
  destruct (y =? x) eqn:E.
  - apply Z.eqb_eq in E. subst y. split; [tauto|]. intros [H|H]; [|exact H].
    congruence.
  - simpl. rewrite IH. tauto.
Qed.

Lemma erase_first_gone :
  forall (x : Z) v, NoDup v -> ~ In x (erase_first x v).
Proof.
  intros x v Hnd. rewrite erase_first_NoDup by exact Hnd.
  intros Hin. apply filter_In in Hin. destruct Hin as (_ & Hne).
  rewrite Z.eqb_refl in Hne. discriminate.
Qed.

Lemma erase_first_keeps_NoDup :
  forall (x : Z) v, NoDup v -> NoDup (erase_first x v).
Proof.
  intros x v Hnd. rewrite erase_first_NoDup by exact Hnd.
  apply NoDup_filter, Hnd.
Qed.

Lemma added_In :
  forall (x q : Z) v,
    In q (if contains x v then v else push_back x v) <-> q = x \/ In q v.
Proof.
  intros x q v. destruct (contains x v) eqn:E.
  - apply contains_In in E. split; [tauto|]. intros [->|H]; assumption.
  - unfold push_back. rewrite in_app_iff. simpl. split.
    + intros [H|[H|[]]]; [right; exact H | left; symmetry; exact H].
    + intros [->|H]; [right; left; reflexivity | left; exact H].
Qed.

Lemma added_NoDup :
  forall (x : Z) v,
    NoDup v -> NoDup (if contains x v then v else push_back x v).
Proof.
  intros x v Hnd. destruct (contains x v) eqn:E; [exact Hnd|].
  apply NoDup_push_back; [exact Hnd|].
  intros Hc. apply contains_In in Hc. congruence.
Qed.

Lemma mStreams_added :
  forall (x : Z) (o : OpenAL_Output Dev),
    mStreams (if contains x (mStreams o) then o
              else set_mStreams (push_back x (mStreams o)) o)
    = if contains x (mStreams o) then mStreams o
      else push_back x (mStreams o).
Proof. intros x o. destruct (contains x (mStreams o)); reflexivity. Qed.

Lemma pool_added :
  forall (x : Z) (o : OpenAL_Output Dev),
    let o' := if contains x (mStreams o) then o
              else set_mStreams (push_back x (mStreams o)) o in
    mDevice o' = mDevice o /\ mContext o' = mContext o
    /\ mFreeSources o' = mFreeSources o.
Proof.
  intros x o. cbv zeta. destruct (contains x (mStreams o)); repeat split.
Qed.

(** X6: [play] touches neither the voice pool, nor the handles, nor the fixed
    part of the stream. When it returns, the stream is not finished and is
    registered with the thread, once, beside the streams that were; when it
    throws, the exception is a device error, and the finished flag and the
    registry are as before: a failed [play] of a stopped stream leaves it
    stopped. *)
Theorem play_registers_the_stream :
  forall (s : OpenAL_SoundStream) (o : OpenAL_Output Dev),
    let r := play (s, o) in
    let s' := fst (final r) in
    let o' := snd (final r) in
    fixed_part s' = fixed_part s
    /\ (mDevice o', mContext o', mFreeSources o')
       = (mDevice o, mContext o, mFreeSources o)
    /\ (outcome r = Ok tt ->
        mIsFinished s' = false
        /\ (forall q, In q (mStreams o') <-> q = self s \/ In q (mStreams o))
        /\ (NoDup (mStreams o) -> NoDup (mStreams o')))
    /\ (forall e, outcome r = Throw e ->
        mIsFinished s' = mIsFinished s
        /\ mStreams o' = mStreams o
        /\ exists err, e = runtime_error
                             ("OpenAL exception: " ++ alGetString err)).
Proof.
  intros s o r s' o'. subst r s' o'.
  pose proof (fun o' => play_fill_reads (mBuffers s) s o') as HF.
  pose proof (fun st => proj2 (stream_frame_play_fill (mBuffers s) st)) as HO.
  cbv zeta in HF. unfold outcome, final, trace in HF, HO.
  unfold play, StreamThread_add. unfold_monad.
  repeat first
    [ match goal with
      | |- context [play_fill ?bufs (?s', ?o')] =>
          destruct (HF o') as (? & ? & _);
          pose proof (HO (s', o'));
          destruct (play_fill bufs (s', o')) as [[? [? ?]] ?];
          cbn [fst snd] in *; subst
      end
    | case_step; cbn [fst snd] in * ].
  all: clear HF HO.
  all: destruct s as [self0 src bufs fmt rate size dec fin], o.
  all: unfold output_fields in *.
  all: cbn -[contains push_back String.append] in *.
  all: try match goal with
       | H : (_, _, _, _) = _ |- _ => injection H as Hd Hc Hp Hs
       end.
  all: split; [reflexivity|]; split; [congruence|]; split.
  all: try (intros ?; discriminate).
  - intros _. split; [reflexivity|]. split.
    + intros q. pose proof (added_In self0 q (mStreams o2)) as HA.
      rewrite Heqb2 in HA. rewrite Hs in *. exact HA.
    + intros Hnd. rewrite Hs. exact Hnd.
  - intros _. split; [reflexivity|]. split.
    + intros q. pose proof (added_In self0 q (mStreams o2)) as HA.
      rewrite Heqb2 in HA. rewrite Hs in *. exact HA.
    + intros Hnd. pose proof (added_NoDup self0 (mStreams o2)) as HA.
      rewrite Heqb2 in HA. rewrite Hs in *. apply HA, Hnd.
  - intros e He. injection He as <-. split; [reflexivity|].
    split; [congruence|]. eexists. reflexivity.
  - intros e He. injection He as <-. split; [reflexivity|].
    split; [congruence|]. eexists. reflexivity.
  - intros e He. injection He as <-. split; [reflexivity|].
    split; [congruence|]. eexists. reflexivity.
Qed.

Lemma stop_shape :
  forall (s : OpenAL_SoundStream) (o : OpenAL_Output Dev),
    let r := stop (s, o) in
    exists d,
      snd (final r)
      = set_al_device d
          (set_mStreams (erase_first (self s) (mStreams o)) o)
      /\ (outcome r = Ok tt ->
          fst (final r)
          = set_mDecoder (dec_rewind (mDecoder s)) (set_mIsFinished true s))
      /\ (forall e, outcome r = Throw e ->
          fst (final r) = set_mIsFinished true s
          /\ exists err, e = runtime_error
                               ("OpenAL exception: " ++ alGetString err)).
Proof.
  intros s o. cbv zeta.
  unfold stop, decoder_rewind, StreamThread_remove, update_this.
  unfold_monad.
  repeat (case_step; cbn [fst snd] in * ).
  all: eexists; split; [reflexivity|]; split.
  all: try discriminate.
  - intros _. reflexivity.
  - intros e He. injection He as <-. split; [reflexivity|].
    eexists. reflexivity.
Qed.

(** X7: [stop] takes the stream out of the registry and marks it finished
    before it talks to the device, so both hold however the call ends; the
    voice pool, the handles and the fixed part of the stream stay. A [stop]
    that throws has thrown a device error and has not rewound the decoder. *)
Theorem stop_always_unregisters :
  forall (s : OpenAL_SoundStream) (o : OpenAL_Output Dev),
    let r := stop (s, o) in
    let s' := fst (final r) in
    let o' := snd (final r) in
    fixed_part s' = fixed_part s
    /\ (mDevice o', mContext o', mFreeSources o')
       = (mDevice o, mContext o, mFreeSources o)
    /\ mIsFinished s' = true
    /\ (forall q, q <> self s -> (In q (mStreams o') <-> In q (mStreams o)))
    /\ (NoDup (mStreams o) ->
        ~ In (self s) (mStreams o') /\ NoDup (mStreams o'))
    /\ (forall e, outcome r = Throw e ->
        mDecoder s' = mDecoder s
        /\ exists err, e = runtime_error
                             ("OpenAL exception: " ++ alGetString err)).
Proof.
  intros s o r s' o'. subst r s' o'.
  destruct (stop_shape s o) as (d & Ho & Hok & Hthrow).
  rewrite Ho.
  assert (Hs : fst (final (stop (s, o)))
               = set_mDecoder (dec_rewind (mDecoder s))
                   (set_mIsFinished true s)
               \/ fst (final (stop (s, o))) = set_mIsFinished true s).
  { destruct (outcome (stop (s, o))) as [[]|e] eqn:E.
    - left. apply Hok. reflexivity.
    - right. apply (Hthrow e). reflexivity. }
  split; [|split; [|split; [|split; [|split]]]].
  - destruct Hs as [-> | ->]; reflexivity.
  - destruct o; reflexivity.
  - destruct Hs as [-> | ->]; reflexivity.
  - intros q Hq. destruct o; cbn. apply erase_first_In_other, Hq.
  - intros Hnd. destruct o; cbn in *. split.
    + apply erase_first_gone, Hnd.
    + apply erase_first_keeps_NoDup, Hnd.
  - intros e He. destruct (Hthrow e He) as (-> & Herr).
    split; [reflexivity | exact Herr].
Qed.

Lemma play_reads :
  forall (s : OpenAL_SoundStream) (o : OpenAL_Output Dev),
    outcome (play (s, o)) = Ok tt ->
    buffer_data (trace (play (s, o)))
    = fst (read_chunks (length (mBuffers s)) (mBufferSize s) (mDecoder s)).
Proof.
  intros s o.
  pose proof (fun o' => play_fill_reads (mBuffers s) s o') as HF.
  cbv zeta in HF. unfold outcome, final, trace in HF.
  unfold play, StreamThread_add. unfold_monad.
  repeat first
    [ match goal with
      | |- context [play_fill ?bufs (?s', ?o')] =>
          destruct (HF o') as (? & ? & ?);
          destruct (play_fill bufs (s', o')) as [[? [? ?]] ?];
          cbn [fst snd] in *; subst
      end
    | case_step; cbn [fst snd] in * ]; try discriminate.
  all: intros _.
  all: rewrite !buffer_data_app; cbn [buffer_data flat_map buffer_data_of app].
  all: rewrite app_nil_r; assumption.
Qed.

Lemma play_registry :
  forall (s : OpenAL_SoundStream) (o : OpenAL_Output Dev),
    outcome (play (s, o)) = Ok tt ->
    mStreams (snd (final (play (s, o))))
    = (if contains (self s) (mStreams o) then mStreams o
       else push_back (self s) (mStreams o))
    /\ self (fst (final (play (s, o)))) = self s.
Proof.
  intros s o.
  pose proof (fun st => proj2 (stream_frame_play_fill (mBuffers s) st)) as HO.
  pose proof (fun st => proj1 (stream_frame_play_fill (mBuffers s) st)) as HS.
  unfold outcome, final, trace in HO, HS.
  unfold play, StreamThread_add. unfold_monad.
  repeat first
    [ match goal with
      | |- context [play_fill ?bufs (?s', ?o')] =>
          pose proof (HO (s', o')); pose proof (HS (s', o'));
          destruct (play_fill bufs (s', o')) as [[? [? ?]] ?];
          cbn [fst snd] in *
      end
    | case_step; cbn [fst snd] in * ]; try discriminate.
  all: clear HO HS; intros _.
  all: destruct s as [self0 src bufs fmt rate size dec fin], o.
  all: unfold output_fields, fixed_part in *.
  all: cbn -[contains push_back] in *.
  all: match goal with
       | H : (_, _, _, _, _, _) = _ |- _ => injection H as Hself _ _ _ _ _
       end.
  all: match goal with
       | H : (_, _, _, _) = _ |- _ => injection H as Hd Hc Hp Hs
       end.
  all: rewrite Hs in *.
  all: try congruence.
  all: split; [reflexivity | assumption].
Qed.

(** X8: [stop] followed by [play] starts the sound over: when both return, the
    data given to the device is one buffer size per ring buffer read from the
    start of the rewound decoder, the stream is not finished and is registered
    again. [play] followed by [stop] gives back the registry of a stream that
    was not registered. *)
Theorem stop_then_play_starts_over :
  forall (s : OpenAL_SoundStream) (o : OpenAL_Output Dev),
    (outcome (stop (s, o)) = Ok tt ->
     outcome (play (final (stop (s, o)))) = Ok tt ->
     let r := play (final (stop (s, o))) in
     buffer_data (trace r)
     = fst (read_chunks (length (mBuffers s)) (mBufferSize s)
              (dec_rewind (mDecoder s)))
     /\ In (self s) (mStreams (snd (final r))))
    /\ (~ In (self s) (mStreams o) ->
        outcome (play (s, o)) = Ok tt ->
        mStreams (snd (final (stop (final (play (s, o))))))
        = mStreams o).
Proof.
  intros s o. split.
  - intros Hstop Hplay r. subst r.
    destruct (stop_shape s o) as (d & Ho & Hok & _).
    specialize (Hok Hstop).
    destruct (final (stop (s, o))) as [s1 o1] eqn:E. cbn [fst snd] in *.
    subst s1. split.
    + rewrite (play_reads _ _ Hplay). destruct s; reflexivity.
    + destruct (play_registry _ _ Hplay) as (Hreg & _). rewrite Hreg.
      apply added_In. left. destruct s; reflexivity.
  - intros Hout Hplay.
    destruct (play_registry _ _ Hplay) as (Hreg & Hself).
    destruct (final (play (s, o))) as [s1 o1] eqn:E. cbn [fst snd] in *.
    destruct (stop_shape s1 o1) as (d & Ho & _). rewrite Ho.
    destruct o1; cbn in *. rewrite Hreg, Hself.
    destruct (contains (self s) (mStreams o)) eqn:Ec.
    + apply contains_In in Ec. contradiction.
    + apply erase_first_push_back, Hout.
Qed.

(** ** The voice pool *)

Lemma pop_back_back :
  forall v : list ALuint, v <> [] -> push_back (back v) (pop_back v) = v.
Proof.
  intros v Hv. unfold push_back, back, pop_back. symmetry.
  apply app_removelast_last, Hv.
Qed.

Lemma back_push_back :
  forall (x : ALuint) v,
    back (push_back x v) = x /\ pop_back (push_back x v) = v.
Proof.
  intros x v. unfold back, push_back, pop_back. split.
  - apply last_last.
  - apply removelast_last.
Qed.

Lemma length_zero_nil :
  forall {A} (v : list A), (length v =? 0)%nat = true <-> v = [].
Proof.
  intros A v. rewrite Nat.eqb_eq. split.
  - apply length_zero_iff_nil.
  - intros ->. reflexivity.
Qed.

Lemma take_source_spec :
  forall o : OpenAL_Output Dev,
    let r := take_source o in
    trace r = []
    /\ (mFreeSources o = [] ->
        outcome r = Throw (runtime_error "OpenAL exception: No free sources")
        /\ final r = o)
    /\ (mFreeSources o <> [] ->
        outcome r = Ok (back (mFreeSources o))
        /\ final r = set_mFreeSources (pop_back (mFreeSources o)) o).
Proof.
  intros o. cbv zeta. unfold take_source. unfold_monad.
  destruct (length (mFreeSources o) =? 0)%nat eqn:E.
  - apply length_zero_nil in E. repeat split; congruence.
  - split; [reflexivity|]. split; [|split; reflexivity].
    intros Hnil. apply length_zero_nil in Hnil. congruence.
Qed.

(** X9: The pool of free voices is a stack. A voice given back is the next one
    taken, and taking it leaves the pool as it was before; taking a voice and
    giving it back restores the pool; and from an empty pool nothing is taken:
    the call throws and changes nothing. Neither operation calls the library
    or touches another member. *)
Theorem voice_pool_is_a_stack :
  forall (o : OpenAL_Output Dev),
    (forall src,
        let r := take_source (final (free_source src o)) in
        outcome r = Ok src /\ final r = o)
    /\ (mFreeSources o <> [] ->
        let r := take_source o in
        outcome r = Ok (back (mFreeSources o))
        /\ length (mFreeSources (final r))
           = (length (mFreeSources o) - 1)%nat
        /\ final (free_source (back (mFreeSources o)) (final r)) = o)
    /\ (mFreeSources o = [] ->
        outcome (take_source o)
        = Throw (runtime_error "OpenAL exception: No free sources")
        /\ final (take_source o) = o)
    /\ trace (take_source o) = []
    /\ (forall src, trace (free_source src o) = []).
Proof.
  intros o. split; [|split; [|split; [|split]]].
  - intros src r. subst r.
    change (final (free_source src o))
      with (set_mFreeSources (push_back src (mFreeSources o)) o).
    destruct (take_source_spec
                (set_mFreeSources (push_back src (mFreeSources o)) o))
      as (_ & _ & Hne).
    cbn [mFreeSources set_mFreeSources] in Hne.
    destruct (back_push_back src (mFreeSources o)) as (Hb & Hp).
    rewrite Hb, Hp in Hne.
    destruct Hne as (Hr & Hf).
    { unfold push_back. intros Hnil. apply app_eq_nil in Hnil.
      destruct Hnil as (_ & Hnil). discriminate. }
    split; [exact Hr|]. rewrite Hf. destruct o; reflexivity.
  - intros Hne r. subst r.
    destruct (take_source_spec o) as (_ & _ & Hs).
    destruct (Hs Hne) as (Hr & Hf). rewrite Hr, Hf.
    change (final (free_source ?x ?y))
      with (set_mFreeSources (push_back x (mFreeSources y)) y).
    cbn [mFreeSources set_mFreeSources].
    split; [reflexivity|]. split.
    + unfold pop_back. rewrite removelast_firstn_len, length_firstn. lia.
    + rewrite pop_back_back by exact Hne. destruct o; reflexivity.
  - intros He. apply (take_source_spec o), He.
  - apply (take_source_spec o).
  - intros src. reflexivity.
Qed.

Lemma refused_when_empty :
  forall {A} (k : ALuint -> M (OpenAL_Output Dev) A)
         (o : OpenAL_Output Dev),
    mFreeSources o = [] ->
    refused (throwALerror ;; src <- take_source ;; k src) o.
Proof.
  intros A k o Hempty. unfold refused, take_source. unfold_monad.
  destruct (al_call alGetError (al_device o)) as [out d] eqn:E.
  destruct (out1 out =? AL_NO_ERROR) eqn:Eerr; cbn [fst snd].
  - cbn [mFreeSources set_al_device]. rewrite Hempty. cbn [length Nat.eqb fst snd].
    split; [destruct o; reflexivity|]. exists out. rewrite Eerr.
    split; reflexivity.
  - split; [destruct o; reflexivity|]. exists out. rewrite Eerr.
    split; reflexivity.
Qed.

(** X10: With no free voice none of the four play calls does anything beyond
    the poll of the device error it starts with: it throws, either the pending
    device error or "No free sources", opens no decoder and leaves the output
    as it is. *)
Theorem no_free_voice_no_sound :
  forall (o : OpenAL_Output Dev) fname addr pos volume pitch min max loop,
    mFreeSources o = [] ->
    refused (playSound fname volume pitch loop) o
    /\ refused (playSound3D fname pos volume pitch min max loop) o
    /\ refused (streamSound addr fname volume pitch) o
    /\ refused (streamSound3D addr fname pos volume pitch min max) o.
Proof.
  intros o fname addr pos volume pitch min max loop Hempty.
  split; [|split; [|split]]; apply (refused_when_empty _ o Hempty).
Qed.

(** ** One-shot sounds and the voice pool *)

Lemma bind_cases :
  forall {S A B} (m : M S A) (f : A -> M S B) s,
    (exists a, outcome (m s) = Ok a
               /\ outcome (bind m f s) = outcome (f a (final (m s)))
               /\ final (bind m f s) = final (f a (final (m s))))
    \/ (exists e, outcome (m s) = Throw e
                  /\ outcome (bind m f s) = Throw e
                  /\ final (bind m f s) = final (m s)).
Proof.
  intros S A B m f s. unfold bind, outcome, final.
  destruct (m s) as [[[a|e] s1] t1]; cbn [fst snd].
  - left. exists a. destruct (f a s1) as [[r s2] t2]. repeat split.
  - right. exists e. repeat split.
Qed.

Lemma OpenAL_Sound_delete_spec :
  forall sound (o : OpenAL_Output Dev),
    let r := OpenAL_Sound_delete sound o in
    outcome r = Ok tt
    /\ output_fields (final r)
       = (mDevice o, mContext o,
          push_back (snd_mSource sound) (mFreeSources o), mStreams o).
Proof.
  intros sound o. cbv zeta. unfold OpenAL_Sound_delete, free_source.
  unfold_monad.
  repeat (case_step; cbn [fst snd]).
  split; [reflexivity|]. destruct o; reflexivity.
Qed.

Lemma playSound_load_frame :
  forall fname src (o : OpenAL_Output Dev),
    let r := playSound_load fname src o in
    (mDevice (final r), mContext (final r), mStreams (final r))
    = (mDevice o, mContext o, mStreams o)
    /\ (forall sound, outcome r = Ok sound -> snd_mSource sound = src).
Proof.
  intros fname src o r. subst r.
  pose proof (fun fuel d size data (o' : OpenAL_Output Dev) =>
    LoadBuffer_loop_state fuel d size data o') as HL.
  unfold final in HL.
  unfold playSound_load, playSound_catch, LoadBuffer, decoder_open,
    decoder_getInfo, getALFormat, free_source.
  unfold_monad.
  repeat first
    [ match goal with
      | |- context [LoadBuffer_loop ?fuel ?d ?size ?data ?o'] =>
          pose proof (HL fuel d size data o');
          destruct (LoadBuffer_loop fuel d size data o') as [[? ?] ?];
          cbn [fst snd] in *; subst
      end
    | case_step; cbn [fst snd] in * ].
  all: split; [destruct o; reflexivity|].
  all: intros sound Hs; try discriminate.
  all: injection Hs as <-; reflexivity.
Qed.

Lemma with_sound_spec :
  forall sound (body : M (OpenAL_Output Dev) unit) o,
    device_only body ->
    let r := with_sound sound body o in
    (mDevice (final r), mContext (final r), mStreams (final r))
    = (mDevice o, mContext o, mStreams o)
    /\ (forall s, outcome r = Ok s ->
          s = sound /\ mFreeSources (final r) = mFreeSources o)
    /\ (forall e, outcome r = Throw e ->
          mFreeSources (final r)
          = push_back (snd_mSource sound) (mFreeSources o)).
Proof.
  intros sound body o Hbody r. subst r.
  specialize (Hbody o).
  pose proof (fun o' => OpenAL_Sound_delete_spec sound o') as HD.
  cbv zeta in HD.
  unfold with_sound, try_catch, bind, ret, throw.
  unfold outcome, final in *.
  destruct (body o) as [[[[]|e] o1] t1]; cbn [fst snd] in *.
  - unfold output_fields in Hbody. injection Hbody as Hd Hc Hp Hs.
    split; [congruence|]. split.
    + intros s Hs'. injection Hs' as <-. split; [reflexivity | exact Hp].
    + discriminate.
  - destruct (HD o1) as (Hr & Hf).
    destruct (OpenAL_Sound_delete sound o1) as [[r2 o2] t2].
    cbn [fst snd] in *. subst r2. cbn [fst snd].
    unfold output_fields in *.
    injection Hbody as Hd Hc Hp Hs. injection Hf as Hd2 Hc2 Hp2 Hs2.
    split; [congruence|]. split; [discriminate|].
    intros _ _. congruence.
Qed.

Lemma one_shot_conserves :
  forall fname (body : OpenAL_Sound -> ALuint -> M (OpenAL_Output Dev) unit)
         (o : OpenAL_Output Dev),
    (forall sound src, device_only (body sound src)) ->
    conserves_voices
      (throwALerror ;;
       src <- take_source ;;
       sound <- playSound_load fname src ;;
       with_sound sound (body sound src))
      OpenAL_Sound_delete o.
Proof.
  intros fname body o Hbody. unfold conserves_voices.
  pose proof (device_only_throwALerror o) as H0.
  unfold output_fields in H0. injection H0 as Hd0 Hc0 Hp0 Hs0.
  destruct (bind_cases throwALerror
              (fun _ => src <- take_source ;;
                        sound <- playSound_load fname src ;;
                        with_sound sound (body sound src)) o)
    as [(a & H1 & H2 & H3) | (e & H1 & H2 & H3)];
    rewrite H2, H3; clear H2 H3;
    [|split; [congruence|]; split; [discriminate|]; intros _ _; exact Hp0].
  set (o1 := final (throwALerror o)) in *.
  destruct (take_source_spec o1) as (_ & Hempty & Hsome).
  destruct (bind_cases take_source
              (fun src => sound <- playSound_load fname src ;;
                          with_sound sound (body sound src)) o1)
    as [(src & H1' & H2 & H3) | (e & H1' & H2 & H3)];
    rewrite H2, H3; clear H2 H3.
  2: { destruct (mFreeSources o1) as [|x pool] eqn:Ep.
       - destruct (Hempty eq_refl) as (_ & Hf). rewrite Hf.
         split; [congruence|]. split; [discriminate|]. intros _ _.
         congruence.
       - destruct Hsome as (Hr & _); [discriminate|]. congruence. }
  assert (Hne : mFreeSources o1 <> []).
  { intros Hnil. destruct (Hempty Hnil) as (Hr & _). congruence. }
  destruct (Hsome Hne) as (Hr & Hf). rewrite Hf in *. clear Hempty Hsome.
  assert (Hsrc : src = back (mFreeSources o1)) by congruence.
  set (o2 := set_mFreeSources (pop_back (mFreeSources o1)) o1) in *.
  assert (Ho2 : (mDevice o2, mContext o2, mStreams o2)
                = (mDevice o, mContext o, mStreams o)).
  { subst o2. cbn [mDevice mContext mStreams set_mFreeSources].
    congruence. }
  assert (Hp2 : mFreeSources o2 = pop_back (mFreeSources o)).
  { subst o2. cbn [mFreeSources set_mFreeSources]. congruence. }
  pose proof (playSound_load_pool fname src o2) as HLp.
  destruct (playSound_load_frame fname src o2) as (HLf & HLs).
  cbv zeta in HLp.
  destruct (bind_cases (playSound_load fname src)
              (fun sound => with_sound sound (body sound src)) o2)
    as [(sound & H1'' & H2 & H3) | (e & H1'' & H2 & H3)];
    rewrite H2, H3; clear H2 H3; rewrite H1'' in HLp.
  2: { split; [congruence|]. split; [discriminate|]. intros _ _.
       rewrite HLp, Hp2, Hsrc, Hp0.
       apply pop_back_back. congruence. }
  set (o3 := final (playSound_load fname src o2)) in *.
  destruct (with_sound_spec sound (body sound src) o3 (Hbody sound src))
    as (Hwf & Hwok & Hwthrow).
  split; [congruence|]. split.
  - intros s Hs. destruct (Hwok s Hs) as (-> & Hpool).
    split; [congruence|]. split; [rewrite (HLs _ H1''); congruence|].
    split; [congruence|].
    destruct (OpenAL_Sound_delete_spec sound
                (final (with_sound sound (body sound src) o3)))
      as (Hdr & Hdf).
    split; [exact Hdr|]. rewrite Hdf. unfold output_fields.
    injection Hwf as Hwd Hwc Hws. injection HLf as HLd HLc HLs'.
    injection Ho2 as Hd2 Hc2 Hs2.
    rewrite Hpool, HLp, Hp2, (HLs _ H1''), Hsrc, Hp0.
    rewrite pop_back_back by congruence. congruence.
  - intros e He. rewrite (Hwthrow e He), HLp, Hp2, (HLs _ H1''), Hsrc, Hp0.
    apply pop_back_back. congruence.
Qed.

(** X11: [playSound] and [playSound3D] conserve the voices. Neither touches
    the handles or the registry. The sound returned holds the voice that was
    at the back of the pool and the pool is that voice shorter; deleting the
    sound never throws and restores the pool. When the call throws, for
    whatever reason, the pool is exactly as it was: the voice taken has been
    given back once. *)
Theorem playSound_conserves_voices :
  forall fname pos volume pitch min max loop (o : OpenAL_Output Dev),
    conserves_voices (playSound fname volume pitch loop)
      OpenAL_Sound_delete o
    /\ conserves_voices (playSound3D fname pos volume pitch min max loop)
         OpenAL_Sound_delete o.
Proof.
  intros fname pos volume pitch min max loop o. split.
  - apply (one_shot_conserves fname
             (fun sound src =>
                al (alSource3f src AL_POSITION zero_f zero_f zero_f) ;;
                al (alSource3f src AL_DIRECTION zero_f zero_f zero_f) ;;
                al (alSource3f src AL_VELOCITY zero_f zero_f zero_f) ;;
                al (alSourcef src AL_REFERENCE_DISTANCE one_f) ;;
                al (alSourcef src AL_MAX_DISTANCE thousand_f) ;;
                al (alSourcef src AL_ROLLOFF_FACTOR zero_f) ;;
                al (alSourcef src AL_GAIN volume) ;;
                al (alSourcef src AL_PITCH pitch) ;;
                al (alSourcei src AL_SOURCE_RELATIVE AL_TRUE) ;;
                al (alSourcei src AL_LOOPING (AL_bool loop)) ;;
                throwALerror ;;
                al (alSourcei src AL_BUFFER (snd_mBuffer sound)) ;;
                al (alSourcePlay src) ;;
                throwALerror) o).
    intros sound src. device_only_auto.
  - apply (one_shot_conserves fname
             (fun sound src =>
                al (alSource3f src AL_POSITION
                      (pos0 pos) (pos2 pos) (fneg (pos1 pos))) ;;
                al (alSource3f src AL_DIRECTION zero_f zero_f zero_f) ;;
                al (alSource3f src AL_VELOCITY zero_f zero_f zero_f) ;;
                al (alSourcef src AL_REFERENCE_DISTANCE min) ;;
                al (alSourcef src AL_MAX_DISTANCE max) ;;
                al (alSourcef src AL_ROLLOFF_FACTOR one_f) ;;
                al (alSourcef src AL_GAIN volume) ;;
                al (alSourcef src AL_PITCH pitch) ;;
                al (alSourcei src AL_SOURCE_RELATIVE AL_FALSE) ;;
                al (alSourcei src AL_LOOPING (AL_bool loop)) ;;
                throwALerror ;;
                al (alSourcei src AL_BUFFER (snd_mBuffer sound)) ;;
                al (alSourcePlay src) ;;
                throwALerror) o).
    intros sound src. device_only_auto.
Qed.

(** ** Streaming sounds and the voice pool *)

Lemma play_frame :
  forall (s : OpenAL_SoundStream) (o : OpenAL_Output Dev),
    let r := play (s, o) in
    fixed_part (fst (final r)) = fixed_part s
    /\ (mDevice (snd (final r)), mContext (snd (final r)),
        mFreeSources (snd (final r)))
       = (mDevice o, mContext o, mFreeSources o)
    /\ (outcome r = Ok tt -> mIsFinished (fst (final r)) = false).
Proof.
  intros s o r. subst r.
  pose proof (fun st => stream_frame_play_fill (mBuffers s) st) as HF.
  unfold outcome, final, trace in HF.
  unfold play, StreamThread_add. unfold_monad.
  repeat first
    [ match goal with
      | |- context [play_fill ?bufs (?s', ?o')] =>
          destruct (HF (s', o')) as (? & ?);
          destruct (play_fill bufs (s', o')) as [[? [? ?]] ?];
          cbn [fst snd] in *
      end
    | case_step; cbn [fst snd] in * ].
  all: clear HF.
  all: destruct s as [self0 src bufs fmt rate size dec fin], o.
  all: unfold output_fields, fixed_part in *.
  all: cbn -[contains push_back] in *.
  all: repeat match goal with
       | H : (_, _) = (_, _) |- _ => injection H as ? ?
       end.
  all: subst.
  all: split; [congruence|]; split; [congruence|].
  all: try discriminate.
  all: intros _; reflexivity.
Qed.

Lemma OpenAL_SoundStream_delete_spec :
  forall (s : OpenAL_SoundStream) (o : OpenAL_Output Dev),
    let r := OpenAL_SoundStream_delete (s, o) in
    outcome r = Ok tt
    /\ fst (final r) = set_mDecoder (dec_close (mDecoder s)) s
    /\ output_fields (snd (final r))
       = (mDevice o, mContext o, push_back (mSource s) (mFreeSources o),
          erase_first (self s) (mStreams o)).
Proof.
  intros s o. cbv zeta.
  unfold OpenAL_SoundStream_delete, decoder_close, StreamThread_remove,
    free_source, update_this.
  unfold_monad.
  repeat (case_step; cbn [fst snd]).
  split; [reflexivity|]. split; [reflexivity|]. destruct o; reflexivity.
Qed.

Lemma streamSound_new_frame :
  forall addr fname src (o : OpenAL_Output Dev),
    let r := streamSound_new addr fname src o in
    (mDevice (final r), mContext (final r), mStreams (final r))
    = (mDevice o, mContext o, mStreams o)
    /\ (forall s, outcome r = Ok s ->
          self s = addr /\ mSource s = src
          /\ length (mBuffers s) = 6%nat /\ mIsFinished s = true).
Proof.
  intros addr fname src o r. subst r.
  unfold streamSound_new, OpenAL_SoundStream_new, decoder_open,
    decoder_getInfo, getALFormat, free_source.
  unfold_monad.
  repeat (case_step; cbn [fst snd] in * ).
  all: split; [destruct o; reflexivity|].
  all: intros s Hs; try discriminate.
  all: injection Hs as <-; cbn [self mSource mBuffers mIsFinished].
  all: unfold array_of; rewrite length_map, length_seq; auto.
Qed.

Lemma with_stream_spec :
  forall sound (body : StreamM unit) (o : OpenAL_Output Dev),
    let r := with_stream sound body o in
    (forall s, outcome r = Ok s ->
       outcome (body (sound, o)) = Ok tt
       /\ s = fst (final (body (sound, o)))
       /\ final r = snd (final (body (sound, o))))
    /\ (forall e, outcome r = Throw e ->
          final r
          = snd (final (OpenAL_SoundStream_delete
                          (final (body (sound, o)))))).
Proof.
  intros sound body o r. subst r. unfold with_stream, outcome, final.
  destruct (body (sound, o)) as [[[[]|e] st] t]; cbn [fst snd].
  - split; [|discriminate]. intros s Hs. injection Hs as <-.
    repeat split.
  - destruct (OpenAL_SoundStream_delete st) as [[r' st'] t'].
    cbn [fst snd]. split; [discriminate|]. intros _ _. reflexivity.
Qed.

Lemma stream_starts :
  forall addr fname (pre : ALuint -> M (OpenAL_Output Dev) unit)
         (o : OpenAL_Output Dev),
    (forall src, device_only (pre src)) ->
    starts_stream
      (throwALerror ;;
       src <- take_source ;;
       sound <- streamSound_new addr fname src ;;
       with_stream sound (on_output (pre src) ;; play))
      OpenAL_SoundStream_delete addr o.
Proof.
  intros addr fname pre o Hpre. unfold starts_stream.
  pose proof (device_only_throwALerror o) as H0.
  unfold output_fields in H0. injection H0 as Hd0 Hc0 Hp0 Hs0.
  destruct (bind_cases throwALerror
              (fun _ => src <- take_source ;;
                        sound <- streamSound_new addr fname src ;;
                        with_stream sound (on_output (pre src) ;; play)) o)
    as [(a & H1 & H2 & H3) | (e & H1 & H2 & H3)];
    rewrite H2, H3; clear H2 H3;
    [|split; [congruence|]; split; [discriminate|]; intros _ _; left;
      exact Hp0].
  set (o1 := final (throwALerror o)) in *.
  destruct (take_source_spec o1) as (_ & Hempty & Hsome).
  destruct (bind_cases take_source
              (fun src => sound <- streamSound_new addr fname src ;;
                          with_stream sound (on_output (pre src) ;; play))
              o1)
    as [(src & H1' & H2 & H3) | (e & H1' & H2 & H3)];
    rewrite H2, H3; clear H2 H3.
  2: { destruct (mFreeSources o1) as [|x pool] eqn:Ep.
       - destruct (Hempty eq_refl) as (_ & Hf). rewrite Hf.
         split; [congruence|]. split; [discriminate|]. intros _ _.
         left. congruence.
       - destruct Hsome as (Hr & _); [discriminate|]. congruence. }
  assert (Hne : mFreeSources o1 <> []).
  { intros Hnil. destruct (Hempty Hnil) as (Hr & _). congruence. }
  destruct (Hsome Hne) as (Hr & Hf). rewrite Hf in *. clear Hempty Hsome.
  assert (Hsrc : src = back (mFreeSources o)) by congruence.
  assert (Hne0 : mFreeSources o <> []) by congruence.
  set (o2 := set_mFreeSources (pop_back (mFreeSources o1)) o1) in *.
  assert (Ho2 : (mDevice o2, mContext o2, mStreams o2)
                = (mDevice o, mContext o, mStreams o)).
  { subst o2. cbn [mDevice mContext mStreams set_mFreeSources].
    congruence. }
  assert (Hp2 : mFreeSources o2 = pop_back (mFreeSources o)).
  { subst o2. cbn [mFreeSources set_mFreeSources]. congruence. }
  injection Ho2 as Hd2 Hc2 Hs2.
  pose proof (streamSound_new_pool addr fname src o2) as HNp.
  destruct (streamSound_new_frame addr fname src o2) as (HNf & HNs).
  cbv zeta in HNp. injection HNf as HNd HNc HNr.
  destruct (bind_cases (streamSound_new addr fname src)
              (fun sound => with_stream sound (on_output (pre src) ;; play))
              o2)
    as [(sound & H1'' & H2 & H3) | (e & H1'' & H2 & H3)];
    rewrite H2, H3; clear H2 H3; rewrite H1'' in HNp.
  2: { split; [congruence|]. split; [discriminate|]. intros _ _.
       rewrite HNp, Hp2.
       destruct (existsb is_delete_buffers
                   (trace (streamSound_new addr fname src o2))).
       - right. rewrite Hsrc.
         change (pop_back (mFreeSources o)
                 ++ [back (mFreeSources o); back (mFreeSources o)])
           with (pop_back (mFreeSources o)
                 ++ [back (mFreeSources o)] ++ [back (mFreeSources o)]).
         rewrite app_assoc.
         change (pop_back (mFreeSources o) ++ [back (mFreeSources o)])
           with (push_back (back (mFreeSources o))
                   (pop_back (mFreeSources o))).
         rewrite pop_back_back by exact Hne0. reflexivity.
       - left. rewrite Hsrc. apply pop_back_back, Hne0. }
  destruct (HNs sound H1'') as (Hself & Hsource & Hbufs & _).
  set (o3 := final (streamSound_new addr fname src o2)) in *.
  (* the body: the setup calls, then [play] *)
  pose proof (Hpre src o3) as Hpre3.
  unfold output_fields in Hpre3. injection Hpre3 as Hd3 Hc3 Hp3 Hs3.
  set (o4 := final (pre src o3)) in *.
  assert (Hbody : forall st,
            st = final ((on_output (pre src) ;; play) (sound, o3)) ->
            fixed_part (fst st) = fixed_part sound
            /\ (mDevice (snd st), mContext (snd st), mFreeSources (snd st))
               = (mDevice o3, mContext o3, mFreeSources o3)
            /\ (outcome ((on_output (pre src) ;; play) (sound, o3)) = Ok tt ->
                mIsFinished (fst st) = false
                /\ mStreams (snd st)
                   = (if contains addr (mStreams o) then mStreams o
                      else push_back addr (mStreams o)))).
  { intros st ->.
    assert (Hon : final (on_output (O := OpenAL_SoundStream) (pre src)
                           (sound, o3)) = (sound, o4)).
    { subst o4. unfold on_output, final. cbn [fst snd].
      destruct (pre src o3) as [[r' o'] t']. reflexivity. }
    destruct (bind_cases (on_output (pre src)) (fun _ => play) (sound, o3))
      as [(a' & G1 & G2 & G3) | (e & G1 & G2 & G3)];
      rewrite G2, G3, Hon; clear G2 G3.
    - destruct (play_frame sound o4) as (Pf & Pp & Pok).
      split; [exact Pf|]. split; [rewrite Pp, Hd3, Hc3, Hp3; reflexivity|].
      intros Hok. split; [apply Pok, Hok|].
      destruct (play_registry sound o4 Hok) as (Preg & _).
      rewrite Preg, Hself, Hs3, HNr, Hs0. reflexivity.
    - cbn [fst snd]. split; [reflexivity|]. split; [congruence|].
      discriminate. }
  specialize (Hbody _ eq_refl). destruct Hbody as (Bf & Bp & Bok).
  destruct (with_stream_spec sound (on_output (pre src) ;; play) o3)
    as (Wok & Wthrow).
  injection Bp as Bd Bc Bpool.
  assert (Hpool3 : mFreeSources o3 = pop_back (mFreeSources o))
    by congruence.
  split; [|split].
  - destruct (outcome (with_stream sound (on_output (pre src) ;; play) o3))
      as [s|e] eqn:Ew.
    + destruct (Wok s eq_refl) as (_ & _ & ->). congruence.
    + rewrite (Wthrow e eq_refl).
      destruct (OpenAL_SoundStream_delete_spec
                  (fst (final ((on_output (pre src) ;; play) (sound, o3))))
                  (snd (final ((on_output (pre src) ;; play) (sound, o3)))))
        as (_ & _ & Hdel).
      rewrite <- surjective_pairing in Hdel.
      unfold output_fields in Hdel. injection Hdel as Dd Dc Dp Ds.
      congruence.
  - intros s Hs. destruct (Wok s Hs) as (Hb & -> & ->).
    destruct (Bok Hb) as (Bfin & Breg).
    unfold fixed_part in Bf. injection Bf as F1 F2 F3 F4 F5 F6.
    split; [exact Hne0|]. split; [congruence|]. split; [congruence|].
    split; [congruence|]. split; [exact Bfin|]. split; [congruence|].
    split.
    { intros q. rewrite Breg. apply added_In. }
    rewrite <- surjective_pairing.
    destruct (OpenAL_SoundStream_delete_spec
                (fst (final ((on_output (pre src) ;; play) (sound, o3))))
                (snd (final ((on_output (pre src) ;; play) (sound, o3)))))
      as (Dr & _ & Hdel).
    rewrite <- surjective_pairing in Dr, Hdel.
    unfold output_fields in Hdel. injection Hdel as Dd Dc Dp Ds.
    split; [exact Dr|]. split.
    + rewrite Dp, Bpool, Hpool3, F2, Hsource, Hsrc.
      apply pop_back_back, Hne0.
    + intros Hout. rewrite Ds, Breg, F1, Hself.
      destruct (contains addr (mStreams o)) eqn:Ec.
      * apply contains_In in Ec. contradiction.
      * apply erase_first_push_back, Hout.
  - intros e He. left. rewrite (Wthrow e He).
    destruct (OpenAL_SoundStream_delete_spec
                (fst (final ((on_output (pre src) ;; play) (sound, o3))))
                (snd (final ((on_output (pre src) ;; play) (sound, o3)))))
      as (_ & _ & Hdel).
    rewrite <- surjective_pairing in Hdel.
    unfold output_fields in Hdel. injection Hdel as Dd Dc Dp Ds.
    unfold fixed_part in Bf. injection Bf as F1 F2 F3 F4 F5 F6.
    rewrite Dp, Bpool, Hpool3, F2, Hsource, Hsrc.
    apply pop_back_back, Hne0.
Qed.

(** X12: [streamSound] and [streamSound3D] leave the handles alone. The stream
    returned lives at the address given, holds the voice that was at the back
    of the pool and six buffers, is not finished and is registered; the pool
    is that voice shorter. Deleting the stream never throws, gives the pool
    back and, when the address was not registered before, the registry. A call
    that throws leaves the pool as it was, or as it was with the voice it took
    added a second time. *)
Theorem streamSound_registers_and_delete_restores :
  forall addr fname pos volume pitch min max (o : OpenAL_Output Dev),
    starts_stream (streamSound addr fname volume pitch)
      OpenAL_SoundStream_delete addr o
    /\ starts_stream (streamSound3D addr fname pos volume pitch min max)
         OpenAL_SoundStream_delete addr o.
Proof.
  intros addr fname pos volume pitch min max o. split.
  - apply (stream_starts addr fname
             (fun src =>
                al (alSource3f src AL_POSITION zero_f zero_f zero_f) ;;
                al (alSource3f src AL_DIRECTION zero_f zero_f zero_f) ;;
                al (alSource3f src AL_VELOCITY zero_f zero_f zero_f) ;;
                al (alSourcef src AL_REFERENCE_DISTANCE one_f) ;;
                al (alSourcef src AL_MAX_DISTANCE thousand_f) ;;
                al (alSourcef src AL_ROLLOFF_FACTOR zero_f) ;;
                al (alSourcef src AL_GAIN volume) ;;
                al (alSourcef src AL_PITCH pitch) ;;
                al (alSourcei src AL_SOURCE_RELATIVE AL_TRUE) ;;
                al (alSourcei src AL_LOOPING AL_FALSE) ;;
                throwALerror) o).
    intros src. device_only_auto.
  - apply (stream_starts addr fname
             (fun src =>
                al (alSource3f src AL_POSITION
                      (pos0 pos) (pos2 pos) (fneg (pos1 pos))) ;;
                al (alSource3f src AL_DIRECTION zero_f zero_f zero_f) ;;
                al (alSource3f src AL_VELOCITY zero_f zero_f zero_f) ;;
                al (alSourcef src AL_REFERENCE_DISTANCE min) ;;
                al (alSourcef src AL_MAX_DISTANCE max) ;;
                al (alSourcef src AL_ROLLOFF_FACTOR one_f) ;;
                al (alSourcef src AL_GAIN volume) ;;
                al (alSourcef src AL_PITCH pitch) ;;
                al (alSourcei src AL_SOURCE_RELATIVE AL_FALSE) ;;
                al (alSourcei src AL_LOOPING AL_FALSE) ;;
                throwALerror) o).
    intros src. device_only_auto.
Qed.

(** ** Opening the device *)

Lemma init_guard :
  forall devname (o : OpenAL_Output Dev),
    mDevice o <> 0 \/ mContext o <> 0 ->
    init devname o
    = (Throw (runtime_error "OpenAL exception: Device already open"), o, []).
Proof.
  intros devname o Hopen.
  assert (Hg : negb (mDevice o =? 0) || negb (mContext o =? 0) = true).
  { destruct Hopen as [Hd | Hc].
    - apply Z.eqb_neq in Hd. rewrite Hd. reflexivity.
    - apply Z.eqb_neq in Hc. rewrite Hc. apply orb_true_r. }
  unfold init, init_open. unfold_monad. rewrite Hg. reflexivity.
Qed.

Lemma init_open_spec :
  forall devname (o : OpenAL_Output Dev),
    mDevice o = 0 -> mContext o = 0 ->
    let r := init_open devname o in
    let dev :=
      out1 (fst (al_call (alcOpenDevice (c_str devname)) (al_device o))) in
    mDevice (final r) = dev
    /\ mFreeSources (final r) = mFreeSources o
    /\ mStreams (final r) = mStreams o
    /\ (forall l, outcome r = Ok l -> dev <> 0 /\ mContext (final r) <> 0)
    /\ (dev = 0 ->
        outcome r
        = Throw (runtime_error
                   ("OpenAL exception: Failed to open "
                    ++ dquote ++ devname ++ dquote))
        /\ mContext (final r) = 0).
Proof.
  intros devname o Hd Hc r dev. subst r dev.
  unfold init_open, throwALCerror. unfold_monad.
  rewrite Hd, Hc. cbn [Z.eqb negb orb fst snd].
  destruct (al_call (alcOpenDevice (c_str devname)) (al_device o))
    as [l d] eqn:E.
  cbn [fst snd].
  repeat (case_step; cbn [fst snd] in * ).
  all: cbn [mDevice mContext mFreeSources mStreams set_mDevice set_mContext
            set_al_device] in *.
  all: repeat match goal with
       | H : (_ =? _) = true |- _ => apply Z.eqb_eq in H
       | H : (_ =? _) = false |- _ => apply Z.eqb_neq in H
       end.
  all: split; [reflexivity|]; split; [reflexivity|]; split; [reflexivity|].
  all: split; [intros ? ?; try discriminate; split; assumption|].
  all: intros Hz; try contradiction.
  all: split; [reflexivity | assumption].
Qed.

Lemma init_sources_frame :
  forall fuel i (o : OpenAL_Output Dev),
    let r := init_sources fuel i o in
    (mDevice (final r), mContext (final r), mStreams (final r))
    = (mDevice o, mContext o, mStreams o)
    /\ (length (mFreeSources (final r)) <= length (mFreeSources o))%nat.
Proof.
  induction fuel as [|fuel IH]; intros i o; cbv zeta.
  - split; [reflexivity | apply Nat.le_refl].
  - simpl. unfold_monad.
    destruct (i <? length (mFreeSources o))%nat eqn:Hlt;
      [|split; [reflexivity | apply Nat.le_refl]].
    apply Nat.ltb_lt in Hlt.
    destruct (al_call (alGenSources 1) (al_device o)) as [src d1].
    cbn [fst snd al_device set_al_device].
    destruct (al_call alGetError d1) as [err d2].
    cbn [fst snd al_device set_al_device].
    destruct (out1 err =? AL_NO_ERROR); cbn [negb fst snd].
    + specialize (IH (S i)
        (set_mFreeSources (assign i (out1 src) (mFreeSources o))
           (set_al_device d2 (set_al_device d1 o)))).
      cbv zeta in IH. unfold final in IH.
      destruct (init_sources fuel (S i) _) as [[r o'] t].
      cbn [fst snd] in *.
      cbn [mDevice mContext mStreams mFreeSources set_mFreeSources
           set_al_device] in IH.
      rewrite length_assign in IH. exact IH.
    + cbn [mDevice mContext mStreams mFreeSources set_mFreeSources
           set_al_device].
      split; [reflexivity|]. rewrite length_resize. lia.
Qed.

Lemma init_pool_frame :
  forall maxmono maxstereo (o : OpenAL_Output Dev),
    let r := init_pool maxmono maxstereo o in
    (mDevice (final r), mContext (final r), mStreams (final r))
    = (mDevice o, mContext o, mStreams o)
    /\ (outcome r = Ok tt ->
        (1 <= length (mFreeSources (final r)) <= 256)%nat).
Proof.
  intros maxmono maxstereo o r. subst r.
  unfold init_pool, mFreeSources_resize.
  destruct (Z.min (int_add maxmono maxstereo) 256 <? 0) eqn:Hneg.
  - split; [reflexivity | discriminate].
  - apply Z.ltb_ge in Hneg.
    set (n := Z.to_nat (Z.min (int_add maxmono maxstereo) 256)).
    assert (Hn : (n <= 256)%nat) by (subst n; lia).
    unfold_monad.
    pose proof (init_sources_frame
                  (length (mFreeSources
                     (set_mFreeSources (resize n (mFreeSources o)) o)))
                  0 (set_mFreeSources (resize n (mFreeSources o)) o)) as H.
    cbv zeta in H. unfold final in H.
    destruct (init_sources _ 0 _) as [[[[]|e] o1] t1]; cbn [fst snd] in *.
    + cbn [mDevice mContext mStreams mFreeSources set_mFreeSources] in H.
      rewrite length_resize in H. destruct H as (Hf & Hl).
      destruct (length (mFreeSources o1) =? 0)%nat eqn:Hz; cbn [fst snd].
      * split; [exact Hf | discriminate].
      * apply Nat.eqb_neq in Hz. split; [exact Hf|]. intros _. lia.
    + cbn [mDevice mContext mStreams mFreeSources set_mFreeSources] in H.
      split; [apply H | discriminate].
Qed.

(** X15: [init] is refused while a device or a context handle is set: it
    throws "Device already open" without a call and without a change. From the
    closed state it never touches the registry, and [mDevice] is afterwards
    whatever [alcOpenDevice] returned, also when [init] throws later on; so
    after an [init] that failed past the opening of the device every further
    [init] is refused. An [init] that returns has set both handles and left
    between 1 and 256 voices in the pool. *)
Theorem init_refuses_open_device :
  forall devname (o : OpenAL_Output Dev),
    (mDevice o <> 0 \/ mContext o <> 0 ->
     init devname o
     = (Throw (runtime_error "OpenAL exception: Device already open"),
        o, []))
    /\ (mDevice o = 0 -> mContext o = 0 ->
        let r := init devname o in
        mStreams (final r) = mStreams o
        /\ mDevice (final r)
           = out1 (fst (al_call (alcOpenDevice (c_str devname))
                          (al_device o)))
        /\ (mDevice (final r) <> 0 ->
            forall again,
              init again (final r)
              = (Throw (runtime_error
                          "OpenAL exception: Device already open"),
                 final r, []))
        /\ (outcome r = Ok tt ->
            mDevice (final r) <> 0 /\ mContext (final r) <> 0
            /\ (1 <= length (mFreeSources (final r)) <= 256)%nat)).
Proof.
  intros devname o. split; [apply init_guard|].
  intros Hd Hc r. subst r.
  destruct (init_open_spec devname o Hd Hc) as (Od & Op & Os & Ook & _).
  assert (H : mStreams (final (init devname o)) = mStreams o
              /\ mDevice (final (init devname o))
                 = mDevice (final (init_open devname o))
              /\ (outcome (init devname o) = Ok tt ->
                  mContext (final (init devname o)) <> 0
                  /\ mDevice (final (init_open devname o)) <> 0
                  /\ (1 <= length (mFreeSources (final (init devname o)))
                      <= 256)%nat)).
  { unfold init.
    destruct (bind_cases (init_open devname)
                (fun limits => init_pool (fst limits) (snd limits)) o)
      as [(l & H1 & H2 & H3) | (e & H1 & H2 & H3)]; rewrite H2, H3.
    - destruct (init_pool_frame (fst l) (snd l)
                  (final (init_open devname o))) as (Pf & Pok).
      injection Pf as Pd Pc Ps.
      destruct (Ook l H1) as (Hdev & Hctx).
      split; [congruence|]. split; [exact Pd|].
      intros Hok. split; [congruence|]. split; [congruence|].
      apply Pok, Hok.
    - split; [exact Os|]. split; [reflexivity|]. discriminate. }
  destruct H as (Hs & Hdev & Hok).
  split; [exact Hs|]. split; [congruence|]. split.
  - intros Hne again. apply init_guard. left. exact Hne.
  - intros Hr. destruct (Hok Hr) as (Hc' & Hd' & Hl).
    split; [congruence|]. split; assumption.
Qed.

(** ** Closing the device *)

Lemma init_passes_guard :
  forall devname (o : OpenAL_Output Dev),
    mDevice o = 0 -> mContext o = 0 ->
    exists out rest,
      trace (init devname o)
      = EvAL (alcOpenDevice (c_str devname)) out :: rest.
Proof.
  intros devname o Hd Hc.
  unfold init, init_open, init_pool, mFreeSources_resize, throwALCerror.
  unfold_monad.
  rewrite Hd, Hc. cbn [Z.eqb negb orb fst snd].
  repeat (case_step; cbn [fst snd] in * ).
  all: eexists; eexists; reflexivity.
Qed.

Lemma calls_app : forall t1 t2, calls (t1 ++ t2) = calls t1 ++ calls t2.
Proof. intros. unfold calls. apply flat_map_app. Qed.

Lemma deinit_spec :
  forall o : OpenAL_Output Dev,
    let r := deinit o in
    outcome r = Ok tt
    /\ output_fields (final r) = (0, 0, [], [])
    /\ calls (trace r)
       = (if (length (mFreeSources o) =? 0)%nat then []
          else [alDeleteSources (mFreeSources o)])
         ++ [alcMakeContextCurrent 0]
         ++ (if mContext o =? 0 then []
             else [alcDestroyContext (mContext o)])
         ++ (if mDevice o =? 0 then []
             else [alcCloseDevice (mDevice o)]).
Proof.
  intros o. cbv zeta. unfold deinit, StreamThread_removeAll. unfold_monad.
  cbn [mFreeSources mContext mDevice set_mStreams].
  repeat (case_step; cbn [fst snd] in * ).
  all: cbn [negb] in *; try congruence.
  all: repeat match goal with
       | H : (_ =? _)%nat = _ |- context [(_ =? _)%nat] => rewrite H
       | H : (_ =? _) = _ |- _ => rewrite H
       end.
  all: try match goal with
       | H : (length _ =? 0)%nat = true |- _ =>
           pose proof (proj1 (length_zero_nil _) H) as Hnil
       end.
  all: split; [reflexivity|]; split; [|reflexivity].
  all: unfold output_fields.
  all: cbn [mDevice mContext mFreeSources mStreams set_mDevice set_mContext
            set_mFreeSources set_mStreams set_al_device].
  all: rewrite ?Hnil; reflexivity.
Qed.

(** X16: [deinit] never throws and leaves the output closed: no device, no
    context, an empty pool and an empty registry. It deletes the free voices
    if there are any, clears the current context, destroys the context and
    closes the device if they are set, in this order and nothing else. A
    second [deinit], like the destructor of an output that was never opened,
    only clears the current context; and after [deinit] an [init] is not
    refused: it goes on to open the device. *)
Theorem deinit_closes_everything :
  forall o : OpenAL_Output Dev,
    let r := deinit o in
    outcome r = Ok tt
    /\ output_fields (final r) = (0, 0, [], [])
    /\ calls (trace r)
       = (if (length (mFreeSources o) =? 0)%nat then []
          else [alDeleteSources (mFreeSources o)])
         ++ [alcMakeContextCurrent 0]
         ++ (if mContext o =? 0 then []
             else [alcDestroyContext (mContext o)])
         ++ (if mDevice o =? 0 then []
             else [alcCloseDevice (mDevice o)])
    /\ calls (trace (deinit (final r))) = [alcMakeContextCurrent 0]
    /\ output_fields (final (deinit (final r))) = (0, 0, [], [])
    /\ (forall devname, exists out rest,
          trace (init devname (final r))
          = EvAL (alcOpenDevice (c_str devname)) out :: rest)
    /\ (forall d,
          calls (trace (OpenAL_Output_delete (OpenAL_Output_new d)))
          = [alcMakeContextCurrent 0]).
Proof.
  intros o r. subst r.
  destruct (deinit_spec o) as (Hr & Hf & Hc).
  destruct (deinit_spec (final (deinit o))) as (_ & Hf2 & Hc2).
  unfold output_fields in Hf. injection Hf as Fd Fc Fp Fs.
  rewrite Fd, Fc, Fp in Hc2. cbn in Hc2.
  split; [exact Hr|]. split; [unfold output_fields; congruence|].
  split; [exact Hc|]. split; [exact Hc2|]. split; [exact Hf2|]. split.
  - intros devname. apply init_passes_guard; assumption.
  - intros d. destruct (deinit_spec (OpenAL_Output_new d)) as (_ & _ & Hn).
    exact Hn.
Qed.

(** ** Loading a one-shot sound *)

Lemma reads_app : forall t1 t2, reads (t1 ++ t2) = reads t1 ++ reads t2.
Proof. intros. unfold reads. apply flat_map_app. Qed.

Lemma LoadBuffer_loop_reads :
  forall {St} fuel decoder size data (st : St),
    (dec_remaining decoder < fuel)%nat ->
    0 < size - Z.of_nat (length data) ->
    let r := LoadBuffer_loop fuel decoder size data st in
    let rs := reads (trace r) in
    exists data' d' init len,
      outcome r = Ok (data', d')
      /\ Z.of_nat (length data')
         = Z.of_nat (length data) + sum_got rs
      /\ Forall (fun q => 0 < fst q) rs
      /\ fst (hd (0, 0) rs) = size - Z.of_nat (length data)
      /\ rs = init ++ [(len, 0)]
      /\ Forall (fun q => 0 < snd q) init
      /\ buffer_data (trace r) = [].
Proof.
  intros St fuel. induction fuel as [|fuel IH];
    intros decoder size data st Hrem Hreq; [lia|].
  cbv zeta. simpl LoadBuffer_loop. unfold_monad.
  pose proof (dec_read_progress (size - Z.of_nat (length data)) decoder)
    as Hp.
  destruct (dec_read (size - Z.of_nat (length data)) decoder)
    as [chunk d1] eqn:Er.
  cbn [fst snd] in *.
  destruct (Z.of_nat (length chunk) >? 0) eqn:Hgot.
  - assert (Hpos : 0 < Z.of_nat (length chunk)) by lia.
    assert (Hne : chunk <> []).
    { intros ->. simpl in Hpos. lia. }
    specialize (IH d1 (Z.of_nat (length (data ++ chunk)) * 2)
                  (data ++ chunk) st).
    assert (Hlen : Z.of_nat (length (data ++ chunk))
                   = Z.of_nat (length data) + Z.of_nat (length chunk)).
    { rewrite length_app. lia. }
    specialize (IH ltac:(specialize (Hp Hne); lia) ltac:(lia)).
    cbv zeta in IH. unfold outcome, trace in IH.
    destruct (LoadBuffer_loop fuel d1 _ (data ++ chunk) st)
      as [[r s'] t]. cbn [fst snd] in *.
    destruct IH as (data' & d' & init & len & Hr & Hsum & Hall & Hhd
                    & Hrs & Hinit & Hbd).
    exists data', d',
      ((size - Z.of_nat (length data), Z.of_nat (length chunk)) :: init),
      len.
    cbn [app reads flat_map read_of]. fold (reads t).
    split; [exact Hr|]. split.
    { cbn [sum_got fold_right snd]. fold (sum_got (reads t)). lia. }
    split; [constructor; [exact Hreq | exact Hall]|].
    split; [reflexivity|]. split; [rewrite Hrs; reflexivity|].
    split; [constructor; [exact Hpos | exact Hinit] | exact Hbd].
  - assert (Hzero : Z.of_nat (length chunk) = 0) by lia.
    exists data, d1, [], (size - Z.of_nat (length data)).
    cbn [app reads flat_map read_of fst snd sum_got fold_right hd].
    rewrite Hzero.
    split; [reflexivity|]. split; [lia|].
    split; [constructor; [exact Hreq | constructor]|].
    split; [reflexivity|]. split; [reflexivity|].
    split; [constructor | reflexivity].
Qed.

(** X13: A [LoadBuffer] that returns has read the decoder to its end: the
    reads go on until one delivers nothing, and all reads before that one
    delivered data. No read asks for zero bytes, so an empty read is the end
    of the sound and not an empty request; the first read asks for 32768
    bytes. One buffer is filled, with as many bytes as the reads delivered
    together. *)
Theorem LoadBuffer_reads_until_empty :
  forall decoder (o : OpenAL_Output Dev) res,
    outcome (LoadBuffer decoder o) = Ok res ->
    let t := trace (LoadBuffer decoder o) in
    Forall (fun q => 0 < fst q) (reads t)
    /\ fst (hd (0, 0) (reads t)) = 32768
    /\ (exists init len,
          reads t = init ++ [(len, 0)]
          /\ Forall (fun q => 0 < snd q) init)
    /\ (exists data,
          buffer_data t = [data]
          /\ Z.of_nat (length data) = sum_got (reads t)).
Proof.
  intros decoder o res.
  pose proof (fun o' : OpenAL_Output Dev =>
    LoadBuffer_loop_reads (S (dec_remaining decoder)) decoder 32768 [] o'
      (Nat.lt_succ_diag_r _) eq_refl) as HL.
  cbv zeta in HL. unfold outcome, trace in HL.
  unfold LoadBuffer, decoder_getInfo, getALFormat. unfold_monad.
  repeat first
    [ match goal with
      | |- context [LoadBuffer_loop ?fuel ?d ?size ?data ?o'] =>
          destruct (HL o') as (data' & d' & init & len & Hr & Hsum & Hall
                               & Hhd & Hrs & Hinit & Hbd);
          destruct (LoadBuffer_loop fuel d size data o') as [[? ?] ?];
          cbn [fst snd] in *; subst
      end
    | case_step; cbn [fst snd] in * ]; try discriminate.
  all: intros _.
  all: rewrite ?app_nil_r, ?reads_app, ?buffer_data_app.
  all: cbn [reads buffer_data flat_map read_of buffer_data_of app].
  all: rewrite ?app_nil_r.
  rewrite Hbd. cbn [length Z.of_nat] in Hsum, Hhd.
  split; [exact Hall|]. split; [exact Hhd|]. split.
  - exists init, len. split; assumption.
  - exists data'. split; [reflexivity | exact Hsum].
Qed.

(** ** The methods of a one-shot sound *)

Lemma throwALerror_throws :
  forall (o : OpenAL_Output Dev) e,
    outcome (throwALerror o) = Throw e ->
    exists err,
      err <> AL_NO_ERROR
      /\ e = runtime_error ("OpenAL exception: " ++ alGetString err).
Proof.
  intros o e. unfold throwALerror. unfold_monad.
  destruct (al_call alGetError (al_device o)) as [out d].
  destruct (out1 out =? AL_NO_ERROR) eqn:E; cbn [fst snd]; [discriminate|].
  intros H. injection H as <-. exists (out1 out).
  split; [apply Z.eqb_neq, E | reflexivity].
Qed.

(** X14: [stop], [isPlaying] and [update] of a one-shot sound and
    [updateListener] change nothing of the output but the state of the
    library: the voice stays with the sound, also after [stop]. When one of
    them throws, it is a device error polled after its calls. [isPlaying] of a
    one-shot sound, unlike that of a stream, is the state of the hardware and
    nothing else. *)
Theorem one_shot_methods_poll_the_device :
  forall sound (pos atdir updir : vec3) (o : OpenAL_Output Dev),
    let device_error e :=
      exists err,
        err <> AL_NO_ERROR
        /\ e = runtime_error ("OpenAL exception: " ++ alGetString err) in
    (output_fields (final (Sound_stop sound o)) = output_fields o
     /\ forall e, outcome (Sound_stop sound o) = Throw e -> device_error e)
    /\ (output_fields (final (Sound_isPlaying sound o)) = output_fields o
        /\ (forall e, outcome (Sound_isPlaying sound o) = Throw e ->
              device_error e)
        /\ (forall b, outcome (Sound_isPlaying sound o) = Ok b ->
              b = (source_state (snd_mSource sound) o =? AL_PLAYING)))
    /\ (output_fields (final (Sound_update sound pos o)) = output_fields o
        /\ forall e, outcome (Sound_update sound pos o) = Throw e ->
             device_error e)
    /\ (output_fields (final (updateListener pos atdir updir o))
        = output_fields o
        /\ forall e, outcome (updateListener pos atdir updir o) = Throw e ->
             device_error e).
Proof.
  intros sound pos atdir updir o device_error. subst device_error.
  pose proof throwALerror_throws as HT. unfold outcome in HT.
  split; [|split; [|split]].
  - split.
    + assert (H : device_only (Sound_stop sound)) by device_only_auto.
      apply H.
    + unfold Sound_stop, bind, al, outcome.
      destruct (al_call _ (al_device o)) as [out d]. cbn [fst snd].
      intros e. specialize (HT (set_al_device d o) e).
      destruct (throwALerror (set_al_device d o)) as [[[[]|e'] o'] t'];
        cbn [fst snd] in *; [discriminate | exact HT].
  - split; [|split].
    + assert (H : device_only (Sound_isPlaying sound))
        by device_only_auto.
      apply H.
    + unfold Sound_isPlaying, bind, al, ret, outcome.
      destruct (al_call _ (al_device o)) as [out d]. cbn [fst snd].
      intros e. specialize (HT (set_al_device d o) e).
      destruct (throwALerror (set_al_device d o)) as [[[[]|e'] o'] t'];
        cbn [fst snd] in *; [discriminate|].
      intros H. injection H as <-. apply HT. reflexivity.
    + unfold source_state, al_query.
      unfold Sound_isPlaying, bind, al, ret, outcome.
      destruct (al_call _ (al_device o)) as [out d]. cbn [fst snd].
      intros b.
      destruct (throwALerror (set_al_device d o)) as [[[[]|e'] o'] t'];
        cbn [fst snd] in *; [|discriminate].
      intros H. injection H as <-. reflexivity.
  - split.
    + assert (H : device_only (Sound_update sound pos))
        by device_only_auto.
      apply H.
    + unfold Sound_update, bind, al, outcome.
      repeat (destruct (al_call _ _) as [? ?]; cbn [fst snd al_device
                                                     set_al_device]).
      intros e.
      match goal with
      | |- context [throwALerror ?o'] =>
          specialize (HT o' e);
          destruct (throwALerror o') as [[[[]|e'] o''] t']
      end; cbn [fst snd] in *; [discriminate | exact HT].
  - split.
    + assert (H : device_only (updateListener pos atdir updir))
        by device_only_auto.
      apply H.
    + unfold updateListener, bind, al, outcome.
      repeat (destruct (al_call _ _) as [? ?]; cbn [fst snd al_device
                                                     set_al_device]).
      intros e.
      match goal with
      | |- context [throwALerror ?o'] =>
          specialize (HT o' e);
          destruct (throwALerror o') as [[[[]|e'] o''] t']
      end; cbn [fst snd] in *; [discriminate | exact HT].
Qed.

End Properties.

(** * The statements on concrete data *)

Example mBufferSize_44100 :
  ALuint_of_float (SFmul 24 128 sBufferLength (float_of_Z 44100)) = 5512.
Proof. reflexivity. Qed.

Example ALuint_of_negative_float :
  ALuint_of_float (float_of_Z (-1)) = 4294967295
  /\ ALuint_of_float (SFmul 24 128 sBufferLength (float_of_Z (-44100)))
     = 4294961784.
Proof. split; reflexivity. Qed.

Example demo_playing_is_streamSound :
  let r := streamSound 5000 "short.wav" one_f one_f demo_output in
  outcome r = Ok (fst demo_playing) /\ final r = snd demo_playing.
Proof. split; reflexivity. Qed.

Example demo_finishing_is_process :
  final (process (at_hardware (hw_played 1) demo_playing)) = demo_finishing.
Proof. reflexivity. Qed.

(** C1, as stated, fails: short.wav has 50 bytes, 48 of them in the six
    queued buffers.  When the first buffer has been played, [process] takes
    it off, reads the last 2 bytes into it, a short read, and queues it
    again.  The sound is now finishing with six buffers queued, and
    [process] returns false. *)
Lemma process_false_with_buffers_queued :
  let r := process (at_hardware (hw_played 1) demo_playing) in
  outcome r = Ok false
  /\ mIsFinished (fst (final r)) = true
  /\ buffers_queued 9 (snd (final r)) = 6
  /\ ~ @process_returns_as_specified SimDevice SimOpenAL PcmDecoder
         demo_decoder.
Proof.
  repeat split.
  intros H.
  specialize (H (at_hardware (hw_played 1) demo_playing) false eq_refl).
  vm_compute in H. discriminate H.
Qed.

Lemma process_returns_not_finishing_witness :
  let st := at_hardware (hw_played 1) demo_playing in
  outcome (process st) = Ok false
  /\ false = negb (mIsFinished (fst (final (process st)))).
Proof.
  split; [reflexivity|].
  apply (process_returns_not_finishing
           (at_hardware (hw_played 1) demo_playing) false).
  reflexivity.
Defined.

Lemma process_finishing_drains_witness :
  mIsFinished (fst demo_finishing) = true
  /\ Forall drains
       (fst (process_calls [hw_played 1; hw_stalled] demo_finishing)).
Proof.
  split; [reflexivity|].
  exact (proj1 (proj2 (proj2
           (proj2 (process_finishing_drains (fst demo_finishing)
                     (snd demo_finishing)) eq_refl))
           [hw_played 1; hw_stalled])).
Defined.

Example process_calls_phase_on_demo :
  let run := process_calls [hw_played 1; hw_played 2; hw_stalled]
               demo_playing in
  phase_run Filling (fst run) = Some Draining
  /\ length (filter is_read (fst run)) = 1%nat
  /\ length (filter is_queue (fst run)) = 1%nat
  /\ length (filter is_unqueue (fst run)) = 7%nat.
Proof. repeat split. Qed.

Lemma process_refills_finished_buffers_witness :
  let s := fst (at_hardware (hw_played 1) demo_playing) in
  let o := snd (at_hardware (hw_played 1) demo_playing) in
  let q1 :=
    al_call (alGetSourcei (mSource s) AL_SOURCE_STATE) (al_device o) in
  let q2 :=
    al_call (alGetSourcei (mSource s) AL_BUFFERS_PROCESSED) (snd q1) in
  let q3 := al_call alGetError (snd q2) in
  out1 (fst q3) = AL_NO_ERROR
  /\ mIsFinished s = false
  /\ exists segs rest,
       trace (process (s, o))
       = [ EvAL (alGetSourcei (mSource s) AL_SOURCE_STATE) (fst q1);
           EvAL (alGetSourcei (mSource s) AL_BUFFERS_PROCESSED) (fst q2);
           EvAL alGetError (fst q3) ]
         ++ concat segs ++ rest
       /\ length segs = 1%nat
       /\ handles_finished_buffers s segs (fst (final (process (s, o))))
       /\ Forall refill_free rest.
Proof.
  split; [reflexivity|]. split; [reflexivity|].
  exact (process_refills_finished_buffers (AL := SimOpenAL)
           (DEC := demo_decoder)
           (fst (at_hardware (hw_played 1) demo_playing))
           (snd (at_hardware (hw_played 1) demo_playing)) eq_refl).
Defined.

Example process_refill_on_demo :
  let r := process (at_hardware (hw_played 1) demo_playing) in
  trace r
  = [ EvAL (alGetSourcei 9 AL_SOURCE_STATE) [AL_PLAYING];
      EvAL (alGetSourcei 9 AL_BUFFERS_PROCESSED) [1];
      EvAL alGetError [AL_NO_ERROR];
      EvAL (alSourceUnqueueBuffers 9 1) [100];
      EvDecoder (DecRead 8 2);
      EvAL (alBufferData 100 AL_FORMAT_MONO8 [x30; x31] 2 64) [];
      EvAL (alSourceQueueBuffers 9 [100]) [];
      EvAL alGetError [AL_NO_ERROR] ]
  /\ mIsFinished (fst (final r)) = true.
Proof. split; reflexivity. Qed.


Example process_restart_on_demo :
  let r := process (at_hardware hw_stalled demo_playing) in
  queued_answers (trace r) = [1] /\ existsb is_play (trace r) = true
  /\ source_state 9 (snd (final r)) = AL_PLAYING.
Proof. repeat split. Qed.

Example process_no_restart_without_buffers :
  let r := process (at_hardware hw_stalled demo_finishing) in
  outcome r = Ok false
  /\ queued_answers (trace r) = [0] /\ existsb is_play (trace r) = false.
Proof. repeat split. Qed.

Lemma init_populates_voice_pool_witness :
  let o := mkOutput (demo_device 2) 0 0 [] [] in
  outcome (init_open "OpenAL Soft" o) = Ok (2, 1)
  /\ 0 <= int_add 2 1
  /\ int_add 2 1 = 2 + 1
  /\ mFreeSources (final (init "OpenAL Soft" o)) = [100; 101]
  /\ outcome (init "OpenAL Soft" o) = Ok tt.
Proof.
  destruct (init_populates_voice_pool (AL := SimOpenAL) "OpenAL Soft"
              (mkOutput (demo_device 2) 0 0 [] []) (2, 1) eq_refl)
    as (_ & Hsum & Hpos & _).
  split; [reflexivity|]. split; [discriminate|].
  split; [exact (Hsum ltac:(cbn; lia))|].
  destruct (Hpos ltac:(discriminate)) as (Hpool & _ & _ & Hout).
  split; [exact Hpool | exact Hout].
Defined.

Example init_asks_the_device_on_demo :
  let o := mkOutput (demo_device 2) 0 0 [] [] in
  trace (init_open "OpenAL Soft" o)
  = [ EvAL (alcOpenDevice "OpenAL Soft") [1];
      EvStdout ("Opened " ++ dquote ++ "Software device" ++ dquote ++ endl);
      EvAL (alcCreateContext 1) [1];
      EvAL (alcMakeContextCurrent 1) [ALC_TRUE];
      EvAL (alDistanceModel AL_LINEAR_DISTANCE_CLAMPED) [];
      EvAL alGetError [AL_NO_ERROR];
      EvAL (alcGetIntegerv 1 ALC_MONO_SOURCES) [2];
      EvAL (alcGetIntegerv 1 ALC_STEREO_SOURCES) [1];
      EvAL (alcGetError 1) [ALC_NO_ERROR] ].
Proof. reflexivity. Qed.

Example init_with_negative_limits :
  let o := mkOutput (mkSim AL_NO_ERROR 100 2 (-3) 1 AL_INITIAL [] 0)
             0 0 [] [] in
  outcome (init_open "OpenAL Soft" o) = Ok (-3, 1)
  /\ outcome (init "OpenAL Soft" o) = Throw length_error
  /\ mFreeSources (final (init "OpenAL Soft" o)) = [].
Proof. repeat split. Qed.

Example c_str_stops_at_NUL :
  c_str ("soft" ++ String Ascii.zero "ware") = "soft"%string
  /\ c_str "OpenAL Soft" = "OpenAL Soft"%string.
Proof. split; reflexivity. Qed.

Example init_without_voices_fails :
  let o := mkOutput (demo_device 0) 0 0 [] [] in
  outcome (init "OpenAL Soft" o) =
    Throw (runtime_error "OpenAL exception: Could not allocate any sources")
  /\ mFreeSources (final (init "OpenAL Soft" o)) = [].
Proof. split; reflexivity. Qed.

Lemma positions_are_remapped_witness :
  let o := demo_output in
  let device_1_3_m2 := (float_of_Z 1, float_of_Z 3, float_of_Z (-2)) in
  positions (trace (Sound_update (mkSound 9 100) vec_1_2_3 o))
    = [device_1_3_m2]
  /\ positions (trace (update vec_1_2_3 demo_playing)) = [device_1_3_m2]
  /\ positions (trace (updateListener vec_1_2_3 vec_1_2_3 vec_1_2_3 o))
     = [device_1_3_m2]
  /\ outcome (playSound3D "short.wav" vec_1_2_3 one_f one_f one_f
                thousand_f false o) = Ok (mkSound 9 100)
  /\ In device_1_3_m2
       (positions (trace (playSound3D "short.wav" vec_1_2_3 one_f one_f
                            one_f thousand_f false o)))
  /\ In device_1_3_m2
       (positions (trace (streamSound3D 5000 "short.wav" vec_1_2_3 one_f
                            one_f one_f thousand_f o))).
Proof.
  destruct (@positions_are_remapped SimDevice SimOpenAL PcmDecoder
              demo_decoder PcmLib vec_1_2_3 vec_1_2_3 vec_1_2_3)
    as (Hstream & Hsound & Hlistener & Hplay & Hstr).
  split; [exact (Hsound (mkSound 9 100) demo_output)|].
  split; [exact (Hstream demo_playing)|].
  split; [exact (proj1 (Hlistener demo_output))|].
  split; [reflexivity|].
  split.
  - exact (proj2 (Hplay "short.wav"%string one_f one_f one_f thousand_f
                    false demo_output) (mkSound 9 100) eq_refl).
  - exact (proj2 (Hstr 5000 "short.wav"%string one_f one_f one_f thousand_f
                    demo_output) (fst demo_playing) eq_refl).
Defined.

Lemma isPlaying_until_finished_witness :
  let stalled := at_hardware hw_stalled demo_playing in
  outcome (play demo_idle) = Ok tt
  /\ outcome (isPlaying (final (play demo_idle))) = Ok true
  /\ (forall b, outcome (isPlaying (final (play demo_idle))) = Ok b ->
                b = true)
  /\ source_state 9 (snd stalled) = AL_STOPPED
  /\ outcome (isPlaying stalled) = Ok true
  /\ true = (source_state 9 (snd stalled) =? AL_PLAYING)
             || negb (mIsFinished (fst stalled)).
Proof.
  destruct (@isPlaying_until_finished SimDevice SimOpenAL PcmDecoder
              demo_decoder) as (Hstate & Hplay).
  split; [reflexivity|]. split; [reflexivity|].
  split; [exact (proj2 (Hplay demo_idle eq_refl))|].
  split; [reflexivity|]. split; [reflexivity|].
  exact (Hstate (fst (at_hardware hw_stalled demo_playing))
           (snd (at_hardware hw_stalled demo_playing)) true eq_refl).
Defined.

Example demo_played_is_play :
  outcome (play demo_idle) = Ok tt /\ final (play demo_idle) = demo_played.
Proof. split; reflexivity. Qed.

Lemma play_resumes_where_decoder_stands_witness :
  outcome (play demo_played) = Ok tt
  /\ pcm_pos (mDecoder (fst demo_played)) = 48%nat
  /\ buffer_data (trace (play demo_played))
     = [ [x30; x31; x32; x33; x34; x35; x36; x37];
         [x38; x39; x3a; x3b; x3c; x3d; x3e; x3f];
         [x40; x41; x42; x43; x44; x45; x46; x47];
         [x48; x49; x4a; x4b; x4c; x4d; x4e; x4f];
         [x50; x51; x52; x53; x54; x55; x56; x57];
         [x58; x59; x5a; x5b; x5c; x5d; x5e; x5f] ]
  /\ pcm_pos (mDecoder (fst (final (play demo_played)))) = 96%nat
  /\ outcome (stop demo_played) = Ok tt
  /\ pcm_pos (mDecoder (fst (final (stop demo_played)))) = 0%nat.
Proof.
  destruct (play_resumes_where_decoder_stands (fst demo_played)
              (snd demo_played)) as (_ & Hplay & _ & _ & _ & Hstop).
  split; [reflexivity|]. split; [reflexivity|].
  split; [exact (proj2 (Hplay eq_refl))|].
  split; [exact (f_equal pcm_pos (proj1 (Hplay eq_refl)))|].
  split; [reflexivity|].
  exact (f_equal pcm_pos (proj1 (Hstop eq_refl))).
Defined.

(** C2 fails on the streaming path.  The voices 7, 8 and 9 are free;
    [streamSound] takes 9; the constructor fails on the stream information
    (six channels in surround.wav, none in noinfo.wav), its handler gives 9
    back, and the handler of [streamSound] gives it back again: 9 is in
    the pool twice. *)
Theorem streamSound_failed_construction_frees_voice_twice :
  let unsupported := streamSound 5000 "surround.wav" one_f one_f demo_output in
  let noinfo := streamSound 5000 "noinfo.wav" one_f one_f demo_output in
  mFreeSources demo_output = [7; 8; 9]
  /\ outcome unsupported =
       Throw (runtime_error
         "OpenAL exception: Unsupported sound format ((unknown channel config), S16)")
  /\ mFreeSources (final unsupported) = [7; 8; 9; 9]
  /\ outcome noinfo = Throw (runtime_error "No audio stream info")
  /\ mFreeSources (final noinfo) = [7; 8; 9; 9].
Proof. repeat split. Qed.

(** The one-shot path on the same files gives the voice back once. *)
Example playSound_failed_load_frees_voice_once :
  let unsupported := playSound "surround.wav" one_f one_f false demo_output in
  let noinfo := playSound "noinfo.wav" one_f one_f false demo_output in
  mFreeSources (final unsupported) = [7; 8; 9]
  /\ mFreeSources (final noinfo) = [7; 8; 9].
Proof. split; reflexivity. Qed.

Lemma getALFormat_resolves_witness :
  getALFormat (LIB := PcmLib) ChannelConfig_Stereo SampleType_Int16 tt
    = (Ok AL_FORMAT_STEREO16, tt, [])
  /\ getALFormat (LIB := PcmLib) (ChannelConfig_Other 6) SampleType_Int16 tt
     = (Throw (runtime_error
          "OpenAL exception: Unsupported sound format ((unknown channel config), S16)"),
        tt, []).
Proof.
  split.
  - exact (proj1 (getALFormat_resolves (LIB := PcmLib) unit
                    ChannelConfig_Stereo SampleType_Int16 tt)).
  - exact (proj1 (getALFormat_resolves (LIB := PcmLib) unit
                    (ChannelConfig_Other 6) SampleType_Int16 tt)).
Defined.

(** * The further properties on concrete data *)

Lemma StreamThread_add_registers_once_witness :
  In 5000 (mStreams (snd demo_playing))
  /\ final (StreamThread_add 5000 (snd demo_playing)) = snd demo_playing
  /\ ~ In 5001 (mStreams (snd demo_playing))
  /\ final (StreamThread_add 5001 (snd demo_playing))
     = set_mStreams [5000; 5001] (snd demo_playing)
  /\ NoDup (mStreams (snd demo_playing))
  /\ NoDup (mStreams (final (StreamThread_add 5001 (snd demo_playing)))).
Proof.
  assert (Hin : In 5000 (mStreams (snd demo_playing)))
    by (left; reflexivity).
  assert (Hout : ~ In 5001 (mStreams (snd demo_playing)))
    by (intros [H|[]]; discriminate H).
  assert (Hnd : NoDup (mStreams (snd demo_playing)))
    by (repeat constructor; intros []).
  destruct (StreamThread_add_registers_once 5000 (snd demo_playing))
    as (_ & _ & _ & Hold & _).
  destruct (StreamThread_add_registers_once 5001 (snd demo_playing))
    as (_ & _ & _ & _ & Hnew & Hkeeps & _).
  split; [exact Hin|]. split; [exact (Hold Hin)|].
  split; [exact Hout|]. split; [exact (Hnew Hout)|].
  split; [exact Hnd | exact (Hkeeps Hnd)].
Defined.

Lemma StreamThread_remove_unregisters_witness :
  NoDup (mStreams (snd demo_playing))
  /\ ~ In 5000
         (mStreams (final (StreamThread_remove 5000 (snd demo_playing))))
  /\ final (StreamThread_remove 5000 (snd demo_playing))
     = set_mStreams [] (snd demo_playing)
  /\ ~ In 5001 (mStreams (snd demo_playing))
  /\ final (StreamThread_remove 5001 (snd demo_playing)) = snd demo_playing
  /\ final (StreamThread_remove 5001
              (final (StreamThread_add 5001 (snd demo_playing))))
     = snd demo_playing.
Proof.
  assert (Hout : ~ In 5001 (mStreams (snd demo_playing)))
    by (intros [H|[]]; discriminate H).
  assert (Hnd : NoDup (mStreams (snd demo_playing)))
    by (repeat constructor; intros []).
  destruct (StreamThread_remove_unregisters 5000 (snd demo_playing))
    as (_ & _ & _ & Hgone & _).
  destruct (StreamThread_remove_unregisters 5001 (snd demo_playing))
    as (_ & _ & Habsent & _ & Hround).
  split; [exact Hnd|]. split; [exact (proj1 (Hgone Hnd))|].
  split; [exact (proj2 (Hgone Hnd))|]. split; [exact Hout|].
  split; [exact (Habsent Hout) | exact (Hround Hout)].
Defined.

Example sweep_on_demo :
  let r := StreamThread_sweep (demo_objects, demo_two_streams) in
  outcome r = Ok tt /\ mStreams (snd (final r)) = [5000].
Proof. split; reflexivity. Qed.

Lemma StreamThread_sweep_keeps_unfinished_witness :
  let r := StreamThread_sweep (demo_objects, demo_two_streams) in
  NoDup (mStreams demo_two_streams)
  /\ outcome r = Ok tt
  /\ output_fields (snd (final r))
     = (1, 1, [7], filter (unfinished (fst (final r))) [5000; 5001])
  /\ fst (final r) 5001 = demo_objects 5001.
Proof.
  assert (Hnd : NoDup (mStreams demo_two_streams)).
  { constructor; [intros [H|[]]; discriminate H|].
    constructor; [intros [] | constructor]. }
  destruct (StreamThread_sweep_keeps_unfinished (AL := SimOpenAL)
              (DEC := demo_decoder) demo_objects demo_two_streams Hnd
              eq_refl) as (Hreg & _ & Hfin & _).
  split; [exact Hnd|]. split; [reflexivity|].
  split; [exact Hreg | exact (Hfin 5001 eq_refl)].
Defined.

Lemma process_requeues_what_it_unqueued_witness :
  let st := at_hardware (hw_played 1) demo_playing in
  let fin := at_hardware (hw_played 1) demo_finishing in
  outcome (process st) = Ok false
  /\ count_events is_unqueue (trace (process st))
     = Z.to_nat (processed_reported (fst st) (snd st))
  /\ mIsFinished (fst fin) = true
  /\ count_events is_read (trace (process fin)) = 0%nat.
Proof.
  destruct (process_requeues_what_it_unqueued
              (fst (at_hardware (hw_played 1) demo_playing))
              (snd (at_hardware (hw_played 1) demo_playing)))
    as (_ & _ & Hok & _).
  destruct (process_requeues_what_it_unqueued
              (fst (at_hardware (hw_played 1) demo_finishing))
              (snd (at_hardware (hw_played 1) demo_finishing)))
    as (_ & _ & _ & Hfin).
  split; [reflexivity|]. split; [exact (Hok false eq_refl)|].
  split; [reflexivity | exact (Hfin eq_refl)].
Defined.

Lemma play_registers_the_stream_witness :
  let faulty := at_hardware hw_faulty demo_idle in
  outcome (play demo_idle) = Ok tt
  /\ mIsFinished (fst (final (play demo_idle))) = false
  /\ In 5000 (mStreams (snd (final (play demo_idle))))
  /\ outcome (play faulty)
     = Throw (runtime_error "OpenAL exception: Invalid Value")
  /\ mIsFinished (fst (final (play faulty))) = true
  /\ mStreams (snd (final (play faulty))) = [].
Proof.
  destruct (play_registers_the_stream (fst demo_idle) (snd demo_idle))
    as (_ & _ & Hok & _).
  destruct (play_registers_the_stream
              (fst (at_hardware hw_faulty demo_idle))
              (snd (at_hardware hw_faulty demo_idle)))
    as (_ & _ & _ & Hthrow).
  destruct (Hok eq_refl) as (Hflag & Hreg & _).
  destruct (Hthrow _ eq_refl) as (Hflag' & Hreg' & _).
  split; [reflexivity|]. split; [exact Hflag|].
  split; [exact (proj2 (Hreg 5000) (or_introl eq_refl))|].
  split; [reflexivity|]. split; [exact Hflag' | exact Hreg'].
Defined.

Lemma stop_always_unregisters_witness :
  let faulty := at_hardware hw_faulty demo_played in
  NoDup (mStreams (snd demo_played))
  /\ ~ In 5000 (mStreams (snd (final (stop demo_played))))
  /\ outcome (stop faulty)
     = Throw (runtime_error "OpenAL exception: Invalid Value")
  /\ mIsFinished (fst (final (stop faulty))) = true
  /\ ~ In 5000 (mStreams (snd (final (stop faulty))))
  /\ mDecoder (fst (final (stop faulty))) = music_decoder 48.
Proof.
  assert (Hnd : NoDup (mStreams (snd demo_played)))
    by (repeat constructor; intros []).
  destruct (stop_always_unregisters (fst demo_played) (snd demo_played))
    as (_ & _ & _ & _ & Hgone & _).
  destruct (stop_always_unregisters
              (fst (at_hardware hw_faulty demo_played))
              (snd (at_hardware hw_faulty demo_played)))
    as (_ & _ & Hflag & _ & Hgone' & Hthrow).
  split; [exact Hnd|]. split; [exact (proj1 (Hgone Hnd))|].
  split; [reflexivity|]. split; [exact Hflag|].
  split; [exact (proj1 (Hgone' Hnd))|].
  exact (proj1 (Hthrow _ eq_refl)).
Defined.

Lemma stop_then_play_starts_over_witness :
  outcome (stop demo_played) = Ok tt
  /\ outcome (play (final (stop demo_played))) = Ok tt
  /\ buffer_data (trace (play (final (stop demo_played))))
     = fst (read_chunks 6 8 (music_decoder 0))
  /\ ~ In 5000 (mStreams (snd demo_idle))
  /\ outcome (play demo_idle) = Ok tt
  /\ mStreams (snd (final (stop (final (play demo_idle))))) = [].
Proof.
  destruct (stop_then_play_starts_over (fst demo_played) (snd demo_played))
    as (Hover & _).
  destruct (stop_then_play_starts_over (fst demo_idle) (snd demo_idle))
    as (_ & Hround).
  split; [reflexivity|]. split; [reflexivity|].
  split; [exact (proj1 (Hover eq_refl eq_refl))|].
  split; [intros []|]. split; [reflexivity|].
  exact (Hround (fun H : In 5000 [] => H) eq_refl).
Defined.

Lemma voice_pool_is_a_stack_witness :
  mFreeSources demo_output <> []
  /\ outcome (take_source demo_output) = Ok 9
  /\ final (free_source 9 (final (take_source demo_output))) = demo_output
  /\ mFreeSources demo_empty_pool = []
  /\ outcome (take_source demo_empty_pool)
     = Throw (runtime_error "OpenAL exception: No free sources")
  /\ final (take_source demo_empty_pool) = demo_empty_pool.
Proof.
  assert (Hne : mFreeSources demo_output <> []) by discriminate.
  destruct (voice_pool_is_a_stack demo_output) as (_ & Htake & _).
  destruct (voice_pool_is_a_stack demo_empty_pool) as (_ & _ & Hempty & _).
  destruct (Htake Hne) as (Hsrc & _ & Hback).
  destruct (Hempty eq_refl) as (Hthrow & Hsame).
  split; [exact Hne|]. split; [exact Hsrc|]. split; [exact Hback|].
  split; [reflexivity|]. split; [exact Hthrow | exact Hsame].
Defined.

Lemma no_free_voice_no_sound_witness :
  mFreeSources demo_empty_pool = []
  /\ refused (playSound "short.wav" one_f one_f false) demo_empty_pool
  /\ refused (streamSound 5000 "short.wav" one_f one_f) demo_empty_pool.
Proof.
  destruct (no_free_voice_no_sound demo_empty_pool "short.wav"%string 5000
              vec_1_2_3 one_f one_f one_f thousand_f false eq_refl)
    as (Hplay & _ & Hstream & _).
  split; [reflexivity|]. split; [exact Hplay | exact Hstream].
Defined.

Lemma playSound_conserves_voices_witness :
  let r := playSound "short.wav" one_f one_f false demo_output in
  let bad := playSound "noinfo.wav" one_f one_f false demo_output in
  outcome r = Ok (mkSound 9 100)
  /\ mFreeSources (final r) = [7; 8]
  /\ output_fields (final (OpenAL_Sound_delete (mkSound 9 100) (final r)))
     = output_fields demo_output
  /\ outcome bad = Throw (runtime_error "No audio stream info")
  /\ mFreeSources (final bad) = [7; 8; 9].
Proof.
  destruct (playSound_conserves_voices "short.wav"%string vec_1_2_3 one_f
              one_f one_f thousand_f false demo_output)
    as ((_ & Hok & _) & _).
  destruct (playSound_conserves_voices "noinfo.wav"%string vec_1_2_3 one_f
              one_f one_f thousand_f false demo_output)
    as ((_ & _ & Hthrow) & _).
  destruct (Hok (mkSound 9 100) eq_refl) as (_ & _ & Hpool & _ & Hdel).
  split; [reflexivity|]. split; [exact Hpool|]. split; [exact Hdel|].
  split; [reflexivity | exact (Hthrow _ eq_refl)].
Defined.

Lemma streamSound_registers_and_delete_restores_witness :
  let r := streamSound 5000 "short.wav" one_f one_f demo_output in
  let deleted := OpenAL_SoundStream_delete (fst demo_playing, final r) in
  outcome r = Ok (fst demo_playing)
  /\ mFreeSources (final r) = [7; 8]
  /\ In 5000 (mStreams (final r))
  /\ outcome deleted = Ok tt
  /\ mFreeSources (snd (final deleted)) = [7; 8; 9]
  /\ ~ In 5000 (mStreams demo_output)
  /\ mStreams (snd (final deleted)) = [].
Proof.
  destruct (streamSound_registers_and_delete_restores 5000
              "short.wav"%string vec_1_2_3 one_f one_f one_f thousand_f
              demo_output) as ((_ & Hok & _) & _).
  destruct (Hok (fst demo_playing) eq_refl)
    as (_ & _ & _ & _ & _ & Hpool & Hreg & Hdel & Hback & Hround).
  split; [reflexivity|]. split; [exact Hpool|].
  split; [exact (proj2 (Hreg 5000) (or_introl eq_refl))|].
  split; [exact Hdel|]. split; [exact Hback|].
  split; [intros []|]. exact (Hround (fun H : In 5000 [] => H)).
Defined.

Lemma init_refuses_open_device_witness :
  let r := init "OpenAL Soft" demo_closed in
  let failed := init "OpenAL Soft" (mkOutput (demo_device 0) 0 0 [] []) in
  mDevice demo_closed = 0 /\ mContext demo_closed = 0
  /\ outcome r = Ok tt
  /\ (1 <= length (mFreeSources (final r)) <= 256)%nat
  /\ mDevice demo_output <> 0
  /\ init "OpenAL Soft" demo_output
     = (Throw (runtime_error "OpenAL exception: Device already open"),
        demo_output, [])
  /\ outcome failed
     = Throw (runtime_error
                "OpenAL exception: Could not allocate any sources")
  /\ mDevice (final failed) <> 0
  /\ init "OpenAL Soft" (final failed)
     = (Throw (runtime_error "OpenAL exception: Device already open"),
        final failed, []).
Proof.
  assert (Hopen : mDevice demo_output <> 0) by discriminate.
  assert (Hleft : mDevice (final (init "OpenAL Soft"
                    (mkOutput (demo_device 0) 0 0 [] []))) <> 0)
    by discriminate.
  destruct (init_refuses_open_device "OpenAL Soft" demo_closed)
    as (_ & Hclosed).
  destruct (init_refuses_open_device "OpenAL Soft" demo_output)
    as (Hguard & _).
  destruct (init_refuses_open_device "OpenAL Soft"
              (mkOutput (demo_device 0) 0 0 [] [])) as (_ & Hfailed).
  destruct (Hclosed eq_refl eq_refl) as (_ & _ & _ & Hok).
  destruct (Hfailed eq_refl eq_refl) as (_ & _ & Hagain & _).
  split; [reflexivity|]. split; [reflexivity|]. split; [reflexivity|].
  split; [exact (proj2 (proj2 (Hok eq_refl)))|].
  split; [exact Hopen|]. split; [exact (Hguard (or_introl Hopen))|].
  split; [reflexivity|]. split; [exact Hleft|].
  exact (Hagain Hleft "OpenAL Soft"%string).
Defined.

Lemma LoadBuffer_reads_until_empty_witness :
  let r := LoadBuffer (short_decoder 0) demo_output in
  outcome r = Ok (100, short_decoder 50)
  /\ reads (trace r) = [(32768, 50); (50, 0)]
  /\ exists data,
       buffer_data (trace r) = [data]
       /\ Z.of_nat (length data) = sum_got (reads (trace r)).
Proof.
  destruct (LoadBuffer_reads_until_empty (AL := SimOpenAL)
              (DEC := demo_decoder) (LIB := PcmLib) (short_decoder 0)
              demo_output (100, short_decoder 50) eq_refl)
    as (_ & _ & _ & Hdata).
  split; [reflexivity|]. split; [reflexivity | exact Hdata].
Defined.

Lemma one_shot_methods_poll_the_device_witness :
  let faulty := snd (at_hardware hw_faulty demo_playing) in
  outcome (Sound_isPlaying (mkSound 9 100) (snd demo_playing)) = Ok true
  /\ true = (source_state 9 (snd demo_playing) =? AL_PLAYING)
  /\ outcome (Sound_stop (mkSound 9 100) faulty)
     = Throw (runtime_error "OpenAL exception: Invalid Value")
  /\ exists err,
       err <> AL_NO_ERROR
       /\ runtime_error "OpenAL exception: Invalid Value"
          = runtime_error ("OpenAL exception: " ++ alGetString err).
Proof.
  destruct (one_shot_methods_poll_the_device (mkSound 9 100) vec_1_2_3
              vec_1_2_3 vec_1_2_3 (snd demo_playing))
    as (_ & (_ & _ & Hstate) & _).
  destruct (one_shot_methods_poll_the_device (mkSound 9 100) vec_1_2_3
              vec_1_2_3 vec_1_2_3
              (snd (at_hardware hw_faulty demo_playing)))
    as ((_ & Hthrow) & _).
  split; [reflexivity|]. split; [exact (Hstate true eq_refl)|].
  split; [reflexivity | exact (Hthrow _ eq_refl)].
Defined.

Example deinit_on_demo :
  calls (trace (deinit demo_output))
  = [ alDeleteSources [7; 8; 9]; alcMakeContextCurrent 0;
      alcDestroyContext 1; alcCloseDevice 1 ]
  /\ output_fields (final (deinit demo_output)) = (0, 0, [], [])
  /\ calls (trace (deinit demo_closed)) = [alcMakeContextCurrent 0].
Proof. repeat split. Qed.

(** A device that reports a finished buffer and then refuses to give it:
    [process] fills and queues the name its variable happens to hold, the
    voice gains a buffer, and the error shows at the poll after the loop. *)
Example process_queues_after_failed_unqueue :
  let st :=
    (fst demo_playing,
     set_al_device (mkSim AL_NO_ERROR 106 0 2 1 AL_PLAYING [] 1)
       (snd demo_playing)) in
  trace (process st)
  = [ EvAL (alGetSourcei 9 AL_SOURCE_STATE) [AL_PLAYING];
      EvAL (alGetSourcei 9 AL_BUFFERS_PROCESSED) [1];
      EvAL alGetError [AL_NO_ERROR];
      EvAL (alSourceUnqueueBuffers 9 1) [];
      EvDecoder (DecRead 8 2);
      EvAL (alBufferData 57005 AL_FORMAT_MONO8 [x30; x31] 2 64) [];
      EvAL (alSourceQueueBuffers 9 [57005]) [];
      EvAL alGetError [AL_INVALID_VALUE] ]
  /\ outcome (process st)
     = Throw (runtime_error "OpenAL exception: Invalid Value")
  /\ sim_queue (al_device (snd st)) = []
  /\ sim_queue (al_device (snd (final (process st)))) = [57005].
Proof. repeat split. Qed.
